(** * Graham scan convex hull (src/main.py, class ConvexHull)

    A shallow embedding of [ConvexHull.compute_hull] and the routines it
    calls, followed by the properties of the hull it returns.

    Data.  A point is a pair of Python integers, [p[0]] and [p[1]]; integer
    subtraction and multiplication are exact, so the cross product of
    [orientation] is computed in [Z].  Coordinates that are Python floats
    are outside this development: every statement below is about points
    with integer coordinates.  The two calls into the [math] module,
    [math.atan2] and [math.sqrt], convert their integer arguments to
    floats, raise [OverflowError] when an argument is too large for that,
    and otherwise produce floats that the program only ever compares with
    [<]; they are the fields of a record [libm], so that a statement either
    holds for every such library or names what it needs from it.

    Effects.  A call returns a value or raises: [result] is the error monad
    of the embedding, and [compute_hull] also returns the object as the
    call leaves it. *)

From Stdlib Require Import Reals Lra.
From Stdlib Require Import String.
From Stdlib Require Import ZArith List Lia Bool Permutation Sorted.
Import ListNotations.
Open Scope Z_scope.

(** ** Points *)

Definition point : Type := (Z * Z)%type.

(** [p[0]] and [p[1]]. *)
Definition px (p : point) : Z := fst p.
Definition py (p : point) : Z := snd p.

(** [p == q] on coordinate pairs. *)
Definition point_eqb (p q : point) : bool :=
  (px p =? px q) && (py p =? py q).

Definition origin : point := (0, 0).

(** ** The math library *)

Record libm : Type := Libm {
  float : Type;
  (** [a < b] on floats *)
  flt : float -> float -> bool;
  (** [-math.inf] *)
  neg_inf : float;
  (** [math.atan2(y, x)] on integer arguments *)
  atan2 : Z -> Z -> float;
  (** [math.sqrt(n)] on an integer argument, which the program takes from
      a sum of two squares *)
  sqrt : Z -> float;
  (** the integer converts to a float; on an argument that does not,
      [math.atan2] and [math.sqrt] raise [OverflowError], and [atan2] and
      [sqrt] mean nothing *)
  fits : Z -> bool;
  (** every angle is above [-inf], and nothing is below it *)
  neg_inf_lt_atan2 : forall y x, flt neg_inf (atan2 y x) = true;
  not_lt_neg_inf : forall a, flt a neg_inf = false
}.

(** ** Errors and results *)

Inductive error : Type :=
| ValueError (msg : string)
| TypeError
| OverflowError.

Inductive result (A : Type) : Type :=
| Ok (a : A)
| Raise (e : error).
Arguments Ok {A} a.
Arguments Raise {A} e.

(** A call, then what follows it when it returns. *)
Definition bind {A B : Type} (r : result A) (k : A -> result B) : result B :=
  match r with
  | Ok a => k a
  | Raise e => Raise e
  end.

Notation "x <- r ;; k" := (bind r (fun x => k))
  (at level 61, r at next level, right associativity).

(** [ValueError("No points available. Add points first.")], the error the
    specification calls [EmptyInputError]. *)
Definition EmptyInputError : error :=
  ValueError "No points available. Add points first.".

(** ** Python list primitives *)

(** [l.pop(i)] for [0 <= i < len(l)]: the list without its [i]-th entry. *)
Definition pop_at {A : Type} (i : nat) (l : list A) : list A :=
  firstn i l ++ skipn (S i) l.

(** [min(l, key=k)]: the first entry whose key is minimal; [lt] is [<] on
    keys.  The list is non-empty, [x] is its first entry. *)
Fixpoint min_from {A : Type} (lt : A -> A -> bool) (best : A) (l : list A) : A :=
  match l with
  | [] => best
  | x :: l' => min_from lt (if lt x best then x else best) l'
  end.

(** The stable sort, which leaves entries that compare equal in their
    input order.  [lt x y] is [x < y]. *)
Fixpoint insert_sorted {A : Type} (lt : A -> A -> bool) (x : A) (l : list A) : list A :=
  match l with
  | [] => [x]
  | y :: l' => if lt y x then y :: insert_sorted lt x l' else x :: y :: l'
  end.

Fixpoint sorted {A : Type} (lt : A -> A -> bool) (l : list A) : list A :=
  match l with
  | [] => []
  | x :: l' => insert_sorted lt x (sorted lt l')
  end.

(** [sorted(l, key=key)]: the key of every entry is computed first, once
    and in the order of the list, so a call of [key] that raises ends the
    sort; then the entries are sorted by their keys. *)
Fixpoint with_keys {A K : Type} (key : A -> result K) (l : list A)
  : result (list (K * A)) :=
  match l with
  | [] => Ok []
  | x :: l' =>
      k <- key x ;;
      kl <- with_keys key l' ;;
      Ok ((k, x) :: kl)
  end.

Definition sorted_by_key {A K : Type} (lt : K -> K -> bool)
    (key : A -> result K) (l : list A) : result (list A) :=
  kl <- with_keys key l ;;
  Ok (map snd (sorted (fun a b => lt (fst a) (fst b)) kl)).

(** ** ConvexHull *)

(** The object: its [points] and [hull] fields. *)
Record ConvexHull : Type := MkConvexHull {
  points : list point;
  hull : list point
}.

(** [ConvexHull(points)] *)
Definition new (pts : list point) : ConvexHull :=
  {| points := pts; hull := [] |}.

(** [set_points] and [add_points]: both reset the cached hull. *)
Definition set_points (self : ConvexHull) (pts : list point) : ConvexHull :=
  {| points := pts; hull := [] |}.

Definition add_points (self : ConvexHull) (new_points : list point) : ConvexHull :=
  {| points := points self ++ new_points; hull := [] |}.

(** The value [val] of [orientation]: the cross product as the source
    writes it. *)
Definition turn (p q r : point) : Z :=
  (py q - py p) * (px r - px q) - (px q - px p) * (py r - py q).

(** [orientation(p, q, r)]: 0 collinear, 1 clockwise, 2 counterclockwise. *)
Definition orientation (p q r : point) : Z :=
  let val := turn p q r in
  if val =? 0 then 0
  else if val >? 0 then 1 else 2.

(** The integer under the square root of [distance]. *)
Definition dist2 (p1 p2 : point) : Z :=
  (px p1 - px p2) ^ 2 + (py p1 - py p2) ^ 2.

(** The key of [min]: the tuple [(p[1], p[0])], compared lexicographically. *)
Definition lowest_lt (p q : point) : bool :=
  (py p <? py q) || ((py p =? py q) && (px p <? px q)).

(** [min(points, key=lambda p: (p[1], p[0]))] *)
Definition lowest_of (pts : list point) : point :=
  match pts with
  | [] => origin
  | p :: l => min_from lowest_lt p l
  end.

(** Phase 3, the stack.  The Python list [hull] grows and shrinks at its
    end; here it is kept top first, so [hull[-1]] and [hull[-2]] are the
    first two entries, and it is reversed when it is returned. *)
Fixpoint pop_while (hull : list point) (p : point) : list point :=
  match hull with
  | top :: ((second :: _) as hull') =>
      if negb (orientation second top p =? 2) then pop_while hull' p
      else hull
  | _ => hull
  end.

Definition scan_step (hull : list point) (p : point) : list point :=
  p :: pop_while hull p.

(** Phase 3 on the collapsed list [s0 :: cs], with the early return for
    fewer than three entries. *)
Definition scan_collapsed (s0 : point) (cs : list point) : list point :=
  match cs with
  | c1 :: ((_ :: _) as cs') => rev (fold_left scan_step cs' [c1; s0])
  | _ => s0 :: cs
  end.

Section Engine.

Variable M : libm.

(** [math.sqrt(n)] and [math.atan2(y, x)] on integers. *)
Definition math_sqrt (n : Z) : result (float M) :=
  if fits M n then Ok (sqrt M n) else Raise OverflowError.

Definition math_atan2 (y x : Z) : result (float M) :=
  if fits M y && fits M x then Ok (atan2 M y x) else Raise OverflowError.

(** [distance(p1, p2)] *)
Definition distance (p1 p2 : point) : result (float M) :=
  math_sqrt (dist2 p1 p2).

(** The local function [polar_angle] of [graham_scan]. *)
Definition polar_angle (lowest p : point) : result (float M) :=
  if point_eqb p lowest then Ok (neg_inf M)
  else math_atan2 (py p - py lowest) (px p - px lowest).

(** One round of the loop [while i < len(sorted_points) - 1]; [None] when
    the loop condition fails. *)
Definition collapse_step (lowest : point) (i : nat) (sp : list point)
  : result (option (nat * list point)) :=
  if (Z.of_nat i <? Z.of_nat (length sp) - 1) then
    let o := orientation lowest (nth i sp origin) (nth (i + 1) sp origin) in
    if o =? 0 then
      d1 <- distance lowest (nth i sp origin) ;;
      d2 <- distance lowest (nth (i + 1) sp origin) ;;
      if flt M d1 d2
      then Ok (Some (i, pop_at i sp))
      else Ok (Some (i, pop_at (i + 1) sp))
    else Ok (Some ((i + 1)%nat, sp))
  else Ok None.

(** The loop, run for at most [fuel] rounds.  Every round takes one from
    [len(sorted_points) - i], so [len(sorted_points)] rounds are enough. *)
Fixpoint collapse_loop (fuel : nat) (lowest : point) (i : nat) (sp : list point)
  : result (list point) :=
  match fuel with
  | O => Ok sp
  | S fuel' =>
      step <- collapse_step lowest i sp ;;
      match step with
      | Some (i', sp') => collapse_loop fuel' lowest i' sp'
      | None => Ok sp
      end
  end.

(** The state of the loop after [k] rounds: the index and the list, or
    [None] when the loop has ended before. *)
Fixpoint collapse_rounds (k : nat) (lowest : point) (i : nat) (sp : list point)
  : result (option (nat * list point)) :=
  match k with
  | O => Ok (Some (i, sp))
  | S k' =>
      step <- collapse_step lowest i sp ;;
      match step with
      | Some (i', sp') => collapse_rounds k' lowest i' sp'
      | None => Ok None
      end
  end.

(** [graham_scan] *)
Definition graham_scan (self : ConvexHull) : result (list point) :=
  let points := points self in
  if (Z.of_nat (length points) <? 3) then Ok points
  else
    let lowest := lowest_of points in
    sorted_points <- sorted_by_key (flt M) (polar_angle lowest) points ;;
    sorted_points <- collapse_loop (length sorted_points) lowest 1 sorted_points ;;
    if (Z.of_nat (length sorted_points) <? 3) then Ok sorted_points
    else
      let hull := [nth 1 sorted_points origin; nth 0 sorted_points origin] in
      Ok (rev (fold_left scan_step (skipn 2 sorted_points) hull)).

(** [compute_hull]: the value returned or the error raised, and the object
    afterwards.  The field [hull] is assigned when [graham_scan] has
    returned. *)
Definition compute_hull (self : ConvexHull) : result (list point) * ConvexHull :=
  match points self with
  | [] => (Raise EmptyInputError, self)
  | _ =>
      match graham_scan self with
      | Ok h => (Ok h, {| points := points self; hull := h |})
      | Raise e => (Raise e, self)
      end
  end.

(** *** The values, when no call raises

    What [distance] and [polar_angle] return when they return, and what
    the phases then compute, written without the error monad. *)

Definition distance_val (p1 p2 : point) : float M :=
  sqrt M (dist2 p1 p2).

Definition polar_angle_val (lowest p : point) : float M :=
  if point_eqb p lowest then neg_inf M
  else atan2 M (py p - py lowest) (px p - px lowest).

(** [polar_angle(p) < polar_angle(q)] *)
Definition angle_lt (lowest p q : point) : bool :=
  flt M (polar_angle_val lowest p) (polar_angle_val lowest q).

(** The collapsing loop without indices.  The loop of Phase 2 reads
    [sorted_points[i]] and [sorted_points[i+1]] and removes one of them or
    advances [i]; the entries before [i] are never read again.
    [collapse lowest c rest] is the same loop on the entry [c] at index [i]
    and the entries [rest] after it; it returns what the list holds from
    index [i] on when the loop ends. *)
Fixpoint collapse (lowest c : point) (rest : list point) : list point :=
  match rest with
  | [] => [c]
  | n :: rest' =>
      if orientation lowest c n =? 0 then
        if flt M (distance_val lowest c) (distance_val lowest n)
        then collapse lowest n rest'
        else collapse lowest c rest'
      else c :: collapse lowest n rest'
  end.

(** [graham_scan] after its first early return, on the sorted list. *)
Definition graham_sorted (lowest : point) (s : list point) : list point :=
  match s with
  | s0 :: s1 :: rest => scan_collapsed s0 (collapse lowest s1 rest)
  | _ => s
  end.

(** What [graham_scan] returns when it returns. *)
Definition graham_scan_val (self : ConvexHull) : list point :=
  let points := points self in
  if (Z.of_nat (length points) <? 3) then points
  else
    let lowest := lowest_of points in
    graham_sorted lowest (sorted (angle_lt lowest) points).

End Engine.

(** ** The math library in exact real arithmetic

    The values the program obtains from [math] are [-inf], angles
    [atan2(y, x)] and roots [sqrt(n)]; an angle is only ever compared with an
    angle or with [-inf], a root only with a root.  [xreal] names such a
    value by the call that produced it, and [xlt] is the order of the real
    numbers so named.  In exact arithmetic every integer is a real number:
    no call raises. *)

Inductive xreal : Type :=
| XNegInf
| XAtan2 (y x : Z)
| XSqrt (n : Z).

(** Where [atan2(y, x)] lies in (-pi, pi]: 0 for (-pi, 0), 1 for the
    angle 0 (which is also the value at [y = x = 0]), 2 for (0, pi), 3 for
    the angle pi. *)
Definition sector (y x : Z) : Z :=
  if y <? 0 then 0
  else if 0 <? y then 2
  else if x <? 0 then 3 else 1.

Definition xlt (a b : xreal) : bool :=
  match a, b with
  | XNegInf, XNegInf => false
  | XNegInf, _ => true
  | XAtan2 y1 x1, XAtan2 y2 x2 =>
      (sector y1 x1 <? sector y2 x2)
      || ((sector y1 x1 =? sector y2 x2) && (0 <? x1 * y2 - x2 * y1))
  | XSqrt n1, XSqrt n2 => n1 <? n2
  | _, _ => false
  end.

Definition exact : libm :=
  {| float := xreal; flt := xlt; neg_inf := XNegInf;
     atan2 := XAtan2; sqrt := XSqrt;
     fits := fun _ => true;
     neg_inf_lt_atan2 := fun _ _ => eq_refl;
     not_lt_neg_inf := fun a =>
       match a with
       | XNegInf => eq_refl
       | XAtan2 _ _ => eq_refl
       | XSqrt _ => eq_refl
       end |}.

(** [math.atan2(y, x)] on the real numbers: the angle in (-pi, pi] of the
    vector [(x, y)], and 0 at the null vector. *)
Definition Ratan2 (y x : R) : R :=
  if Rlt_dec 0 x then atan (y / x)
  else if Rlt_dec x 0 then
    if Rle_dec 0 y then (atan (y / x) + PI)%R else (atan (y / x) - PI)%R
  else if Rlt_dec 0 y then (PI / 2)%R
  else if Rlt_dec y 0 then (- (PI / 2))%R
  else 0%R.

(** ** The math library with the rounding of its arguments

    [math.atan2] and [math.sqrt] convert an integer argument to the nearest
    double, ties to the even significand, before they compute; an integer
    of more than 53 bits may lose its low bits there.  [to_double n] is
    that double, for an integer in the range of the doubles.  [rounding]
    keeps this and nothing else of floating point: the values of the
    functions are compared as the real numbers they are, where Python
    rounds them to doubles as well and so merges more of them.  It is used
    for what the conversion of the arguments alone brings about: two calls
    whose converted arguments agree compute the same float in Python as
    well, and there as here neither is below the other; and an argument
    that does not convert raises [OverflowError] there as here. *)

Definition to_double (n : Z) : Z :=
  let a := Z.abs n in
  let e := Z.log2 a - 52 in
  if e <=? 0 then n
  else
    let q := a / 2 ^ e in
    let r := a mod 2 ^ e in
    let half := 2 ^ (e - 1) in
    let q' :=
      if r <? half then q
      else if half <? r then q + 1
      else if Z.even q then q else q + 1 in
    Z.sgn n * (q' * 2 ^ e).

(** The integers that convert to a double: those that round to a finite
    one.  The greatest double is [2 ^ 1024 - 2 ^ 971]; the integers from
    [2 ^ 1024 - 2 ^ 970] on round past it. *)
Definition fits_double (n : Z) : bool :=
  Z.abs n <? 2 ^ 1024 - 2 ^ 970.

Definition rounding : libm :=
  {| float := xreal; flt := xlt; neg_inf := XNegInf;
     atan2 := fun y x => XAtan2 (to_double y) (to_double x);
     sqrt := fun n => XSqrt (to_double n);
     fits := fits_double;
     neg_inf_lt_atan2 := fun _ _ => eq_refl;
     not_lt_neg_inf := fun a =>
       match a with
       | XNegInf => eq_refl
       | XAtan2 _ _ => eq_refl
       | XSqrt _ => eq_refl
       end |}.


(** ** Inputs as Python values

    [compute_hull] receives whatever the caller decoded from JSON: a
    coordinate may be a number or, for instance, a string.  Nothing before
    Phase 1 reads a coordinate.  From Phase 1 on every entry meets a
    subtraction, in [polar_angle] or in [orientation], and a subtraction
    with a string operand raises [TypeError], when the comparison of the
    keys [(p[1], p[0])] in [min] has not raised it before. *)

Inductive pyval : Type :=
| PyInt (n : Z)
| PyStr (s : string).

Definition pypoint : Type := (pyval * pyval)%type.

Definition as_int (v : pyval) : option Z :=
  match v with
  | PyInt n => Some n
  | PyStr _ => None
  end.

Definition as_point (p : pypoint) : option point :=
  match as_int (fst p), as_int (snd p) with
  | Some x, Some y => Some (x, y)
  | _, _ => None
  end.

Fixpoint as_points (l : list pypoint) : option (list point) :=
  match l with
  | [] => Some []
  | p :: l' =>
      match as_point p, as_points l' with
      | Some q, Some l'' => Some (q :: l'')
      | _, _ => None
      end
  end.

Definition of_point (p : point) : pypoint := (PyInt (px p), PyInt (py p)).

(** A coordinate that is not a number. *)
Definition malformed (l : list pypoint) : Prop := as_points l = None.

(** [compute_hull] on the decoded input, as the caller sees it. *)
Definition compute_hull_py (M : libm) (pts : list pypoint) : result (list pypoint) :=
  match pts with
  | [] => Raise EmptyInputError
  | _ =>
      if (Z.of_nat (length pts) <? 3) then Ok pts
      else
        match as_points pts with
        | Some zpts =>
            h <- graham_scan M (new zpts) ;;
            Ok (map of_point h)
        | None => Raise TypeError
        end
  end.

(** ** The vocabulary of the statements *)

(** [lowest] is below [p], or level with it and to its left: the order of
    the keys [(p[1], p[0])]. *)
Definition above (lowest p : point) : Prop := lowest_lt lowest p = true.

(** The anchor of Phase 1: an input point with no input point before it in
    that order. *)
Definition is_anchor (pts : list point) (a : point) : Prop :=
  In a pts /\ forall p, In p pts -> p = a \/ above a p.

(** [h[i]], the indices read cyclically. *)
Definition cyc (h : list point) (i : nat) : point :=
  nth (i mod length h) h origin.

(** Every three cyclically consecutive vertices turn counterclockwise. *)
Definition strictly_convex (h : list point) : Prop :=
  forall i : nat, (i < length h)%nat ->
    orientation (cyc h i) (cyc h (i + 1)) (cyc h (i + 2)) = 2.

Definition between (a b x : Z) : Prop := Z.min a b <= x <= Z.max a b.

(** [q] on the closed segment from [a] to [b]. *)
Definition on_segment (a b q : point) : Prop :=
  orientation a b q = 0
  /\ between (px a) (px b) (px q) /\ between (py a) (py b) (py q).

(** [q] in the closed region bounded by [h]: the point itself, the segment,
    or, for a polygon, on no edge's clockwise side. *)
Definition inside_or_on (h : list point) (q : point) : Prop :=
  match h with
  | [] => False
  | [a] => q = a
  | [a; b] => on_segment a b q
  | _ => forall i : nat, (i < length h)%nat ->
           orientation (cyc h i) (cyc h (i + 1)) q <> 1
  end.

Definition all_collinear (pts : list point) : Prop :=
  forall p q r, In p pts -> In q pts -> In r pts -> orientation p q r = 0.

(** The same vertex set. *)
Definition same_set (h h' : list point) : Prop :=
  forall p, In p h <-> In p h'.

(** What the statements about angles and distances need from floating
    point.  [exact_on pts]: on the points of the input [pts], every
    comparison of two polar angles, and every comparison of the distances
    of two points that are collinear with the anchor, the only ones the
    program makes, comes out as it does on the real numbers. *)
Definition exact_on (M : libm) (pts : list point) : Prop :=
  forall p q, In p pts -> In q pts ->
    angle_lt M (lowest_of pts) p q = angle_lt exact (lowest_of pts) p q
    /\ (orientation (lowest_of pts) p q = 0 ->
        flt M (distance_val M (lowest_of pts) p) (distance_val M (lowest_of pts) q)
        = flt exact (distance_val exact (lowest_of pts) p)
                    (distance_val exact (lowest_of pts) q)).

(** [exact_on], decided by running the comparisons. *)
Definition exact_on_b (M : libm) (pts : list point) : bool :=
  let lowest := lowest_of pts in
  forallb
    (fun p =>
       forallb
         (fun q =>
            Bool.eqb (angle_lt M lowest p q) (angle_lt exact lowest p q)
            && (negb (orientation lowest p q =? 0)
                || Bool.eqb
                     (flt M (distance_val M lowest p) (distance_val M lowest q))
                     (flt exact (distance_val exact lowest p)
                                (distance_val exact lowest q))))
         pts)
    pts.

(** No call of [math.atan2] or [math.sqrt] that the program can make on the
    input [pts] raises: the coordinate differences to the anchor and the
    squared distances from it convert to floats. *)
Definition in_range (M : libm) (pts : list point) : Prop :=
  forall p, In p pts ->
    fits M (py p - py (lowest_of pts)) = true
    /\ fits M (px p - px (lowest_of pts)) = true
    /\ fits M (dist2 (lowest_of pts) p) = true.

Definition in_range_b (M : libm) (pts : list point) : bool :=
  forallb
    (fun p =>
       fits M (py p - py (lowest_of pts))
       && fits M (px p - px (lowest_of pts))
       && fits M (dist2 (lowest_of pts) p))
    pts.

(** [compute_hull] returns [h]. *)
Definition returns (M : libm) (self : ConvexHull) (h : list point) : Prop :=
  fst (compute_hull M self) = Ok h.

(** The order of the polar angles about the anchor [lowest], on the anchor
    and the points above it: the anchor first, then counterclockwise. *)
Definition ang_lt (lowest a b : point) : Prop :=
  above lowest a /\ above lowest b /\ turn lowest a b < 0.

Definition ang_le (lowest a b : point) : Prop :=
  a = lowest \/ (above lowest a /\ above lowest b /\ turn lowest a b <= 0).

(** [z] on the segment from the anchor [lowest] to [y]: the anchor itself,
    or on the same ray from it as [y] and no farther. *)
Definition dominated (lowest z y : point) : Prop :=
  z = lowest
  \/ (above lowest z /\ above lowest y
      /\ turn lowest z y = 0 /\ dist2 lowest z <= dist2 lowest y).

(** The stack of Phase 3, top first.  [chain_ccw]: read from the bottom,
    every three successive entries turn counterclockwise.
    [left_of_edges st q]: [q] is on no clockwise side of an edge between
    successive entries. *)
Fixpoint chain_ccw (st : list point) : Prop :=
  match st with
  | a :: st' =>
      match st' with
      | b :: c :: _ => turn c b a < 0
      | _ => True
      end /\ chain_ccw st'
  | [] => True
  end.

Fixpoint left_of_edges (st : list point) (q : point) : Prop :=
  match st with
  | a :: st' =>
      match st' with
      | b :: _ => turn b a q <= 0
      | [] => True
      end /\ left_of_edges st' q
  | [] => True
  end.

(** The shape of the stack: the anchor at the bottom, above it entries
    above the anchor whose angles decrease from the top, and a
    counterclockwise chain. *)
Definition stack_ok (lowest : point) (st : list point) : Prop :=
  exists body,
    st = body ++ [lowest] /\ body <> []
    /\ StronglySorted (fun a b => ang_lt lowest b a) body
    /\ Forall (above lowest) body
    /\ chain_ccw st.

(** [q] is covered by the stack: on no edge's clockwise side, the edge from
    the top back to the anchor included. *)
Definition covers (lowest : point) (st : list point) (q : point) : Prop :=
  left_of_edges st q
  /\ turn (hd origin st) lowest q <= 0
  /\ (q = lowest \/ above lowest q).

(** ** Drawing

    [plot] and, in the web page, [create_plot] hand two things to
    matplotlib: the coordinates of all the points, for [scatter], and, when
    the hull has more than two entries, the coordinates of the hull with
    its first point repeated at the end, for the red line.  [figure] holds
    these arguments; the styling of the picture is left out. *)

Record figure : Type := MkFigure {
  scatter : list Z * list Z;
  line : option (list Z * list Z)
}.

(** [hull_x] and [hull_y], under the test [len(hull) > 2]. *)
Definition outline (hull : list point) : option (list Z * list Z) :=
  if (Z.of_nat (length hull) >? 2) then
    Some (map px hull ++ [px (nth 0 hull origin)],
          map py hull ++ [py (nth 0 hull origin)])
  else None.

(** [create_plot(points, hull)] of src/app.py. *)
Definition create_plot (points hull : list point) : figure :=
  {| scatter := (map px points, map py points); line := outline hull |}.

Section Methods.

Variable M : libm.

(** [plot]: the hull is computed when the cached one is empty, which may
    raise; the picture is then drawn from the fields of the object, by the
    statements of [create_plot]. *)
Definition plot (self : ConvexHull) : result figure * ConvexHull :=
  let (r, self') :=
    match hull self with
    | [] => compute_hull M self
    | _ :: _ => (Ok (hull self), self)
    end in
  match r with
  | Raise e => (Raise e, self')
  | Ok _ => (Ok (create_plot (points self') (hull self')), self')
  end.

(** A call of one of the methods that change or read the two fields, and
    the object after it.  A call that raises leaves the object as it was. *)
Inductive call : Type :=
| SetPoints (pts : list point)
| AddPoints (new_points : list point)
| ComputeHull
| Plot.

Definition do_call (self : ConvexHull) (c : call) : ConvexHull :=
  match c with
  | SetPoints pts => set_points self pts
  | AddPoints new_points => add_points self new_points
  | ComputeHull => snd (compute_hull M self)
  | Plot => snd (plot self)
  end.

(** The object [ConvexHull(pts)] after a sequence of calls. *)
Definition do_calls (pts : list point) (calls : list call) : ConvexHull :=
  fold_left do_call calls (new pts).

(** The field [hull] is empty or holds the hull of the present points. *)
Definition cached (self : ConvexHull) : Prop :=
  hull self = [] \/ graham_scan M self = Ok (hull self).

End Methods.

(** ** More vocabulary *)

(** The translation by [(dx, dy)] and the scaling by [k]. *)
Definition shift (dx dy : Z) (p : point) : point := (px p + dx, py p + dy).

Definition scale (k : Z) (p : point) : point := (k * px p, k * py p).

(** The comparisons of distances from [lowest] come out, on the points of
    [l], as those of the squared distances. *)
Definition distances_exact_on (M : libm) (lowest : point) (l : list point) : Prop :=
  forall p q, In p l -> In q l ->
    flt M (distance_val M lowest p) (distance_val M lowest q)
    = (dist2 lowest p <? dist2 lowest q).

(** * The calls and what they return *)

Lemma bind_returns {A B : Type} (r : result A) (k : A -> result B) (b : B) :
  bind r k = Ok b -> exists a, r = Ok a /\ k a = Ok b.
Proof.
  destruct r as [a|e]; cbn [bind]; [|discriminate].
  intros H. exists a. split; [reflexivity|exact H].
Qed.

Section Collapse.

Variable M : libm.

Lemma distance_returns (L p : point) (d : float M) :
  distance M L p = Ok d -> d = distance_val M L p.
Proof.
  unfold distance, math_sqrt, distance_val.
  destruct (fits M (dist2 L p)); [|discriminate].
  intros H. injection H as <-. reflexivity.
Qed.

Lemma distance_fits (L p : point) :
  fits M (dist2 L p) = true -> distance M L p = Ok (distance_val M L p).
Proof. unfold distance, math_sqrt, distance_val. intros ->. reflexivity. Qed.

Lemma polar_angle_returns (L p : point) (k : float M) :
  polar_angle M L p = Ok k -> k = polar_angle_val M L p.
Proof.
  unfold polar_angle, math_atan2, polar_angle_val.
  destruct (point_eqb p L).
  - intros H. injection H as <-. reflexivity.
  - destruct (fits M (py p - py L) && fits M (px p - px L)); [|discriminate].
    intros H. injection H as <-. reflexivity.
Qed.

Lemma polar_angle_fits (L p : point) :
  fits M (py p - py L) = true -> fits M (px p - px L) = true ->
  polar_angle M L p = Ok (polar_angle_val M L p).
Proof.
  unfold polar_angle, math_atan2, polar_angle_val. intros -> ->.
  destruct (point_eqb p L); reflexivity.
Qed.

(** ** The sort by keys *)

Lemma insert_sorted_map {A B : Type} (f : A -> B) (lt : A -> A -> bool)
    (lt' : B -> B -> bool) (x : A) (l : list A) :
  (forall a b, lt' (f a) (f b) = lt a b) ->
  insert_sorted lt' (f x) (map f l) = map f (insert_sorted lt x l).
Proof.
  intros H. induction l as [|y l IH]; cbn [map insert_sorted]; [reflexivity|].
  rewrite H. destruct (lt y x); cbn [map]; [|reflexivity].
  rewrite IH. reflexivity.
Qed.

Lemma sorted_map {A B : Type} (f : A -> B) (lt : A -> A -> bool)
    (lt' : B -> B -> bool) (l : list A) :
  (forall a b, lt' (f a) (f b) = lt a b) ->
  sorted lt' (map f l) = map f (sorted lt l).
Proof.
  intros H. induction l as [|x l IH]; cbn [map sorted]; [reflexivity|].
  rewrite IH. apply insert_sorted_map. exact H.
Qed.

Lemma with_keys_returns (L : point) (l : list point) :
  forall kl,
    with_keys (polar_angle M L) l = Ok kl ->
    kl = map (fun p => (polar_angle_val M L p, p)) l.
Proof.
  induction l as [|x l IH]; intros kl; cbn [with_keys map].
  - intros H. injection H as <-. reflexivity.
  - intros H. apply bind_returns in H. destruct H as (k & Hk & H).
    apply bind_returns in H. destruct H as (kl' & Hkl & H).
    injection H as <-. rewrite (polar_angle_returns L x k Hk), (IH kl' Hkl).
    reflexivity.
Qed.

Lemma with_keys_fits (L : point) (l : list point) :
  (forall p, In p l -> polar_angle M L p = Ok (polar_angle_val M L p)) ->
  with_keys (polar_angle M L) l
  = Ok (map (fun p => (polar_angle_val M L p, p)) l).
Proof.
  induction l as [|x l IH]; intros H; cbn [with_keys map]; [reflexivity|].
  rewrite (H x (or_introl eq_refl)). cbn [bind].
  rewrite IH by (intros p Hp; apply H; right; exact Hp). reflexivity.
Qed.

Lemma sorted_keys (L : point) (l : list point) :
  map snd (sorted (fun a b => flt M (fst a) (fst b))
             (map (fun p => (polar_angle_val M L p, p)) l))
  = sorted (angle_lt M L) l.
Proof.
  rewrite (sorted_map (fun p => (polar_angle_val M L p, p)) (angle_lt M L))
    by (intros a b; reflexivity).
  rewrite map_map. cbn [snd]. apply map_id.
Qed.

(** [sorted(points, key=polar_angle)] returns the points in the stable
    order of their angles. *)
Lemma sorted_by_key_returns (L : point) (l s : list point) :
  sorted_by_key (flt M) (polar_angle M L) l = Ok s ->
  s = sorted (angle_lt M L) l.
Proof.
  unfold sorted_by_key. intros H.
  apply bind_returns in H. destruct H as (kl & Hkl & H).
  injection H as <-. rewrite (with_keys_returns L l kl Hkl).
  apply sorted_keys.
Qed.

Lemma sorted_by_key_fits (L : point) (l : list point) :
  (forall p, In p l -> polar_angle M L p = Ok (polar_angle_val M L p)) ->
  sorted_by_key (flt M) (polar_angle M L) l = Ok (sorted (angle_lt M L) l).
Proof.
  intros H. unfold sorted_by_key. rewrite (with_keys_fits L l H).
  cbn [bind]. rewrite sorted_keys. reflexivity.
Qed.

(** ** The loop of Phase 2 *)

Lemma pop_at_app_here {A : Type} (pre : list A) (x : A) (l : list A) :
  pop_at (length pre) (pre ++ x :: l) = pre ++ l.
Proof.
  unfold pop_at.
  rewrite firstn_app, firstn_all, Nat.sub_diag, firstn_O, app_nil_r.
  rewrite skipn_app.
  replace (S (length pre) - length pre)%nat with 1%nat by lia.
  rewrite skipn_all2 by lia. reflexivity.
Qed.

Lemma pop_at_app_next {A : Type} (pre : list A) (x y : A) (l : list A) :
  pop_at (length pre + 1) (pre ++ x :: y :: l) = pre ++ x :: l.
Proof.
  replace (pre ++ x :: y :: l) with ((pre ++ [x]) ++ y :: l)
    by (rewrite <- app_assoc; reflexivity).
  replace (length pre + 1)%nat with (length (pre ++ [x]))
    by (rewrite length_app; reflexivity).
  rewrite pop_at_app_here, <- app_assoc. reflexivity.
Qed.

Lemma nth_app_here {A : Type} (pre : list A) (x : A) (l : list A) (d : A) :
  nth (length pre) (pre ++ x :: l) d = x.
Proof. rewrite nth_middle. reflexivity. Qed.

Lemma nth_app_next {A : Type} (pre : list A) (x y : A) (l : list A) (d : A) :
  nth (length pre + 1) (pre ++ x :: y :: l) d = y.
Proof.
  replace (pre ++ x :: y :: l) with ((pre ++ [x]) ++ y :: l)
    by (rewrite <- app_assoc; reflexivity).
  replace (length pre + 1)%nat with (length (pre ++ [x]))
    by (rewrite length_app; reflexivity).
  apply nth_middle.
Qed.

(** One round at index [length pre]: on the last entry the loop ends; on
    an entry [c] with a next entry [n] it removes one of the two or
    advances. *)
Lemma collapse_step_last (lowest : point) (pre : list point) (c : point) :
  collapse_step M lowest (length pre) (pre ++ [c]) = Ok None.
Proof.
  unfold collapse_step. rewrite length_app. cbn [length].
  replace (Z.of_nat (length pre) <? Z.of_nat (length pre + 1) - 1) with false
    by (symmetry; apply Z.ltb_ge; lia).
  reflexivity.
Qed.

Lemma collapse_step_next (lowest : point) (pre : list point) (c n : point)
    (rest : list point) :
  collapse_step M lowest (length pre) (pre ++ c :: n :: rest)
  = if orientation lowest c n =? 0 then
      d1 <- distance M lowest c ;;
      d2 <- distance M lowest n ;;
      if flt M d1 d2
      then Ok (Some (length pre, pre ++ n :: rest))
      else Ok (Some (length pre, pre ++ c :: rest))
    else Ok (Some (length (pre ++ [c]), (pre ++ [c]) ++ n :: rest)).
Proof.
  unfold collapse_step. rewrite length_app. cbn [length].
  replace (Z.of_nat (length pre) <? Z.of_nat (length pre + S (S (length rest))) - 1)
    with true by (symmetry; apply Z.ltb_lt; lia).
  rewrite nth_app_here, nth_app_next. cbv zeta.
  rewrite pop_at_app_here, pop_at_app_next.
  rewrite <- app_assoc, length_app. reflexivity.
Qed.

(** The loop with indices, started at index [length pre] with enough fuel
    for the entries that follow, ends with [collapse] of those entries
    behind the untouched prefix, unless a call of [distance] raises. *)
Lemma collapse_loop_returns (lowest : point) :
  forall (rest pre : list point) (c : point) (fuel : nat) (out : list point),
    (length rest <= fuel)%nat ->
    collapse_loop M fuel lowest (length pre) (pre ++ c :: rest) = Ok out ->
    out = pre ++ collapse M lowest c rest.
Proof.
  induction rest as [|n rest IH]; intros pre c fuel out Hfuel.
  - destruct fuel as [|fuel]; cbn [collapse_loop collapse].
    + intros H. injection H as <-. reflexivity.
    + rewrite collapse_step_last. cbn [bind].
      intros H. injection H as <-. reflexivity.
  - destruct fuel as [|fuel]; cbn [length] in Hfuel; [lia|].
    cbn [collapse_loop collapse]. rewrite collapse_step_next.
    destruct (orientation lowest c n =? 0).
    + destruct (distance M lowest c) as [d1|e] eqn:E1; cbn [bind];
        [|discriminate].
      destruct (distance M lowest n) as [d2|e] eqn:E2; cbn [bind];
        [|discriminate].
      rewrite <- (distance_returns lowest c d1 E1),
              <- (distance_returns lowest n d2 E2).
      destruct (flt M d1 d2); cbn [bind]; apply IH; lia.
    + cbn [bind]. intros H. apply IH in H; [|lia].
      rewrite H, <- app_assoc. reflexivity.
Qed.

Lemma collapse_loop_fits (lowest : point) :
  forall (rest pre : list point) (c : point) (fuel : nat),
    (length rest <= fuel)%nat ->
    Forall (fun p => fits M (dist2 lowest p) = true) (c :: rest) ->
    collapse_loop M fuel lowest (length pre) (pre ++ c :: rest)
    = Ok (pre ++ collapse M lowest c rest).
Proof.
  induction rest as [|n rest IH]; intros pre c fuel Hfuel Hfits.
  - destruct fuel as [|fuel]; cbn [collapse_loop collapse]; [reflexivity|].
    rewrite collapse_step_last. reflexivity.
  - destruct fuel as [|fuel]; cbn [length] in Hfuel; [lia|].
    cbn [collapse_loop collapse]. rewrite collapse_step_next.
    inversion Hfits as [|? ? Hc Hrest]; subst.
    inversion Hrest as [|? ? Hn Hrest']; subst.
    destruct (orientation lowest c n =? 0).
    + rewrite (distance_fits lowest c Hc), (distance_fits lowest n Hn).
      cbn [bind].
      destruct (flt M (distance_val M lowest c) (distance_val M lowest n));
        cbn [bind]; apply IH; try lia;
        [exact Hrest|constructor; assumption].
    + cbn [bind]. rewrite IH by (try lia; exact Hrest).
      rewrite <- app_assoc. reflexivity.
Qed.

Lemma collapse_not_nil (lowest c : point) (rest : list point) :
  collapse M lowest c rest <> [].
Proof.
  revert c. induction rest as [|n rest IH]; intros c; simpl; [discriminate|].
  destruct (orientation lowest c n =? 0);
    [destruct (flt M _ _); apply IH | discriminate].
Qed.

Lemma sorted_insert_length {A : Type} (lt : A -> A -> bool) (x : A) (l : list A) :
  length (insert_sorted lt x l) = S (length l).
Proof.
  induction l as [|y l IH]; simpl; [reflexivity|].
  destruct (lt y x); simpl; [rewrite IH|]; reflexivity.
Qed.

Lemma sorted_length {A : Type} (lt : A -> A -> bool) (l : list A) :
  length (sorted lt l) = length l.
Proof.
  induction l as [|x l IH]; simpl; [reflexivity|].
  rewrite sorted_insert_length, IH. reflexivity.
Qed.

(** ** [graham_scan] and its value *)

Lemma graham_scan_sorted (self : ConvexHull) :
  (3 <= length (points self))%nat ->
  graham_scan_val M self
  = graham_sorted M (lowest_of (points self))
      (sorted (angle_lt M (lowest_of (points self))) (points self)).
Proof.
  intros Hlen. unfold graham_scan_val. cbv zeta.
  replace (Z.of_nat (length (points self)) <? 3) with false
    by (symmetry; apply Z.ltb_ge; lia).
  reflexivity.
Qed.

Lemma graham_scan_small (self : ConvexHull) :
  (length (points self) < 3)%nat ->
  graham_scan_val M self = points self.
Proof.
  intros Hlen. unfold graham_scan_val. cbv zeta.
  replace (Z.of_nat (length (points self)) <? 3) with true
    by (symmetry; apply Z.ltb_lt; lia).
  reflexivity.
Qed.

(** Phase 3 on the list the loop has left. *)
Lemma scan_of_collapsed (s0 : point) (cs : list point) :
  cs <> [] ->
  (if (Z.of_nat (length (s0 :: cs)) <? 3) then s0 :: cs
   else rev (fold_left scan_step (skipn 2 (s0 :: cs))
               [nth 1 (s0 :: cs) origin; nth 0 (s0 :: cs) origin]))
  = scan_collapsed s0 cs.
Proof.
  intros Hne. unfold scan_collapsed.
  destruct cs as [|c1 [|c2 cs]]; [congruence|reflexivity|].
  cbn [length nth skipn].
  replace (Z.of_nat (S (S (S (length cs)))) <? 3) with false
    by (symmetry; apply Z.ltb_ge; lia).
  reflexivity.
Qed.

(** [graham_scan] on three points or more, after the sort. *)
Lemma graham_scan_after_sort (self : ConvexHull) (s0 s1 : point)
    (rest : list point) :
  (3 <= length (points self))%nat ->
  sorted_by_key (flt M) (polar_angle M (lowest_of (points self))) (points self)
  = Ok (s0 :: s1 :: rest) ->
  graham_scan M self
  = (sp <- collapse_loop M (length (s0 :: s1 :: rest)) (lowest_of (points self))
             (length [s0]) ([s0] ++ s1 :: rest) ;;
     if (Z.of_nat (length sp) <? 3) then Ok sp
     else Ok (rev (fold_left scan_step (skipn 2 sp)
                     [nth 1 sp origin; nth 0 sp origin]))).
Proof.
  intros Hlen Hs. unfold graham_scan. cbv zeta.
  replace (Z.of_nat (length (points self)) <? 3) with false
    by (symmetry; apply Z.ltb_ge; lia).
  rewrite Hs. reflexivity.
Qed.

(** When [graham_scan] returns, it returns [graham_scan_val]. *)
Lemma graham_scan_returns (self : ConvexHull) (h : list point) :
  graham_scan M self = Ok h -> h = graham_scan_val M self.
Proof.
  destruct (Nat.lt_ge_cases (length (points self)) 3) as [Hlen|Hlen].
  - rewrite graham_scan_small by exact Hlen. unfold graham_scan. cbv zeta.
    replace (Z.of_nat (length (points self)) <? 3) with true
      by (symmetry; apply Z.ltb_lt; lia).
    intros H. injection H as <-. reflexivity.
  - rewrite graham_scan_sorted by exact Hlen. intros H.
    destruct (sorted_by_key (flt M) (polar_angle M (lowest_of (points self)))
                (points self)) as [s|e] eqn:Es.
    + pose proof (sorted_by_key_returns _ _ _ Es) as E.
      pose proof (sorted_length (angle_lt M (lowest_of (points self)))
                    (points self)) as Hs.
      rewrite <- E in *.
      destruct s as [|s0 [|s1 rest]]; cbn [length] in Hs; try lia.
      rewrite (graham_scan_after_sort self s0 s1 rest Hlen Es) in H.
      apply bind_returns in H. destruct H as (sp & Hsp & H).
      apply collapse_loop_returns in Hsp; [|cbn [length]; lia].
      subst sp. cbn [graham_sorted].
      assert (E' : Ok h
                   = Ok (scan_collapsed s0
                           (collapse M (lowest_of (points self)) s1 rest))).
      { rewrite <- H, <- scan_of_collapsed by apply collapse_not_nil.
        cbn [app].
        destruct (Z.of_nat (length (s0 :: collapse M (lowest_of (points self)) s1 rest))
                  <? 3); reflexivity. }
      injection E' as ->. reflexivity.
    + unfold graham_scan in H. cbv zeta in H.
      replace (Z.of_nat (length (points self)) <? 3) with false in H
        by (symmetry; apply Z.ltb_ge; lia).
      rewrite Es in H. discriminate H.
Qed.

End Collapse.

(** * Orientation and the cross product *)

Lemma orientation_ccw (p q r : point) : orientation p q r = 2 <-> turn p q r < 0.
Proof.
  unfold orientation. cbv zeta.
  destruct (Z.eqb_spec (turn p q r) 0) as [E|E]; [lia|].
  destruct (Z.gtb_spec (turn p q r) 0); lia.
Qed.

Lemma orientation_col (p q r : point) : orientation p q r = 0 <-> turn p q r = 0.
Proof.
  unfold orientation. cbv zeta.
  destruct (Z.eqb_spec (turn p q r) 0) as [E|E]; [lia|].
  destruct (Z.gtb_spec (turn p q r) 0); lia.
Qed.

Lemma orientation_cw (p q r : point) : orientation p q r = 1 <-> 0 < turn p q r.
Proof.
  unfold orientation. cbv zeta.
  destruct (Z.eqb_spec (turn p q r) 0) as [E|E]; [lia|].
  destruct (Z.gtb_spec (turn p q r) 0); lia.
Qed.

Lemma orientation_not_cw (p q r : point) : orientation p q r <> 1 <-> turn p q r <= 0.
Proof. rewrite orientation_cw. lia. Qed.

Lemma orientation_eqb_0 (p q r : point) :
  (orientation p q r =? 0) = (turn p q r =? 0).
Proof.
  destruct (Z.eqb_spec (turn p q r) 0) as [E|E].
  - apply Z.eqb_eq, orientation_col, E.
  - apply Z.eqb_neq. rewrite orientation_col. exact E.
Qed.

Lemma orientation_eqb_2 (p q r : point) :
  (orientation p q r =? 2) = (turn p q r <? 0).
Proof.
  destruct (Z.ltb_spec (turn p q r) 0) as [E|E].
  - apply Z.eqb_eq, orientation_ccw, E.
  - apply Z.eqb_neq. rewrite orientation_ccw. lia.
Qed.

(** The cross product is unchanged by rotating its three points and
    changes sign when two are exchanged. *)
Lemma turn_rot (p q r : point) : turn p q r = turn q r p.
Proof. unfold turn. ring. Qed.

Lemma turn_swap (p q r : point) : turn p r q = - turn p q r.
Proof. unfold turn. ring. Qed.

Lemma turn_same_l (p q : point) : turn p p q = 0.
Proof. unfold turn. ring. Qed.

Lemma turn_same_r (p q : point) : turn p q q = 0.
Proof. unfold turn. ring. Qed.

Lemma turn_same_lr (p q : point) : turn p q p = 0.
Proof. unfold turn. ring. Qed.

(** The three-term relation between the cross products of four points seen
    from a fifth. *)
Lemma turn_plucker (o a b c d : point) :
  turn o a b * turn o c d - turn o a c * turn o b d + turn o a d * turn o b c = 0.
Proof. unfold turn. ring. Qed.

Lemma point_eqb_spec (p q : point) : reflect (p = q) (point_eqb p q).
Proof.
  unfold point_eqb, px, py. destruct p as [a b], q as [c d]. simpl.
  destruct (Z.eqb_spec a c), (Z.eqb_spec b d); simpl; constructor; congruence.
Qed.

Lemma point_eq_dec (p q : point) : {p = q} + {p <> q}.
Proof. destruct (point_eqb_spec p q); [left|right]; assumption. Qed.

Lemma point_eq_coords (p q : point) : px p = px q -> py p = py q -> p = q.
Proof. destruct p, q; unfold px, py; simpl; congruence. Qed.

(** * The anchor *)

Lemma above_iff (a p : point) :
  above a p <-> py a < py p \/ (py a = py p /\ px a < px p).
Proof.
  unfold above, lowest_lt.
  rewrite orb_true_iff, andb_true_iff, !Z.ltb_lt, Z.eqb_eq. reflexivity.
Qed.

Lemma lowest_lt_false (a p : point) :
  lowest_lt p a = false -> p = a \/ above a p.
Proof.
  intros H. destruct (point_eq_dec p a) as [E|E]; [left; exact E|right].
  apply above_iff.
  unfold lowest_lt in H. apply orb_false_iff in H. destruct H as [H1 H2].
  apply Z.ltb_ge in H1. apply andb_false_iff in H2.
  destruct (Z.eq_dec (py a) (py p)) as [Ey|Ey]; [right|left; lia].
  split; [exact Ey|].
  destruct H2 as [H2|H2]; [apply Z.eqb_neq in H2; lia|].
  apply Z.ltb_ge in H2.
  destruct (Z.eq_dec (px a) (px p)) as [Ex|Ex]; [|lia].
  exfalso. apply E. apply point_eq_coords; lia.
Qed.

Lemma above_irrefl (a : point) : ~ above a a.
Proof. rewrite above_iff. lia. Qed.

Lemma above_trans (a b c : point) : above a b -> above b c -> above a c.
Proof. rewrite !above_iff. lia. Qed.

Lemma above_lowest_lt_false (a p : point) : above a p -> lowest_lt p a = false.
Proof.
  intros H. destruct (lowest_lt p a) eqn:E; [|reflexivity].
  exfalso. apply (above_irrefl a). apply (above_trans a p a); assumption.
Qed.

Lemma min_from_spec (l : list point) :
  forall best : point,
    In (min_from lowest_lt best l) (best :: l)
    /\ forall p, In p (best :: l) ->
         p = min_from lowest_lt best l \/ above (min_from lowest_lt best l) p.
Proof.
  induction l as [|x l IH]; intros best; simpl.
  - split; [left; reflexivity|]. intros p [E|[]]. left. symmetry. exact E.
  - destruct (IH (if lowest_lt x best then x else best)) as [Hin Hmin].
    split.
    + destruct Hin as [E|Hin]; [|right; right; exact Hin].
      destruct (lowest_lt x best); [right; left|left]; exact E.
    + assert (Hcur : (if lowest_lt x best then x else best)
                     = min_from lowest_lt (if lowest_lt x best then x else best) l
                     \/ above (min_from lowest_lt (if lowest_lt x best then x else best) l)
                              (if lowest_lt x best then x else best))
        by (apply Hmin; left; reflexivity).
      intros p [E|[E|Hp]].
      * subst p. destruct (lowest_lt x best) eqn:Ex.
        -- right. destruct Hcur as [Hc|Hc].
           ++ rewrite <- Hc. exact Ex.
           ++ apply (above_trans _ x); assumption.
        -- exact Hcur.
      * subst p. destruct (lowest_lt x best) eqn:Ex.
        -- exact Hcur.
        -- apply lowest_lt_false in Ex. destruct Hcur as [Hc|Hc].
           ++ rewrite <- Hc. exact Ex.
           ++ destruct Ex as [Ex|Ex]; [subst x; right; exact Hc|].
              right. apply (above_trans _ best); assumption.
      * apply Hmin. right. exact Hp.
Qed.

(** [min] returns the anchor. *)
Lemma lowest_of_anchor (pts : list point) :
  pts <> [] -> is_anchor pts (lowest_of pts).
Proof.
  destruct pts as [|p l]; [congruence|]. intros _.
  unfold is_anchor, lowest_of. apply min_from_spec.
Qed.

(** There is one anchor. *)
Lemma anchor_unique (pts : list point) (a b : point) :
  is_anchor pts a -> is_anchor pts b -> a = b.
Proof.
  intros [Ha Hma] [Hb Hmb].
  destruct (Hma b Hb) as [E|Hab]; [symmetry; exact E|].
  destruct (Hmb a Ha) as [E|Hba]; [exact E|].
  exfalso. apply (above_irrefl a). apply (above_trans a b a); assumption.
Qed.

(** * The angular order about the anchor *)

Section Angles.

Variable L : point.

(** [turn L a b] from the coordinates relative to [L]. *)
Lemma turn_rel (a b : point) :
  turn L a b
  = (py a - py L) * (px b - px L) - (px a - px L) * (py b - py L).
Proof. unfold turn. ring. Qed.

Lemma turn_above_trans_aux (y1 x1 y2 x2 y3 x3 : Z) :
  0 <= y1 -> 0 <= y2 -> 0 <= y3 ->
  (y1 = 0 -> 0 < x1) -> (y2 = 0 -> 0 < x2) ->
  y1 * x2 - x1 * y2 <= 0 -> y2 * x3 - x2 * y3 <= 0 ->
  y1 * x3 - x1 * y3 <= 0.
Proof.
  intros H1 H2 H3 Hx1 Hx H12 H23.
  assert (Hid : y2 * (y1 * x3 - x1 * y3)
                = y1 * (y2 * x3 - x2 * y3) + y3 * (y1 * x2 - x1 * y2)) by ring.
  destruct (Z.eq_dec y2 0) as [E|E].
  - subst y2. specialize (Hx eq_refl).
    assert (y1 = 0) by nia. subst y1. specialize (Hx1 eq_refl).
    nia.
  - assert (y2 * (y1 * x3 - x1 * y3) <= 0) by (rewrite Hid; nia).
    nia.
Qed.

Lemma turn_above_trans_lt_aux (y1 x1 y2 x2 y3 x3 : Z) :
  0 <= y1 -> 0 <= y2 -> 0 <= y3 ->
  (y1 = 0 -> 0 < x1) -> (y2 = 0 -> 0 < x2) -> (y3 = 0 -> 0 < x3) ->
  y1 * x2 - x1 * y2 <= 0 -> y2 * x3 - x2 * y3 <= 0 ->
  (y1 * x2 - x1 * y2 < 0 \/ y2 * x3 - x2 * y3 < 0) ->
  y1 * x3 - x1 * y3 < 0.
Proof.
  intros H1 H2 H3 Hx1 Hx2 Hx3 H12 H23 Hs.
  assert (Hid : y2 * (y1 * x3 - x1 * y3)
                = y1 * (y2 * x3 - x2 * y3) + y3 * (y1 * x2 - x1 * y2)) by ring.
  destruct (Z.eq_dec y2 0) as [E|E].
  - subst y2. specialize (Hx2 eq_refl).
    assert (y1 = 0) by nia. subst y1. specialize (Hx1 eq_refl).
    destruct Hs as [Hs|Hs]; [lia|].
    assert (0 < y3) by nia. nia.
  - assert (0 < y2) by lia.
    assert (0 < y3).
    { destruct (Z.eq_dec y3 0) as [E3|E3]; [|lia].
      subst y3. specialize (Hx3 eq_refl). nia. }
    destruct (Z.eq_dec y1 0) as [E1|E1].
    + subst y1. specialize (Hx1 eq_refl). nia.
    + assert (y2 * (y1 * x3 - x1 * y3) < 0) by (rewrite Hid; nia).
      nia.
Qed.

Lemma above_rel (a : point) :
  above L a <-> 0 <= py a - py L /\ (py a - py L = 0 -> 0 < px a - px L).
Proof. rewrite above_iff. lia. Qed.

Lemma turn_above_trans (a b c : point) :
  above L a -> above L b -> above L c ->
  turn L a b <= 0 -> turn L b c <= 0 -> turn L a c <= 0.
Proof.
  rewrite !above_rel, !turn_rel. intros [? ?] [? ?] [? ?] ? ?.
  eapply (turn_above_trans_aux _ _ (py b - py L) (px b - px L)); eauto.
Qed.

Lemma turn_above_trans_lt (a b c : point) :
  above L a -> above L b -> above L c ->
  turn L a b <= 0 -> turn L b c <= 0 ->
  turn L a b < 0 \/ turn L b c < 0 ->
  turn L a c < 0.
Proof.
  rewrite !above_rel, !turn_rel. intros [? ?] [? ?] [? ?] ? ? ?.
  eapply (turn_above_trans_lt_aux _ _ (py b - py L) (px b - px L)); eauto.
Qed.

Lemma ang_le_refl_above (a : point) : above L a -> ang_le L a a.
Proof. intros H. right. rewrite turn_same_r. repeat split; auto; lia. Qed.

Lemma ang_le_trans (a b c : point) : ang_le L a b -> ang_le L b c -> ang_le L a c.
Proof.
  intros [E|(Ha & Hb & Hab)] Hbc; [left; exact E|].
  destruct Hbc as [E|(_ & Hc & Hbc)].
  - subst b. exfalso. exact (above_irrefl L Hb).
  - right. repeat split; auto. apply (turn_above_trans a b c); auto.
Qed.

Lemma ang_lt_trans (a b c : point) : ang_lt L a b -> ang_lt L b c -> ang_lt L a c.
Proof.
  intros (Ha & Hb & Hab) (_ & Hc & Hbc). repeat split; auto.
  apply (turn_above_trans_lt a b c); auto; lia.
Qed.

Lemma ang_lt_irrefl (a : point) : ~ ang_lt L a a.
Proof. intros (_ & _ & H). rewrite turn_same_r in H. lia. Qed.

Lemma ang_lt_asym (a b : point) : ang_lt L a b -> ~ ang_lt L b a.
Proof. intros H H'. exact (ang_lt_irrefl a (ang_lt_trans a b a H H')). Qed.

Lemma ang_lt_le (a b : point) : ang_lt L a b -> ang_le L a b.
Proof. intros (Ha & Hb & H). right. repeat split; auto. lia. Qed.

Lemma ang_le_lt_trans (a b c : point) : ang_le L a b -> ang_lt L b c -> above L a -> ang_lt L a c.
Proof.
  intros [E|(Ha & Hb & Hab)] (_ & Hc & Hbc) Ha'.
  - subst a. exfalso. exact (above_irrefl L Ha').
  - repeat split; auto. apply (turn_above_trans_lt a b c); auto; lia.
Qed.

(** The order [polar_angle(p) < polar_angle(q)] of exact arithmetic, for
    the anchor and the points above it. *)
Lemma sector_above (a : point) :
  above L a ->
  sector (py a - py L) (px a - px L) = (if 0 <? py a - py L then 2 else 1).
Proof.
  rewrite above_rel. intros [H0 Hx]. unfold sector.
  destruct (Z.ltb_spec (py a - py L) 0); [lia|].
  destruct (Z.ltb_spec 0 (py a - py L)); [reflexivity|].
  destruct (Z.ltb_spec (px a - px L) 0); [lia|reflexivity].
Qed.

Lemma angle_lt_exact_above (a b : point) :
  above L a -> above L b ->
  angle_lt exact L a b = true <-> turn L a b < 0.
Proof.
  intros Ha Hb. unfold angle_lt, polar_angle_val.
  destruct (point_eqb_spec a L) as [E|_]; [subst a; destruct (above_irrefl L Ha)|].
  destruct (point_eqb_spec b L) as [E|_]; [subst b; destruct (above_irrefl L Hb)|].
  cbn [flt exact atan2 neg_inf xlt].
  rewrite (sector_above a Ha), (sector_above b Hb), turn_rel.
  apply above_rel in Ha, Hb. destruct Ha as [Ha0 Hax], Hb as [Hb0 Hbx].
  rewrite orb_true_iff, andb_true_iff, Z.ltb_lt, Z.eqb_eq, Z.ltb_lt.
  destruct (Z.ltb_spec 0 (py a - py L)), (Z.ltb_spec 0 (py b - py L)).
  - split; [intros [?|[_ ?]]|]; nia.
  - assert (py b - py L = 0) as E by lia. specialize (Hbx E). rewrite E.
    split; [intros [?|[? _]]|]; nia.
  - assert (py a - py L = 0) as E by lia. specialize (Hax E). rewrite E.
    split; [intros _|left; lia]. nia.
  - assert (py a - py L = 0) as Ea by lia. assert (py b - py L = 0) as Eb by lia.
    rewrite Ea, Eb. split; [intros [?|[_ ?]]|]; lia.
Qed.

Lemma angle_lt_exact_anchor_l (b : point) :
  angle_lt exact L L b = negb (point_eqb b L).
Proof.
  unfold angle_lt, polar_angle_val.
  destruct (point_eqb_spec L L) as [_|N]; [|congruence].
  destruct (point_eqb b L); reflexivity.
Qed.

Lemma angle_lt_exact_anchor_r (a : point) :
  angle_lt exact L a L = false.
Proof.
  unfold angle_lt, polar_angle_val.
  destruct (point_eqb_spec L L) as [_|N]; [|congruence].
  destruct (point_eqb a L); reflexivity.
Qed.

(** [b] does not sort before [a]. *)
Lemma angle_lt_exact_false (a b : point) :
  (a = L \/ above L a) -> (b = L \/ above L b) ->
  angle_lt exact L b a = false -> ang_le L a b.
Proof.
  intros [Ea|Ha] Hb H; [left; exact Ea|].
  destruct Hb as [Eb|Hb].
  - subst b. rewrite angle_lt_exact_anchor_l in H.
    destruct (point_eqb_spec a L) as [E|N]; [left; exact E|discriminate].
  - right. repeat split; auto.
    destruct (Z.le_gt_cases (turn L a b) 0) as [Hle|Hgt]; [exact Hle|].
    assert (angle_lt exact L b a = true).
    { apply angle_lt_exact_above; auto. rewrite turn_swap. lia. }
    congruence.
Qed.

Lemma angle_lt_exact_true (a b : point) :
  (a = L \/ above L a) -> (b = L \/ above L b) ->
  angle_lt exact L a b = true -> ang_le L a b.
Proof.
  intros [Ea|Ha] Hb H; [left; exact Ea|].
  destruct Hb as [Eb|Hb].
  - subst b. rewrite angle_lt_exact_anchor_r in H. discriminate.
  - right. repeat split; auto.
    apply angle_lt_exact_above in H; auto. lia.
Qed.

End Angles.

(** * Sorting *)

Section Sorting.

Context {A : Type}.
Variable lt : A -> A -> bool.

Lemma insert_sorted_perm (x : A) (l : list A) :
  Permutation (insert_sorted lt x l) (x :: l).
Proof.
  induction l as [|y l IH]; simpl; [reflexivity|].
  destruct (lt y x); [|reflexivity].
  rewrite IH. apply perm_swap.
Qed.

Lemma sorted_perm (l : list A) : Permutation (sorted lt l) l.
Proof.
  induction l as [|x l IH]; simpl; [reflexivity|].
  rewrite insert_sorted_perm, IH. reflexivity.
Qed.

Lemma sorted_In (l : list A) (x : A) : In x (sorted lt l) <-> In x l.
Proof.
  split; apply Permutation_in; [|symmetry]; apply sorted_perm.
Qed.

(** Two orders that agree on the entries sort alike. *)
Lemma insert_sorted_ext (lt' : A -> A -> bool) (x : A) (l : list A) :
  (forall y, In y l -> lt y x = lt' y x) ->
  insert_sorted lt x l = insert_sorted lt' x l.
Proof.
  induction l as [|y l IH]; intros H; simpl; [reflexivity|].
  rewrite <- (H y) by (left; reflexivity).
  rewrite IH by (intros z Hz; apply H; right; exact Hz). reflexivity.
Qed.

(** Insertion keeps a list in order, for an order [le] that is transitive
    and holds of [x], [y] whichever way [lt y x] comes out as the
    insertion needs it. *)
Variable le : A -> A -> Prop.
Variable G : A -> Prop.
Hypothesis le_trans : forall a b c, le a b -> le b c -> le a c.
Hypothesis lt_true_le : forall a b, G a -> G b -> lt a b = true -> le a b.
Hypothesis lt_false_le : forall a b, G a -> G b -> lt b a = false -> le a b.

Lemma insert_sorted_sorted (x : A) (l : list A) :
  G x -> Forall G l ->
  StronglySorted le l -> StronglySorted le (insert_sorted lt x l).
Proof.
  intros Gx. induction l as [|y l IH]; intros Gl Hs; simpl.
  - constructor; constructor.
  - inversion Gl as [|? ? Gy Gl']; subst. inversion Hs as [|? ? Hs' Hy]; subst.
    destruct (lt y x) eqn:E.
    + constructor; [apply IH; assumption|].
      apply (Permutation_Forall (x := x :: l));
        [symmetry; apply insert_sorted_perm|].
      constructor; [apply lt_true_le; assumption|exact Hy].
    + assert (Hxy : le x y) by (apply lt_false_le; assumption).
      constructor; [exact Hs|].
      constructor; [exact Hxy|].
      eapply Forall_impl; [|exact Hy]. intros z Hz.
      apply (le_trans x y z); assumption.
Qed.

Lemma sorted_sorted (l : list A) :
  Forall G l -> StronglySorted le (sorted lt l).
Proof.
  induction l as [|x l IH]; intros Gl; simpl; [constructor|].
  inversion Gl; subst.
  apply insert_sorted_sorted; auto.
  apply (Permutation_Forall (x := l)); [symmetry; apply sorted_perm|assumption].
Qed.

End Sorting.

Lemma sorted_ext {A : Type} (lt lt' : A -> A -> bool) (l : list A) :
  (forall x y, In x l -> In y l -> lt x y = lt' x y) ->
  sorted lt l = sorted lt' l.
Proof.
  induction l as [|x l IH]; intros H; simpl; [reflexivity|].
  rewrite IH by (intros a b Ha Hb; apply H; right; assumption).
  apply insert_sorted_ext. intros y Hy. apply H.
  - right. apply (sorted_In lt' l). exact Hy.
  - left. reflexivity.
Qed.

(** A list already in order, each entry not after its successor, is left as
    it is. *)
Lemma sorted_fixed {A : Type} (lt : A -> A -> bool) (l : list A) :
  (forall pre x y post, l = pre ++ x :: y :: post -> lt y x = false) ->
  sorted lt l = l.
Proof.
  induction l as [|x l IH]; intros H; simpl; [reflexivity|].
  rewrite IH.
  - destruct l as [|y l']; [reflexivity|]. simpl.
    rewrite (H [] x y l' eq_refl). reflexivity.
  - intros pre a b post E. apply (H (x :: pre) a b post). rewrite E. reflexivity.
Qed.

(** * The sorted list of Phase 2 *)

Section SortedPoints.

Variable M : libm.
Variable L : point.

Lemma polar_angle_anchor : polar_angle_val M L L = neg_inf M.
Proof.
  unfold polar_angle_val. destruct (point_eqb_spec L L); [reflexivity|congruence].
Qed.

Lemma angle_lt_anchor_r (p : point) : angle_lt M L p L = false.
Proof.
  unfold angle_lt. rewrite polar_angle_anchor. apply not_lt_neg_inf.
Qed.

Lemma angle_lt_anchor_l (p : point) : p <> L -> angle_lt M L L p = true.
Proof.
  intros N. unfold angle_lt. rewrite polar_angle_anchor. unfold polar_angle_val.
  destruct (point_eqb_spec p L); [contradiction|].
  apply neg_inf_lt_atan2.
Qed.

(** The anchor sorts first. *)
Lemma sorted_head_anchor (l : list point) :
  In L l -> exists t, sorted (angle_lt M L) l = L :: t.
Proof.
  induction l as [|x l IH]; intros Hin; [destruct Hin|].
  simpl. destruct (point_eq_dec x L) as [E|N].
  - subst x. destruct (sorted (angle_lt M L) l) as [|y s]; simpl.
    + exists []. reflexivity.
    + rewrite (angle_lt_anchor_r y). exists (y :: s). reflexivity.
  - destruct Hin as [E|Hin]; [contradiction|].
    destruct (IH Hin) as [t Et]. rewrite Et. simpl.
    rewrite (angle_lt_anchor_l x N).
    exists (insert_sorted (angle_lt M L) x t). reflexivity.
Qed.

End SortedPoints.

Lemma exact_on_exact (pts : list point) : exact_on exact pts.
Proof. intros p q _ _. split; reflexivity. Qed.

Lemma exact_on_b_spec (M : libm) (pts : list point) :
  exact_on_b M pts = true -> exact_on M pts.
Proof.
  unfold exact_on_b. cbv zeta. intros H p q Hp Hq.
  rewrite forallb_forall in H. specialize (H p Hp).
  rewrite forallb_forall in H. specialize (H q Hq).
  apply andb_true_iff in H. destruct H as [Ha Hd].
  split; [apply Bool.eqb_prop; exact Ha|].
  intros Ho. rewrite Ho in Hd. cbn in Hd.
  apply Bool.eqb_prop. exact Hd.
Qed.

Lemma in_range_b_spec (M : libm) (pts : list point) :
  in_range_b M pts = true -> in_range M pts.
Proof.
  unfold in_range_b. intros H p Hp.
  rewrite forallb_forall in H. specialize (H p Hp).
  apply andb_true_iff in H. destruct H as [H Hd].
  apply andb_true_iff in H. destruct H as [Hy Hx].
  repeat split; assumption.
Qed.

(** In exact arithmetic the sorted list is in angular order. *)
Lemma sorted_exact_ang_le (pts : list point) (L : point) :
  is_anchor pts L ->
  StronglySorted (ang_le L) (sorted (angle_lt exact L) pts).
Proof.
  intros [_ Hmin].
  apply (sorted_sorted (angle_lt exact L) (ang_le L) (fun p => p = L \/ above L p)).
  - apply ang_le_trans.
  - intros a b Ha Hb. apply angle_lt_exact_true; assumption.
  - intros a b Ha Hb. apply angle_lt_exact_false; assumption.
  - apply Forall_forall. exact Hmin.
Qed.

(** * Phase 2: what the collapsing loop leaves *)

Lemma dist2_nonneg (p q : point) : 0 <= dist2 p q.
Proof. unfold dist2. nia. Qed.

Lemma dist2_same (p : point) : dist2 p p = 0.
Proof. unfold dist2. ring. Qed.

Lemma dist2_zero (p q : point) : dist2 p q = 0 -> q = p.
Proof.
  unfold dist2. intros H. apply point_eq_coords; nia.
Qed.

Lemma dist2_pos (p q : point) : q <> p -> 0 < dist2 p q.
Proof.
  intros N. pose proof (dist2_nonneg p q).
  destruct (Z.eq_dec (dist2 p q) 0) as [E|E]; [|lia].
  exfalso. apply N. apply dist2_zero. exact E.
Qed.

Lemma above_neq (L p : point) : above L p -> p <> L.
Proof. intros H E. subst p. exact (above_irrefl L H). Qed.

Lemma flt_exact_distance (L p q : point) :
  flt exact (distance_val exact L p) (distance_val exact L q) = (dist2 L p <? dist2 L q).
Proof. reflexivity. Qed.

(** Points on one line through the anchor. *)
Lemma turn_collinear_trans (L z y w : point) :
  y <> L -> turn L z y = 0 -> turn L y w = 0 -> turn L z w = 0.
Proof.
  intros N. rewrite !(turn_rel L). intros H1 H2.
  assert (Hy : (py y - py L) * ((py z - py L) * (px w - px L) - (px z - px L) * (py w - py L))
               = (py z - py L) * ((py y - py L) * (px w - px L) - (px y - px L) * (py w - py L))
                 + (py w - py L) * ((py z - py L) * (px y - px L) - (px z - px L) * (py y - py L)))
    by ring.
  assert (Hx : (px y - px L) * ((py z - py L) * (px w - px L) - (px z - px L) * (py w - py L))
               = (px z - px L) * ((py y - py L) * (px w - px L) - (px y - px L) * (py w - py L))
                 + (px w - px L) * ((py z - py L) * (px y - px L) - (px z - px L) * (py y - py L)))
    by ring.
  rewrite H1, H2 in Hy, Hx.
  destruct (Z.eq_dec (py y - py L) 0) as [Ey|Ey].
  - destruct (Z.eq_dec (px y - px L) 0) as [Ex|Ex].
    + exfalso. apply N. apply point_eq_coords; lia.
    + nia.
  - nia.
Qed.

Section Dominated.

Variable L : point.

Lemma dominated_refl (z : point) : z = L \/ above L z -> dominated L z z.
Proof.
  intros [E|H]; [left; exact E|right].
  rewrite turn_same_r. repeat split; auto. lia.
Qed.

Lemma dominated_trans (z y w : point) :
  dominated L z y -> dominated L y w -> dominated L z w.
Proof.
  intros [E|(Hz & Hy & Hzy & Dzy)] Hyw; [left; exact E|].
  destruct Hyw as [E|(_ & Hw & Hyw & Dyw)].
  - subst y. destruct (above_irrefl L Hy).
  - right. repeat split; auto; [|lia].
    apply (turn_collinear_trans L z y w); auto. apply above_neq. exact Hy.
Qed.

(** One round of the loop in exact arithmetic: of two entries on a line
    with the anchor, the one that stays dominates the one that goes. *)
Lemma dominated_closer (c n : point) :
  (c = L \/ above L c) -> (n = L \/ above L n) ->
  turn L c n = 0 -> dist2 L c < dist2 L n -> dominated L c n.
Proof.
  intros Hc Hn Ht Hd. destruct Hc as [E|Hc]; [left; exact E|]. right.
  destruct Hn as [E|Hn].
  - subst n. rewrite dist2_same in Hd. pose proof (dist2_nonneg L c). lia.
  - repeat split; auto. lia.
Qed.

Lemma dominated_farther (c n : point) :
  (c = L \/ above L c) -> (n = L \/ above L n) ->
  turn L c n = 0 -> dist2 L n <= dist2 L c -> dominated L n c.
Proof.
  intros Hc Hn Ht Hd. destruct Hn as [E|Hn]; [left; exact E|]. right.
  destruct Hc as [E|Hc].
  - subst c. rewrite dist2_same in Hd.
    pose proof (dist2_pos L n (above_neq L n Hn)). lia.
  - repeat split; auto. rewrite turn_swap. lia.
Qed.

Lemma collapse_In (M : libm) (rest : list point) :
  forall c x, In x (collapse M L c rest) -> In x (c :: rest).
Proof.
  induction rest as [|n rest IH]; intros c x; simpl; [tauto|].
  destruct (orientation L c n =? 0).
  - destruct (flt M _ _); intros H; apply IH in H; simpl in H; tauto.
  - intros [E|H]; [left; exact E|]. apply IH in H. simpl in H. tauto.
Qed.

Lemma collapse_exact_dominated (rest : list point) :
  forall c,
    Forall (fun p => p = L \/ above L p) (c :: rest) ->
    forall z, In z (c :: rest) ->
      exists y, In y (collapse exact L c rest) /\ dominated L z y.
Proof.
  induction rest as [|n rest IH]; intros c HG z Hz.
  - destruct Hz as [E|[]]. subst z. exists c. split; [left; reflexivity|].
    apply dominated_refl. inversion HG; assumption.
  - inversion HG as [|? ? Gc HG']; subst. inversion HG' as [|? ? Gn HG'']; subst.
    cbn [collapse]. rewrite orientation_eqb_0, flt_exact_distance.
    destruct (Z.eqb_spec (turn L c n) 0) as [Ht|Ht].
    + destruct (Z.ltb_spec (dist2 L c) (dist2 L n)) as [Hd|Hd].
      * destruct Hz as [E|Hz].
        -- subst z. destruct (IH n HG' n (or_introl eq_refl)) as (y & Hy & Dy).
           exists y. split; [exact Hy|].
           apply (dominated_trans c n y); [|exact Dy].
           apply dominated_closer; assumption.
        -- apply IH; assumption.
      * assert (HGc : Forall (fun p => p = L \/ above L p) (c :: rest))
          by (constructor; assumption).
        destruct Hz as [E|[E|Hz]].
        -- subst z. apply IH; [exact HGc|left; reflexivity].
        -- subst z. destruct (IH c HGc c (or_introl eq_refl)) as (y & Hy & Dy).
           exists y. split; [exact Hy|].
           apply (dominated_trans n c y); [|exact Dy].
           apply dominated_farther; assumption.
        -- apply IH; [exact HGc|right; exact Hz].
    + destruct Hz as [E|Hz].
      * subst z. exists c. split; [left; reflexivity|].
        apply dominated_refl. exact Gc.
      * destruct (IH n HG' z Hz) as (y & Hy & Dy).
        exists y. split; [right; exact Hy|exact Dy].
Qed.

(** Behind an entry above the anchor, the loop leaves a list in strictly
    increasing angular order. *)
Lemma collapse_exact_sorted (rest : list point) :
  forall c,
    above L c ->
    StronglySorted (ang_le L) (c :: rest) ->
    StronglySorted (ang_lt L) (collapse exact L c rest)
    /\ Forall (above L) (collapse exact L c rest).
Proof.
  induction rest as [|n rest IH]; intros c Hc Hs.
  - simpl. split; repeat constructor. exact Hc.
  - inversion Hs as [|? ? Hs' Hall]; subst.
    inversion Hall as [|? ? Hcn Hall']; subst.
    assert (Hn : above L n /\ turn L c n <= 0).
    { destruct Hcn as [E|(_ & Hn & Ht)]; [destruct (above_neq L c Hc E)|].
      split; assumption. }
    destruct Hn as [Hn Hle].
    cbn [collapse]. rewrite orientation_eqb_0, flt_exact_distance.
    destruct (Z.eqb_spec (turn L c n) 0) as [Ht|Ht].
    + destruct (dist2 L c <? dist2 L n).
      * apply IH; assumption.
      * apply IH; [exact Hc|].
        inversion Hs' as [|? ? Hs'' _]; subst. constructor; assumption.
    + destruct (IH n Hn Hs') as [Hsorted Habove].
      split; [|constructor; assumption].
      constructor; [exact Hsorted|].
      apply Forall_forall. intros x Hx.
      assert (Hcn' : ang_lt L c n) by (repeat split; auto; lia).
      apply collapse_In in Hx. destruct Hx as [E|Hx].
      * subst x. exact Hcn'.
      * inversion Hs' as [|? ? _ Hnall]; subst.
        rewrite Forall_forall in Hnall. specialize (Hnall x Hx).
        destruct Hnall as [E|(_ & Hx' & Hnx)];
          [destruct (above_neq L n Hn E)|].
        destruct Hcn' as (_ & _ & Hlt).
        repeat split; auto.
        apply (turn_above_trans_lt L c n x); auto; lia.
Qed.

(** A copy of the anchor at index 1 goes as soon as an entry follows it. *)
Lemma collapse_exact_anchor (n : point) (rest : list point) :
  collapse exact L L (n :: rest) = collapse exact L n rest.
Proof.
  cbn [collapse]. rewrite orientation_eqb_0, turn_same_l, flt_exact_distance.
  rewrite dist2_same. simpl (0 =? 0).
  destruct (Z.ltb_spec 0 (dist2 L n)) as [H|H]; [reflexivity|].
  assert (n = L) as -> by (apply dist2_zero; pose proof (dist2_nonneg L n); lia).
  reflexivity.
Qed.

(** The list the loop leaves behind the anchor, in exact arithmetic: the
    anchor alone, when every entry equals it, or entries above the anchor
    in strictly increasing angular order. *)
Lemma collapse_exact_shape (rest : list point) :
  forall c,
    StronglySorted (ang_le L) (c :: rest) ->
    Forall (fun p => p = L \/ above L p) (c :: rest) ->
    (collapse exact L c rest = [L] /\ Forall (eq L) (c :: rest))
    \/ (StronglySorted (ang_lt L) (collapse exact L c rest)
        /\ Forall (above L) (collapse exact L c rest)).
Proof.
  induction rest as [|n rest IH]; intros c Hs HG;
    inversion HG as [|? ? [E|Hc] HG']; subst.
  - left. split; [reflexivity|repeat constructor].
  - right. apply collapse_exact_sorted; assumption.
  - rewrite collapse_exact_anchor.
    inversion Hs as [|? ? Hs' Hall]; subst.
    destruct (IH n Hs' HG') as [[H1 H2]|H].
    + left. split; [exact H1|constructor; [reflexivity|exact H2]].
    + right. exact H.
  - right. apply collapse_exact_sorted; assumption.
Qed.

End Dominated.

(** * Phase 3: the scan *)

(** The two facts of plane geometry behind the scan.  [turn_new_edge]:
    at a convex corner [b], [a], [w], a point [q] left of both edges stays
    left of the edge from [a] to a point [p] that lies left of [b -> a] and
    not left of [a -> w].  [turn_chain_left]: along a counterclockwise chain
    that winds about [L], left of an edge is left of the edge before it. *)
Lemma turn_new_edge (a b w p q : point) :
  turn b a w < 0 -> turn b a p < 0 -> turn b a q <= 0 ->
  turn a w q <= 0 -> 0 <= turn a w p ->
  turn a p q <= 0.
Proof.
  intros Hw Hp Hq Hwq Hwp.
  pose proof (turn_plucker a b w p q) as Pl.
  assert (E1 : turn a b w = - turn b a w) by (unfold turn; ring).
  assert (E2 : turn a b p = - turn b a p) by (unfold turn; ring).
  assert (E3 : turn a b q = - turn b a q) by (unfold turn; ring).
  rewrite E1, E2, E3 in Pl. nia.
Qed.

Lemma turn_chain_left (L c b a p : point) :
  turn c b a < 0 -> turn b a p < 0 ->
  turn L c b < 0 -> turn L b a < 0 -> turn L b p < 0 ->
  turn c b p < 0.
Proof.
  intros Hcba Hbap Hcb Hba Hbp.
  pose proof (turn_plucker b c a p L) as Pl.
  assert (E1 : turn b c a = - turn c b a) by (unfold turn; ring).
  assert (E2 : turn b p L = turn L b p) by (unfold turn; ring).
  assert (E3 : turn b c p = - turn c b p) by (unfold turn; ring).
  assert (E4 : turn b a L = turn L b a) by (unfold turn; ring).
  assert (E5 : turn b c L = - turn L c b) by (unfold turn; ring).
  rewrite E1, E2, E3, E4, E5 in Pl. nia.
Qed.

Lemma pop_while_cons2 (a b : point) (X : list point) (p : point) :
  pop_while (a :: b :: X) p
  = if turn b a p <? 0 then a :: b :: X else pop_while (b :: X) p.
Proof.
  cbn [pop_while]. rewrite orientation_eqb_2.
  destruct (turn b a p <? 0); reflexivity.
Qed.

Lemma pop_while_single (a p : point) : pop_while [a] p = [a].
Proof. reflexivity. Qed.

(** Facts about the scan that hold whatever the input. *)
Lemma pop_while_In (st : list point) (p x : point) :
  In x (pop_while st p) -> In x st.
Proof.
  induction st as [|a st IH]; [tauto|].
  destruct st as [|b X]; [tauto|].
  rewrite pop_while_cons2. destruct (turn b a p <? 0); [tauto|].
  intros H. right. apply IH. exact H.
Qed.

Lemma pop_while_last (st : list point) (p d : point) :
  last (pop_while st p) d = last st d.
Proof.
  induction st as [|a st IH]; [reflexivity|].
  destruct st as [|b X]; [reflexivity|].
  rewrite pop_while_cons2. destruct (turn b a p <? 0); [reflexivity|].
  rewrite IH. reflexivity.
Qed.

Lemma pop_while_not_nil (st : list point) (p : point) :
  st <> [] -> pop_while st p <> [].
Proof.
  induction st as [|a st IH]; [congruence|]. intros _.
  destruct st as [|b X]; [discriminate|].
  rewrite pop_while_cons2. destruct (turn b a p <? 0); [discriminate|].
  apply IH. discriminate.
Qed.

Lemma scan_In (cs : list point) :
  forall st x, In x (fold_left scan_step cs st) -> In x st \/ In x cs.
Proof.
  induction cs as [|p cs IH]; intros st x H; simpl in *; [left; exact H|].
  apply IH in H. destruct H as [H|H]; [|right; right; exact H].
  destruct H as [E|H]; [right; left; exact E|].
  left. apply (pop_while_In st p). exact H.
Qed.

Lemma scan_last (cs : list point) :
  forall st d, st <> [] -> last (fold_left scan_step cs st) d = last st d.
Proof.
  induction cs as [|p cs IH]; intros st d Hne; simpl; [reflexivity|].
  rewrite IH by discriminate. unfold scan_step.
  pose proof (pop_while_not_nil st p Hne) as Hp.
  destruct (pop_while st p) as [|y l] eqn:E; [congruence|].
  change (last (p :: y :: l) d) with (last (y :: l) d).
  rewrite <- E. apply pop_while_last.
Qed.

Lemma scan_not_nil (cs : list point) :
  forall st, st <> [] -> fold_left scan_step cs st <> [].
Proof.
  induction cs as [|p cs IH]; intros st Hne; simpl; [exact Hne|].
  apply IH. discriminate.
Qed.

(** Whatever the order of the points, the stack is a counterclockwise
    chain: a point is pushed on two entries only when it turns
    counterclockwise with them. *)
Lemma pop_while_chain (st : list point) (p : point) :
  chain_ccw st -> chain_ccw (p :: pop_while st p).
Proof.
  induction st as [|a st IH]; intros Hch; [simpl; tauto|].
  destruct st as [|b X]; [simpl; tauto|].
  rewrite pop_while_cons2.
  destruct (Z.ltb_spec (turn b a p) 0) as [Hccw|_].
  - split; [exact Hccw|exact Hch].
  - apply IH. apply Hch.
Qed.

Lemma scan_chain (cs : list point) :
  forall st, chain_ccw st -> chain_ccw (fold_left scan_step cs st).
Proof.
  induction cs as [|p cs IH]; intros st Hch; simpl; [exact Hch|].
  apply IH. apply pop_while_chain. exact Hch.
Qed.

Section Scan.

Variable L : point.

Lemma chain_ccw_tail (a : point) (st : list point) :
  chain_ccw (a :: st) -> chain_ccw st.
Proof. intros [_ H]. exact H. Qed.

Lemma chain_ccw_cons (p a b : point) (X : list point) :
  turn b a p < 0 -> chain_ccw (a :: b :: X) -> chain_ccw (p :: a :: b :: X).
Proof. intros H1 H2. split; assumption. Qed.

(** The pops stop above the anchor, on a suffix of the stack to which [p]
    adds a counterclockwise turn. *)
Lemma pop_while_shape (p : point) (body : list point) :
  body <> [] ->
  Forall (fun x => ang_lt L x p) body ->
  chain_ccw (body ++ [L]) ->
  exists pre body',
    body = pre ++ body' /\ body' <> []
    /\ pop_while (body ++ [L]) p = body' ++ [L]
    /\ chain_ccw (p :: body' ++ [L]).
Proof.
  induction body as [|a body IH]; [congruence|]. intros _ Hlt Hch.
  inversion Hlt as [|? ? Ha Hlt']; subst.
  destruct body as [|b body].
  - exists [], [a]. cbn [app]. rewrite pop_while_cons2.
    destruct Ha as (_ & _ & Ha).
    destruct (Z.ltb_spec (turn L a p) 0) as [_|N]; [|lia].
    split; [reflexivity|]. split; [discriminate|]. split; [reflexivity|].
    apply chain_ccw_cons; assumption.
  - cbn [app] in *. rewrite pop_while_cons2.
    destruct (Z.ltb_spec (turn b a p) 0) as [Hccw|Hpop].
    + exists [], (a :: b :: body). cbn [app].
      split; [reflexivity|]. split; [discriminate|]. split; [reflexivity|].
      apply chain_ccw_cons; assumption.
    + destruct (IH ltac:(discriminate) Hlt' (chain_ccw_tail _ _ Hch))
        as (pre & body' & E & Hne & Hpw & Hch').
      exists (a :: pre), body'. cbn [app].
      split; [rewrite E; reflexivity|]. split; [exact Hne|].
      split; [exact Hpw|exact Hch'].
Qed.

Lemma StronglySorted_app_r {A : Type} (R : A -> A -> Prop) (l1 l2 : list A) :
  StronglySorted R (l1 ++ l2) -> StronglySorted R l2.
Proof.
  induction l1 as [|x l1 IH]; simpl; [auto|].
  intros H. inversion H; subst. auto.
Qed.

Lemma stack_ok_hd (st : list point) :
  stack_ok L st ->
  exists top body, st = top :: body ++ [L]
    /\ above L top
    /\ Forall (fun x => ang_lt L x top) body
    /\ StronglySorted (fun a b => ang_lt L b a) (top :: body)
    /\ Forall (above L) body.
Proof.
  intros (body & E & Hne & Hs & Hab & Hch).
  destruct body as [|top body]; [congruence|].
  exists top, body. subst st.
  inversion Hs; subst. inversion Hab; subst.
  split; [reflexivity|]. split; [assumption|]. split; [assumption|].
  split; assumption.
Qed.

Lemma scan_step_ok (st : list point) (p : point) :
  stack_ok L st -> ang_lt L (hd origin st) p ->
  stack_ok L (scan_step st p).
Proof.
  intros Hok Hp.
  destruct (stack_ok_hd st Hok) as (top & body & E & Htop & Hbelow & Hs & Hab).
  destruct Hok as (body0 & E0 & Hne & Hs0 & Hab0 & Hch).
  assert (body0 = top :: body).
  { rewrite E in E0. change (top :: body ++ [L]) with ((top :: body) ++ [L]) in E0.
    apply app_inj_tail in E0. destruct E0 as [E0 _]. symmetry. exact E0. }
  subst body0. subst st. cbn [hd] in Hp.
  assert (Hall : Forall (fun x => ang_lt L x p) (top :: body)).
  { constructor; [exact Hp|].
    eapply Forall_impl; [|exact Hbelow]. intros x Hx.
    apply (ang_lt_trans L x top p); assumption. }
  destruct (pop_while_shape p (top :: body) Hne Hall Hch)
    as (pre & body' & Eb & Hne' & Hpw & Hch').
  unfold scan_step. change (top :: body ++ [L]) with ((top :: body) ++ [L]).
  rewrite Hpw.
  exists (p :: body').
  split; [reflexivity|]. split; [discriminate|].
  split; [|split; [|exact Hch']].
  - constructor.
    + rewrite Eb in Hs0. apply StronglySorted_app_r in Hs0. exact Hs0.
    + rewrite Eb in Hall. apply Forall_app in Hall. apply Hall.
  - constructor; [apply Hp|].
    rewrite Eb in Hab0. apply Forall_app in Hab0. apply Hab0.
Qed.

Lemma scan_step_hd (st : list point) (p : point) :
  hd origin (scan_step st p) = p.
Proof. reflexivity. Qed.

Lemma scan_ok (cs : list point) :
  forall st,
    stack_ok L st ->
    StronglySorted (ang_lt L) (hd origin st :: cs) ->
    stack_ok L (fold_left scan_step cs st).
Proof.
  induction cs as [|p cs IH]; intros st Hok Hs; simpl; [exact Hok|].
  inversion Hs as [|? ? Hs' Hall]; subst.
  inversion Hall as [|? ? Hp _]; subst.
  apply IH.
  - apply scan_step_ok; assumption.
  - rewrite scan_step_hd. exact Hs'.
Qed.

(** The stack the scan starts from. *)
Lemma stack_ok_init (c1 : point) : above L c1 -> stack_ok L [c1; L].
Proof.
  intros H. exists [c1].
  split; [reflexivity|]. split; [discriminate|].
  split; [repeat constructor|]. split; [repeat constructor; exact H|].
  simpl. tauto.
Qed.

End Scan.

(** * Phase 3: what the stack covers *)

Section Cover.

Variable L : point.

Lemma left_of_edges_tail (a : point) (st : list point) (q : point) :
  left_of_edges (a :: st) q -> left_of_edges st q.
Proof. intros [_ H]. exact H. Qed.

Lemma left_of_edges_app_r (pre st : list point) (q : point) :
  left_of_edges (pre ++ st) q -> left_of_edges st q.
Proof.
  induction pre as [|a pre IH]; [auto|]. intros H. apply IH.
  exact (left_of_edges_tail _ _ _ H).
Qed.

Lemma chain_ccw_hd (a b : point) (X : list point) :
  chain_ccw (a :: b :: X ++ [L]) -> turn (hd L (X ++ [L])) b a < 0.
Proof.
  intros [H _]. destruct X as [|c X]; exact H.
Qed.

Lemma left_of_edges_hd (a : point) (X : list point) (q : point) :
  left_of_edges (a :: X ++ [L]) q -> turn (hd L (X ++ [L])) a q <= 0.
Proof.
  intros [H _]. destruct X as [|c X]; exact H.
Qed.

(** The edge from the entry the pops stop at to the new point [p].  [w] is
    the entry popped last, or the anchor before the first pop: [q] is not
    right of the edge from the top [a] to [w], and [p] is not left of it. *)
Lemma pop_while_new_edge (p q : point) (body : list point) :
  forall a w,
    Forall (fun x => ang_lt L x p) (a :: body) ->
    chain_ccw (a :: body ++ [L]) ->
    left_of_edges (a :: body ++ [L]) q ->
    turn a w q <= 0 -> 0 <= turn a w p ->
    turn (hd L (body ++ [L])) a w < 0 ->
    turn (hd origin (pop_while (a :: body ++ [L]) p)) p q <= 0.
Proof.
  induction body as [|b body IH]; intros a w Hlt Hch Hle W1 W2 W3.
  - cbn [app hd] in *. rewrite pop_while_cons2.
    inversion Hlt as [|? ? (_ & _ & Ha) _]; subst.
    destruct (Z.ltb_spec (turn L a p) 0) as [_|N]; [|lia]. cbn [hd].
    apply (turn_new_edge a L w p q); auto. apply Hle.
  - cbn [app hd] in W3. cbn [app]. rewrite pop_while_cons2.
    destruct (Z.ltb_spec (turn b a p) 0) as [Hccw|Hpop].
    + cbn [hd]. apply (turn_new_edge a b w p q); auto. apply Hle.
    + inversion Hlt as [|? ? _ Hlt']; subst.
      apply (IH b a); auto.
      * exact (chain_ccw_tail _ _ Hch).
      * exact (left_of_edges_tail _ _ _ Hle).
      * apply Hle.
      * exact (chain_ccw_hd a b body Hch).
Qed.

(** The new point is left of every edge that stays on the stack. *)
Lemma left_of_chain (p : point) (body : list point) :
  forall a,
    chain_ccw (p :: a :: body ++ [L]) ->
    StronglySorted (fun x y => ang_lt L y x) (a :: body) ->
    ang_lt L a p ->
    left_of_edges (a :: body ++ [L]) p.
Proof.
  induction body as [|b body IH]; intros a Hch Hs Hap.
  - cbn [app left_of_edges]. destruct Hap as (_ & _ & Hap). repeat split. lia.
  - cbn [app] in Hch. destruct Hch as [Hbap Hch].
    inversion Hs as [|? ? Hs' Hall]; subst.
    inversion Hall as [|? ? Hba Hall']; subst.
    assert (Hbp : ang_lt L b p) by (apply (ang_lt_trans L b a p); assumption).
    cbn [app]. split; [lia|].
    apply IH; [|exact Hs'|exact Hbp].
    split; [|exact (chain_ccw_tail _ _ Hch)].
    destruct body as [|c body]; cbn [app].
    + apply Hbp.
    + destruct Hch as [Hcba _]. cbn [app] in Hcba.
      inversion Hs' as [|? ? _ Hall'']; subst.
      inversion Hall'' as [|? ? Hcb _]; subst.
      apply (turn_chain_left L c b a p); auto.
      * apply Hcb.
      * apply Hba.
      * apply Hbp.
Qed.

Lemma scan_step_length (st : list point) (p : point) :
  stack_ok L st -> ang_lt L (hd origin st) p ->
  (3 <= length (scan_step st p))%nat.
Proof.
  intros Hok Hp.
  destruct (stack_ok_hd L st Hok) as (top & body & E & Htop & Hbelow & Hs & Hab).
  destruct Hok as (_ & _ & _ & _ & _ & Hch).
  subst st. cbn [hd] in Hp.
  assert (Hall : Forall (fun x => ang_lt L x p) (top :: body)).
  { constructor; [exact Hp|].
    eapply Forall_impl; [|exact Hbelow]. intros x Hx.
    apply (ang_lt_trans L x top p); assumption. }
  destruct (pop_while_shape L p (top :: body) ltac:(discriminate) Hall Hch)
    as (pre & body' & Eb & Hne' & Hpw & Hch').
  unfold scan_step. change (top :: body ++ [L]) with ((top :: body) ++ [L]).
  rewrite Hpw. destruct body' as [|x body']; [congruence|].
  cbn [length app]. rewrite length_app. simpl. lia.
Qed.

Lemma scan_length (cs : list point) :
  forall st,
    stack_ok L st -> (3 <= length st)%nat ->
    StronglySorted (ang_lt L) (hd origin st :: cs) ->
    (3 <= length (fold_left scan_step cs st))%nat.
Proof.
  induction cs as [|p cs IH]; intros st Hok Hlen Hs; [exact Hlen|].
  inversion Hs as [|? ? Hs' Hall]; subst.
  inversion Hall as [|? ? Hp _]; subst.
  cbn [fold_left]. apply IH.
  - apply scan_step_ok; assumption.
  - apply scan_step_length; assumption.
  - rewrite scan_step_hd. exact Hs'.
Qed.

(** A covered point stays covered when the scan takes the next point. *)
Lemma scan_step_covers (st : list point) (p q : point) :
  stack_ok L st -> (3 <= length st)%nat ->
  ang_lt L (hd origin st) p ->
  covers L st q -> covers L (scan_step st p) q.
Proof.
  intros Hok Hlen Hp (Hle & Hclose & Hq).
  destruct (stack_ok_hd L st Hok) as (top & body & E & Htop & Hbelow & Hs & Hab).
  destruct Hok as (_ & _ & _ & _ & _ & Hch).
  subst st. cbn [hd] in *.
  assert (Hall : Forall (fun x => ang_lt L x p) (top :: body)).
  { constructor; [exact Hp|].
    eapply Forall_impl; [|exact Hbelow]. intros x Hx.
    apply (ang_lt_trans L x top p); assumption. }
  destruct (pop_while_shape L p (top :: body) ltac:(discriminate) Hall Hch)
    as (pre & body' & Eb & Hne' & Hpw & Hch').
  assert (Hedge : turn (hd origin (pop_while (top :: body ++ [L]) p)) p q <= 0).
  { apply (pop_while_new_edge p q body top L); auto.
    - destruct Hp as (_ & _ & Hp).
      replace (turn top L p) with (- turn L top p) by (unfold turn; ring). lia.
    - destruct body as [|b body]; [simpl in Hlen; lia|].
      inversion Hbelow as [|? ? (_ & _ & Hb) _]; subst. cbn [app hd].
      replace (turn b top L) with (turn L b top) by (unfold turn; ring).
      exact Hb. }
  unfold covers, scan_step.
  change (top :: body ++ [L]) with ((top :: body) ++ [L]) in *.
  rewrite Hpw in *. cbn [hd].
  split; [|split; [|exact Hq]].
  - destruct body' as [|x body']; [congruence|]. cbn [app hd] in *.
    split; [exact Hedge|].
    change (top :: body ++ [L]) with ((top :: body) ++ [L]) in Hle.
    rewrite Eb in Hle. rewrite <- app_assoc in Hle.
    exact (left_of_edges_app_r pre _ q Hle).
  - replace (turn p L q) with (turn L q p) by (unfold turn; ring).
    destruct Hq as [E|Hq]; [subst q; rewrite turn_same_l; lia|].
    destruct Hp as (_ & Hpa & Hp).
    apply (turn_above_trans L q top p); auto; [|lia].
    replace (turn L q top) with (turn top L q) by (unfold turn; ring).
    exact Hclose.
Qed.

(** The point the scan takes is covered by the stack it tops. *)
Lemma scan_step_covers_new (st : list point) (p : point) :
  stack_ok L st -> ang_lt L (hd origin st) p ->
  covers L (scan_step st p) p.
Proof.
  intros Hok Hp.
  destruct (stack_ok_hd L st Hok) as (top & body & E & Htop & Hbelow & Hs & Hab).
  destruct Hok as (_ & _ & _ & _ & _ & Hch).
  subst st. cbn [hd] in *.
  assert (Hall : Forall (fun x => ang_lt L x p) (top :: body)).
  { constructor; [exact Hp|].
    eapply Forall_impl; [|exact Hbelow]. intros x Hx.
    apply (ang_lt_trans L x top p); assumption. }
  destruct (pop_while_shape L p (top :: body) ltac:(discriminate) Hall Hch)
    as (pre & body' & Eb & Hne' & Hpw & Hch').
  unfold covers, scan_step.
  change (top :: body ++ [L]) with ((top :: body) ++ [L]) in *.
  rewrite Hpw. cbn [hd].
  split; [|split].
  - destruct body' as [|x body']; [congruence|]. cbn [app].
    split; [rewrite turn_same_r; lia|].
    apply (left_of_chain p body' x).
    + exact Hch'.
    + rewrite Eb in Hs. exact (StronglySorted_app_r _ _ _ Hs).
    + rewrite Eb in Hall. apply Forall_app in Hall. destruct Hall as [_ Hall].
      inversion Hall; assumption.
  - rewrite turn_same_lr. lia.
  - right. apply Hp.
Qed.

Lemma scan_covers (cs : list point) :
  forall st (Q : point -> Prop),
    stack_ok L st -> (3 <= length st)%nat ->
    StronglySorted (ang_lt L) (hd origin st :: cs) ->
    (forall q, Q q -> covers L st q) ->
    forall q, Q q \/ In q cs -> covers L (fold_left scan_step cs st) q.
Proof.
  induction cs as [|p cs IH]; intros st Q Hok Hlen Hs HQ q Hq.
  - simpl. destruct Hq as [Hq|[]]. apply HQ. exact Hq.
  - inversion Hs as [|? ? Hs' Hall]; subst.
    inversion Hall as [|? ? Hp _]; subst.
    cbn [fold_left].
    apply (IH (scan_step st p) (fun q => Q q \/ q = p)).
    + apply scan_step_ok; assumption.
    + apply scan_step_length; assumption.
    + rewrite scan_step_hd. exact Hs'.
    + intros q' [Hq'|Hq'].
      * apply scan_step_covers; auto.
      * subst q'. apply scan_step_covers_new; assumption.
    + destruct Hq as [Hq|[Hq|Hq]]; auto.
Qed.

(** The first triangle. *)
Lemma covers_init (c1 c2 q : point) :
  ang_lt L c1 c2 -> (q = L \/ q = c1 \/ q = c2) -> covers L [c2; c1; L] q.
Proof.
  intros (H1 & H2 & Ht) Hq. unfold covers. cbn [left_of_edges hd].
  assert (E1 : turn c1 c2 L = turn L c1 c2) by (unfold turn; ring).
  assert (E2 : turn c2 L c1 = turn L c1 c2) by (unfold turn; ring).
  destruct Hq as [E|[E|E]]; subst q;
    rewrite ?turn_same_l, ?turn_same_r, ?turn_same_lr, ?E1, ?E2;
    repeat split; auto; lia.
Qed.

Lemma scan_first (c1 c2 : point) (cs : list point) :
  ang_lt L c1 c2 ->
  fold_left scan_step (c2 :: cs) [c1; L] = fold_left scan_step cs [c2; c1; L].
Proof.
  intros (_ & _ & H). cbn [fold_left]. unfold scan_step at 2.
  rewrite pop_while_cons2.
  destruct (Z.ltb_spec (turn L c1 c2) 0); [reflexivity|lia].
Qed.

End Cover.

(** * From the library at hand to exact arithmetic *)

(** [compute_hull] returns [h] when there are points and [graham_scan]
    returns [h]. *)
Lemma returns_iff (M : libm) (self : ConvexHull) (h : list point) :
  returns M self h <-> points self <> [] /\ graham_scan M self = Ok h.
Proof.
  unfold returns, compute_hull.
  destruct (points self) as [|p l] eqn:E; cbn [fst].
  - split; [discriminate|]. intros [N _]. congruence.
  - destruct (graham_scan M self) as [h'|e]; cbn [fst].
    + split; [intros H; split; [discriminate|exact H]|intros [_ H]; exact H].
    + split; [discriminate|intros [_ H]; discriminate H].
Qed.

Lemma returns_graham_scan (M : libm) (self : ConvexHull) (h : list point) :
  returns M self h -> points self <> [] /\ h = graham_scan_val M self.
Proof.
  intros H. apply returns_iff in H. destruct H as [Hne H].
  split; [exact Hne|]. apply graham_scan_returns. exact H.
Qed.

(** On an input in the range of the library no call raises. *)
Lemma graham_scan_in_range (M : libm) (self : ConvexHull) :
  in_range M (points self) ->
  graham_scan M self = Ok (graham_scan_val M self).
Proof.
  intros Hr.
  destruct (Nat.lt_ge_cases (length (points self)) 3) as [Hlen|Hlen].
  - rewrite graham_scan_small by exact Hlen. unfold graham_scan. cbv zeta.
    replace (Z.of_nat (length (points self)) <? 3) with true
      by (symmetry; apply Z.ltb_lt; lia).
    reflexivity.
  - rewrite graham_scan_sorted by exact Hlen.
    assert (Es : sorted_by_key (flt M) (polar_angle M (lowest_of (points self)))
                   (points self)
                 = Ok (sorted (angle_lt M (lowest_of (points self))) (points self))).
    { apply sorted_by_key_fits. intros p Hp.
      destruct (Hr p Hp) as (Hy & Hx & _). apply polar_angle_fits; assumption. }
    pose proof (sorted_length (angle_lt M (lowest_of (points self))) (points self))
      as Hs.
    pose proof (sorted_In (angle_lt M (lowest_of (points self))) (points self))
      as Hin.
    destruct (sorted (angle_lt M (lowest_of (points self))) (points self))
      as [|s0 [|s1 rest]]; cbn [length] in Hs; try lia.
    rewrite (graham_scan_after_sort M self s0 s1 rest Hlen Es).
    rewrite collapse_loop_fits; [|cbn [length]; lia|].
    + cbn [bind graham_sorted app].
      rewrite <- scan_of_collapsed by apply collapse_not_nil.
      destruct (Z.of_nat (length (s0 :: collapse M (lowest_of (points self)) s1 rest))
                <? 3); reflexivity.
    + apply Forall_forall. intros p Hp.
      apply (Hr p). apply Hin. right. exact Hp.
Qed.

Lemma graham_scan_small_returns (M : libm) (self : ConvexHull) :
  (length (points self) < 3)%nat -> graham_scan M self = Ok (points self).
Proof.
  intros Hlen. unfold graham_scan. cbv zeta.
  replace (Z.of_nat (length (points self)) <? 3) with true
    by (symmetry; apply Z.ltb_lt; lia).
  reflexivity.
Qed.

Lemma with_keys_each {A K : Type} (key : A -> result K) (l : list A) :
  forall kl, with_keys key l = Ok kl ->
    forall x, In x l -> exists k, key x = Ok k.
Proof.
  induction l as [|y l IH]; intros kl H x Hx; [contradiction|].
  cbn [with_keys] in H. apply bind_returns in H. destruct H as (k & Hk & H).
  apply bind_returns in H. destruct H as (kl' & Hkl & _).
  destruct Hx as [<-|Hx]; [exists k; exact Hk|exact (IH kl' Hkl x Hx)].
Qed.

(** A run on three points or more that returns has computed the angle of
    every input point. *)
Lemma graham_scan_keys (M : libm) (self : ConvexHull) (h : list point) :
  (3 <= length (points self))%nat ->
  graham_scan M self = Ok h ->
  forall p, In p (points self) ->
    polar_angle M (lowest_of (points self)) p
    = Ok (polar_angle_val M (lowest_of (points self)) p).
Proof.
  intros Hlen H p Hp. unfold graham_scan in H. cbv zeta in H.
  replace (Z.of_nat (length (points self)) <? 3) with false in H
    by (symmetry; apply Z.ltb_ge; lia).
  apply bind_returns in H. destruct H as (s & Hs & _).
  unfold sorted_by_key in Hs. apply bind_returns in Hs.
  destruct Hs as (kl & Hkl & _).
  destruct (with_keys_each _ _ kl Hkl p Hp) as (k & Hk).
  rewrite Hk. f_equal. apply polar_angle_returns. exact Hk.
Qed.

(** The loop of Phase 2 on a list in strictly increasing angular order
    removes nothing and calls [distance] on nothing. *)
Lemma collapse_loop_no_ties (M : libm) (L : point) :
  forall (rest pre : list point) (c : point) (fuel : nat),
    (length rest <= fuel)%nat ->
    StronglySorted (ang_lt L) (c :: rest) ->
    collapse_loop M fuel L (length pre) (pre ++ c :: rest)
    = Ok (pre ++ c :: rest).
Proof.
  induction rest as [|n rest IH]; intros pre c fuel Hfuel Hs.
  - destruct fuel as [|fuel]; cbn [collapse_loop]; [reflexivity|].
    rewrite collapse_step_last. reflexivity.
  - destruct fuel as [|fuel]; cbn [length] in Hfuel; [lia|].
    cbn [collapse_loop]. rewrite collapse_step_next.
    inversion Hs as [|? ? Hs' Hall]; subst.
    inversion Hall as [|? ? (_ & _ & Hcn) _]; subst.
    rewrite orientation_eqb_0.
    destruct (Z.eqb_spec (turn L c n) 0) as [E|_]; [lia|].
    cbn [bind]. rewrite IH by (try lia; exact Hs').
    rewrite <- app_assoc. reflexivity.
Qed.

(** [graham_scan] returns when the angles of the input points can be
    computed and the loop of Phase 2 returns. *)
Lemma graham_scan_no_raise (M : libm) (self : ConvexHull) :
  (3 <= length (points self))%nat ->
  (forall p, In p (points self) ->
     polar_angle M (lowest_of (points self)) p
     = Ok (polar_angle_val M (lowest_of (points self)) p)) ->
  (forall s0 s1 rest,
     sorted (angle_lt M (lowest_of (points self))) (points self)
     = s0 :: s1 :: rest ->
     exists out,
       collapse_loop M (length (s0 :: s1 :: rest)) (lowest_of (points self))
         (length [s0]) ([s0] ++ s1 :: rest) = Ok out) ->
  graham_scan M self = Ok (graham_scan_val M self).
Proof.
  intros Hlen Hkeys Hloop.
  pose proof (sorted_by_key_fits M (lowest_of (points self)) (points self) Hkeys)
    as Es.
  pose proof (sorted_length (angle_lt M (lowest_of (points self))) (points self))
    as Hs.
  destruct (sorted (angle_lt M (lowest_of (points self))) (points self))
    as [|s0 [|s1 rest]] eqn:E; cbn [length] in Hs; try lia.
  destruct (Hloop s0 s1 rest eq_refl) as (out & Hout).
  assert (H : exists h, graham_scan M self = Ok h).
  { rewrite (graham_scan_after_sort M self s0 s1 rest Hlen Es), Hout.
    cbn [bind]. destruct (Z.of_nat (length out) <? 3); eexists; reflexivity. }
  destruct H as (h & H). rewrite H. f_equal.
  apply graham_scan_returns. exact H.
Qed.

(** A run on three points or more that returns has run the loop of
    Phase 2 on the sorted list to its end. *)
Lemma graham_scan_loop (M : libm) (self : ConvexHull) (h : list point)
    (s0 s1 : point) (rest : list point) :
  (3 <= length (points self))%nat ->
  graham_scan M self = Ok h ->
  sorted (angle_lt M (lowest_of (points self))) (points self)
  = s0 :: s1 :: rest ->
  exists out,
    collapse_loop M (length (s0 :: s1 :: rest)) (lowest_of (points self))
      (length [s0]) ([s0] ++ s1 :: rest) = Ok out.
Proof.
  intros Hlen H Es. unfold graham_scan in H. cbv zeta in H.
  replace (Z.of_nat (length (points self)) <? 3) with false in H
    by (symmetry; apply Z.ltb_ge; lia).
  apply bind_returns in H. destruct H as (s & Hs & H).
  apply sorted_by_key_returns in Hs. rewrite Es in Hs. subst s.
  apply bind_returns in H. destruct H as (out & Hout & _).
  exists out. exact Hout.
Qed.

Lemma in_range_exact (pts : list point) : in_range exact pts.
Proof. intros p _. repeat split. Qed.

Lemma returns_in_range (M : libm) (self : ConvexHull) :
  points self <> [] -> in_range M (points self) ->
  returns M self (graham_scan_val M self).
Proof.
  intros Hne Hr. apply returns_iff. split; [exact Hne|].
  apply graham_scan_in_range. exact Hr.
Qed.

Section Transfer.

Variable M : libm.

Lemma collapse_ext (L : point) (rest : list point) :
  forall c,
    (forall p q, In p (c :: rest) -> In q (c :: rest) ->
       orientation L p q = 0 ->
       flt M (distance_val M L p) (distance_val M L q)
       = flt exact (distance_val exact L p) (distance_val exact L q)) ->
    collapse M L c rest = collapse exact L c rest.
Proof.
  induction rest as [|n rest IH]; intros c H; [reflexivity|].
  cbn [collapse].
  rewrite (IH n) by (intros p q Hp Hq; apply H; right; assumption).
  rewrite (IH c)
    by (intros p q Hp Hq; apply H; simpl in *; tauto).
  destruct (Z.eqb_spec (orientation L c n) 0) as [E|E]; [|reflexivity].
  rewrite (H c n) by (simpl; tauto). reflexivity.
Qed.

(** On an input where the float comparisons are exact, the program does
    what it does in exact arithmetic. *)
Lemma graham_scan_exact (self : ConvexHull) :
  exact_on M (points self) ->
  graham_scan_val M self = graham_scan_val exact self.
Proof.
  intros Hex.
  destruct (Nat.lt_ge_cases (length (points self)) 3) as [Hlen|Hlen].
  - rewrite !graham_scan_small by exact Hlen. reflexivity.
  - rewrite !graham_scan_sorted by exact Hlen.
    assert (Es : sorted (angle_lt M (lowest_of (points self))) (points self)
                 = sorted (angle_lt exact (lowest_of (points self))) (points self)).
    { apply sorted_ext. intros x y Hx Hy. apply Hex; assumption. }
    rewrite Es.
    pose proof (sorted_In (angle_lt exact (lowest_of (points self))) (points self))
      as Hin.
    destruct (sorted (angle_lt exact (lowest_of (points self))) (points self))
      as [|s0 [|s1 rest]]; try reflexivity.
    unfold graham_sorted. f_equal. apply collapse_ext.
    intros p q Hp Hq. apply Hex; apply Hin; right; assumption.
Qed.

Lemma returns_exact (self : ConvexHull) (h : list point) :
  exact_on M (points self) -> returns M self h -> returns exact self h.
Proof.
  intros Hex Hret. apply returns_graham_scan in Hret. destruct Hret as [Hne ->].
  rewrite (graham_scan_exact self Hex).
  apply returns_in_range; [exact Hne|apply in_range_exact].
Qed.

End Transfer.

(** * The hull in exact arithmetic *)

(** Phase 1 and Phase 2 on three points or more: behind the anchor the
    loop leaves a list [t] of input points that dominates every input
    point and is either the anchor alone, all input points being equal, or
    made of points above the anchor in strictly increasing angular order. *)
Lemma phase2_exact (self : ConvexHull) :
  (3 <= length (points self))%nat ->
  exists t,
    graham_scan_val exact self = scan_collapsed (lowest_of (points self)) t
    /\ t <> []
    /\ (forall x, In x t -> In x (points self))
    /\ (forall z, In z (points self) ->
          exists y, In y t /\ dominated (lowest_of (points self)) z y)
    /\ ((t = [lowest_of (points self)]
         /\ forall z, In z (points self) -> z = lowest_of (points self))
        \/ (StronglySorted (ang_lt (lowest_of (points self))) t
            /\ Forall (above (lowest_of (points self))) t)).
Proof.
  intros Hlen. rewrite graham_scan_sorted by exact Hlen.
  set (L := lowest_of (points self)).
  assert (Hne : points self <> []) by (destruct (points self); [simpl in Hlen; lia|discriminate]).
  pose proof (lowest_of_anchor (points self) Hne) as Hanchor. fold L in Hanchor.
  pose proof (sorted_exact_ang_le (points self) L Hanchor) as Hsorted.
  pose proof (sorted_In (angle_lt exact L) (points self)) as Hin.
  pose proof (sorted_length (angle_lt exact L) (points self)) as Hslen.
  destruct (sorted_head_anchor exact L (points self) (proj1 Hanchor))
    as [s Es].
  rewrite Es in *.
  destruct s as [|s1 rest]; [simpl in Hslen; lia|].
  assert (HG : Forall (fun p => p = L \/ above L p) (s1 :: rest)).
  { apply Forall_forall. intros x Hx. apply Hanchor. apply Hin. right. exact Hx. }
  inversion Hsorted as [|? ? Hs' _]; subst.
  exists (collapse exact L s1 rest).
  split; [reflexivity|].
  split; [apply collapse_not_nil|].
  split; [intros x Hx; apply Hin; right; exact (collapse_In L exact rest s1 x Hx)|].
  split.
  - intros z Hz. apply Hin in Hz. destruct Hz as [E|Hz].
    + subst z.
      pose proof (collapse_not_nil exact L s1 rest) as Hnn.
      destruct (collapse exact L s1 rest) as [|y l]; [congruence|].
      exists y. split; [left; reflexivity|left; reflexivity].
    + apply collapse_exact_dominated; assumption.
  - destruct (collapse_exact_shape L rest s1 Hs' HG) as [[H1 H2]|H].
    + left. split; [exact H1|].
      intros z Hz. apply Hin in Hz. destruct Hz as [E|Hz]; [symmetry; exact E|].
      rewrite Forall_forall in H2. symmetry. apply H2. exact Hz.
    + right. exact H.
Qed.

(** Phase 3 on a collapsed list of two entries or more. *)
Lemma phase3_exact (L c1 c2 : point) (cs : list point) :
  StronglySorted (ang_lt L) (c1 :: c2 :: cs) ->
  Forall (above L) (c1 :: c2 :: cs) ->
  exists st,
    scan_collapsed L (c1 :: c2 :: cs) = rev st
    /\ stack_ok L st /\ (3 <= length st)%nat
    /\ (forall x, In x st -> x = L \/ In x (c1 :: c2 :: cs))
    /\ (forall q, q = L \/ In q (c1 :: c2 :: cs) -> covers L st q).
Proof.
  intros Hs Hab.
  inversion Hs as [|? ? Hs' Hall]; subst.
  inversion Hall as [|? ? H12 _]; subst.
  inversion Hab as [|? ? Hc1 _]; subst.
  assert (Hst1 : scan_step [c1; L] c2 = [c2; c1; L]).
  { unfold scan_step. rewrite pop_while_cons2.
    destruct H12 as (_ & _ & H12).
    destruct (Z.ltb_spec (turn L c1 c2) 0); [reflexivity|lia]. }
  assert (Hok1 : stack_ok L [c2; c1; L]).
  { rewrite <- Hst1. apply scan_step_ok; [apply stack_ok_init; exact Hc1|exact H12]. }
  exists (fold_left scan_step cs [c2; c1; L]).
  split; [|split; [|split; [|split]]].
  - unfold scan_collapsed. rewrite (scan_first L c1 c2 cs H12). reflexivity.
  - apply scan_ok; assumption.
  - apply (scan_length L); [exact Hok1|simpl; lia|exact Hs'].
  - intros x Hx. apply scan_In in Hx.
    destruct Hx as [[E|[E|[E|[]]]]|Hx]; subst; simpl; auto.
  - intros q Hq.
    apply (scan_covers L cs [c2; c1; L] (fun q => q = L \/ q = c1 \/ q = c2)).
    + exact Hok1.
    + simpl. lia.
    + exact Hs'.
    + intros q' Hq'. apply covers_init; assumption.
    + destruct Hq as [E|[E|[E|Hq]]]; subst; auto.
Qed.

(** * The three shapes of the result *)

(** In exact arithmetic [compute_hull] returns the input, for fewer than
    three points; or the anchor and one point that dominates every input
    point; or the reversed stack of Phase 3, which covers the anchor and,
    for every input point, a point that dominates it. *)
Lemma hull_exact_cases (self : ConvexHull) (h : list point) :
  returns exact self h ->
  ((length (points self) < 3)%nat /\ h = points self /\ h <> [])
  \/ ((3 <= length (points self))%nat
      /\ exists x,
           h = [lowest_of (points self); x] /\ In x (points self)
           /\ forall z, In z (points self) ->
                dominated (lowest_of (points self)) z x)
  \/ ((3 <= length (points self))%nat
      /\ exists st,
           h = rev st /\ stack_ok (lowest_of (points self)) st
           /\ (3 <= length st)%nat
           /\ (forall x, In x st -> In x (points self))
           /\ covers (lowest_of (points self)) st (lowest_of (points self))
           /\ forall z, In z (points self) ->
                exists y, dominated (lowest_of (points self)) z y
                          /\ covers (lowest_of (points self)) st y).
Proof.
  intros Hrv; apply returns_graham_scan in Hrv; revert Hrv. intros [Hne Hh].
  destruct (Nat.lt_ge_cases (length (points self)) 3) as [Hlen|Hlen].
  - left. rewrite graham_scan_small in Hh by exact Hlen. subst h. auto.
  - right.
    destruct (phase2_exact self Hlen) as (t & Eg & Htne & Hin & Hdom & Hshape).
    rewrite Eg in Hh.
    pose proof (lowest_of_anchor (points self) Hne) as [HLin HLmin].
    set (L := lowest_of (points self)) in *.
    destruct t as [|c1 [|c2 cs]]; [congruence| |].
    + left. split; [exact Hlen|]. exists c1.
      split; [exact Hh|]. split; [apply Hin; left; reflexivity|].
      intros z Hz. destruct (Hdom z Hz) as (y & [E|[]] & Hy). subst y. exact Hy.
    + right. split; [exact Hlen|].
      destruct Hshape as [[E _]|[Hs Hab]]; [discriminate|].
      destruct (phase3_exact L c1 c2 cs Hs Hab) as (st & Est & Hok & Hl & Hsub & Hcov).
      exists st. rewrite Est in Hh.
      split; [exact Hh|]. split; [exact Hok|]. split; [exact Hl|].
      split; [|split].
      * intros x Hx. destruct (Hsub x Hx) as [E|Hx']; [subst x; exact HLin|].
        apply Hin. exact Hx'.
      * apply Hcov. left. reflexivity.
      * intros z Hz. destruct (Hdom z Hz) as (y & Hy & Dy).
        exists y. split; [exact Dy|]. apply Hcov. right. exact Hy.
Qed.

(** * Lists read by index *)

Lemma nth_split2 {A : Type} (d : A) (l : list A) :
  forall i, (i + 1 < length l)%nat ->
    exists pre post, l = pre ++ nth i l d :: nth (i + 1) l d :: post.
Proof.
  induction l as [|x l IH]; intros i Hi; [simpl in Hi; lia|].
  destruct i as [|i].
  - destruct l as [|y l]; [simpl in Hi; lia|].
    exists [], l. reflexivity.
  - destruct (IH i) as (pre & post & E); [simpl in Hi; lia|].
    exists (x :: pre), post. cbn [nth Nat.add app]. rewrite <- E. reflexivity.
Qed.

Lemma nth_split3 {A : Type} (d : A) (l : list A) :
  forall i, (i + 2 < length l)%nat ->
    exists pre post,
      l = pre ++ nth i l d :: nth (i + 1) l d :: nth (i + 2) l d :: post.
Proof.
  induction l as [|x l IH]; intros i Hi; [simpl in Hi; lia|].
  destruct i as [|i].
  - destruct l as [|y [|z l]]; try (simpl in Hi; lia).
    exists [], l. reflexivity.
  - destruct (IH i) as (pre & post & E); [simpl in Hi; lia|].
    exists (x :: pre), post. cbn [nth Nat.add app]. rewrite <- E. reflexivity.
Qed.

Lemma StronglySorted_nth {A : Type} (R : A -> A -> Prop) (d : A) (l : list A) :
  StronglySorted R l ->
  forall i j, (i < j)%nat -> (j < length l)%nat -> R (nth i l d) (nth j l d).
Proof.
  induction 1 as [|x l Hs IH Hall]; intros i j Hij Hj; [simpl in Hj; lia|].
  destruct j as [|j]; [lia|]. destruct i as [|i].
  - cbn [nth]. rewrite Forall_forall in Hall. apply Hall.
    apply nth_In. simpl in Hj. lia.
  - cbn [nth]. apply IH; simpl in Hj; lia.
Qed.

Lemma StronglySorted_snoc {A : Type} (R : A -> A -> Prop) (l : list A) (x : A) :
  StronglySorted R l -> Forall (fun y => R y x) l -> StronglySorted R (l ++ [x]).
Proof.
  induction 1 as [|y l Hs IH Hall]; intros Hx; simpl.
  - repeat constructor.
  - inversion Hx; subst. constructor; [apply IH; assumption|].
    apply Forall_app. split; [exact Hall|]. repeat constructor. assumption.
Qed.

Lemma StronglySorted_rev {A : Type} (R : A -> A -> Prop) (l : list A) :
  StronglySorted (fun a b => R b a) l -> StronglySorted R (rev l).
Proof.
  induction 1 as [|x l Hs IH Hall]; simpl; [constructor|].
  apply StronglySorted_snoc; [exact IH|].
  apply Forall_rev. exact Hall.
Qed.

Lemma StronglySorted_NoDup {A : Type} (R : A -> A -> Prop) (l : list A) :
  (forall x, ~ R x x) -> StronglySorted R l -> NoDup l.
Proof.
  intros Hirr. induction 1 as [|x l Hs IH Hall]; constructor; [|exact IH].
  intros Hin. rewrite Forall_forall in Hall. exact (Hirr x (Hall x Hin)).
Qed.

Lemma hd_error_rev {A : Type} (l : list A) (d : A) :
  l <> [] -> hd_error (rev l) = Some (last l d).
Proof.
  intros Hne. destruct (exists_last Hne) as (l' & x & E). subst l.
  rewrite rev_app_distr, last_last. reflexivity.
Qed.

(** Cyclic indices. *)
Lemma cyc_small (h : list point) (i : nat) :
  (i < length h)%nat -> cyc h i = nth i h origin.
Proof. intros H. unfold cyc. rewrite Nat.mod_small by exact H. reflexivity. Qed.

Lemma cyc_wrap (h : list point) (i : nat) :
  (i < length h)%nat -> cyc h (length h + i) = nth i h origin.
Proof.
  intros H. unfold cyc.
  replace (length h + i)%nat with (i + 1 * length h)%nat by lia.
  rewrite Nat.Div0.mod_add, Nat.mod_small by exact H. reflexivity.
Qed.

(** * The reversed stack *)

Section Hull.

Variable L : point.

Lemma chain_ccw_app_r (pre st : list point) :
  chain_ccw (pre ++ st) -> chain_ccw st.
Proof.
  induction pre as [|a pre IH]; [auto|]. intros H. apply IH.
  exact (chain_ccw_tail _ _ H).
Qed.

Lemma chain_ccw_split (st pre post : list point) (a b c : point) :
  chain_ccw st -> st = pre ++ a :: b :: c :: post -> turn c b a < 0.
Proof.
  intros H E. subst st. apply chain_ccw_app_r in H. apply H.
Qed.

Lemma left_of_edges_split (st pre post : list point) (a b q : point) :
  left_of_edges st q -> st = pre ++ a :: b :: post -> turn b a q <= 0.
Proof.
  intros H E. subst st. apply left_of_edges_app_r in H. apply H.
Qed.

(** The hull read from a stack: the anchor, then the entries above it in
    strictly increasing angular order. *)
Lemma stack_ok_rev (st : list point) :
  stack_ok L st ->
  exists hs,
    rev st = L :: hs /\ hs <> []
    /\ StronglySorted (ang_lt L) hs /\ Forall (above L) hs
    /\ hd origin st = last hs origin.
Proof.
  intros (body & E & Hne & Hs & Hab & _). subst st.
  exists (rev body). rewrite rev_app_distr. cbn [rev app].
  split; [reflexivity|].
  split; [intros H; apply Hne; rewrite <- (rev_involutive body), H; reflexivity|].
  split; [apply StronglySorted_rev; exact Hs|].
  split; [apply Forall_rev; exact Hab|].
  destruct body as [|top body]; [congruence|]. cbn [app hd rev].
  rewrite last_last. reflexivity.
Qed.

Lemma rev_split3 (st h pre post : list point) (x y z : point) :
  h = rev st -> h = pre ++ x :: y :: z :: post ->
  st = rev post ++ z :: y :: x :: rev pre.
Proof.
  intros E1 E2. rewrite <- (rev_involutive st), <- E1, E2.
  rewrite rev_app_distr. cbn [rev]. rewrite <- !app_assoc. reflexivity.
Qed.

Lemma rev_split2 (st h pre post : list point) (x y : point) :
  h = rev st -> h = pre ++ x :: y :: post ->
  st = rev post ++ y :: x :: rev pre.
Proof.
  intros E1 E2. rewrite <- (rev_involutive st), <- E1, E2.
  rewrite rev_app_distr. cbn [rev]. rewrite <- !app_assoc. reflexivity.
Qed.

(** The polygon of a stack is strictly convex. *)
Lemma stack_ok_strictly_convex (st : list point) :
  stack_ok L st -> (3 <= length st)%nat -> strictly_convex (rev st).
Proof.
  intros Hok Hlen.
  destruct (stack_ok_rev st Hok) as (hs & Eh & Hne & Hs & Hab & _).
  destruct Hok as (_ & _ & _ & _ & _ & Hch).
  assert (Hn : length (rev st) = S (length hs)) by (rewrite Eh; reflexivity).
  assert (Hlen' : (2 <= length hs)%nat) by (rewrite length_rev in Hn; lia).
  intros i Hi. apply orientation_ccw.
  destruct (Nat.lt_ge_cases (i + 2) (length (rev st))) as [Hin|Hout].
  - rewrite !cyc_small by lia.
    destruct (nth_split3 origin (rev st) i Hin) as (pre & post & E).
    pose proof (rev_split3 st (rev st) pre post _ _ _ eq_refl E) as Est.
    exact (chain_ccw_split st _ _ _ _ _ Hch Est).
  - destruct (Nat.eq_dec (i + 2) (length (rev st))) as [E2|N2].
    + (* the last two vertices and the anchor *)
      rewrite (cyc_small _ i), (cyc_small _ (i + 1)) by lia.
      assert (C2 : cyc (rev st) (i + 2) = nth 0 (rev st) origin).
      { replace (i + 2)%nat with (length (rev st) + 0)%nat by lia.
        apply cyc_wrap. lia. }
      rewrite C2, Eh.
      replace i with (S (i - 1)) by lia. replace (S (i - 1) + 1)%nat with (S i) by lia.
      cbn [nth].
      assert (Hlt : ang_lt L (nth (i - 1) hs origin) (nth i hs origin))
        by (apply StronglySorted_nth; [exact Hs|lia|lia]).
      destruct Hlt as (_ & _ & Hlt).
      replace (turn (nth (i - 1) hs origin) (nth i hs origin) L)
        with (turn L (nth (i - 1) hs origin) (nth i hs origin))
        by (unfold turn; ring).
      exact Hlt.
    + (* the last vertex, the anchor and the first vertex above it *)
      assert (Ei : (i + 1)%nat = length (rev st)) by lia.
      rewrite (cyc_small _ i) by lia.
      assert (C1 : cyc (rev st) (i + 1) = nth 0 (rev st) origin).
      { replace (i + 1)%nat with (length (rev st) + 0)%nat by lia.
        apply cyc_wrap. lia. }
      assert (C2 : cyc (rev st) (i + 2) = nth 1 (rev st) origin).
      { replace (i + 2)%nat with (length (rev st) + 1)%nat by lia.
        apply cyc_wrap. lia. }
      rewrite C1, C2, Eh.
      replace i with (S (i - 1)) by lia.
      cbn [nth].
      assert (Hlt : ang_lt L (nth 0 hs origin) (nth (i - 1) hs origin))
        by (apply StronglySorted_nth; [exact Hs|lia|lia]).
      destruct Hlt as (_ & _ & Hlt).
      replace (turn (nth (i - 1) hs origin) L (nth 0 hs origin))
        with (turn L (nth 0 hs origin) (nth (i - 1) hs origin))
        by (unfold turn; ring).
      exact Hlt.
Qed.

(** The entries of a stack are distinct. *)
Lemma stack_ok_NoDup (st : list point) :
  stack_ok L st -> NoDup (rev st).
Proof.
  intros Hok.
  destruct (stack_ok_rev st Hok) as (hs & Eh & _ & Hs & Hab & _).
  rewrite Eh. constructor.
  - intros Hin. rewrite Forall_forall in Hab.
    exact (above_irrefl L (Hab L Hin)).
  - apply (StronglySorted_NoDup (ang_lt L)); [apply ang_lt_irrefl|exact Hs].
Qed.

(** A point that the stack covers is on no edge's clockwise side in the
    polygon. *)
Lemma covers_polygon (st : list point) (q : point) :
  stack_ok L st -> covers L st q ->
  forall i, (i < length (rev st))%nat ->
    turn (cyc (rev st) i) (cyc (rev st) (i + 1)) q <= 0.
Proof.
  intros Hok (Hle & Hclose & _) i Hi.
  destruct (stack_ok_rev st Hok) as (hs & Eh & Hne & _ & _ & Htop).
  destruct (Nat.lt_ge_cases (i + 1) (length (rev st))) as [Hin|Hout].
  - rewrite !cyc_small by lia.
    destruct (nth_split2 origin (rev st) i Hin) as (pre & post & E).
    pose proof (rev_split2 st (rev st) pre post _ _ eq_refl E) as Est.
    exact (left_of_edges_split st _ _ _ _ q Hle Est).
  - rewrite (cyc_small _ i) by lia.
    assert (C1 : cyc (rev st) (i + 1) = nth 0 (rev st) origin).
    { replace (i + 1)%nat with (length (rev st) + 0)%nat by lia.
      apply cyc_wrap. lia. }
    assert (Hl : length (rev st) = S (length hs)) by (rewrite Eh; reflexivity).
    assert (Hl1 : (1 <= length hs)%nat)
      by (destruct hs; [congruence|simpl; lia]).
    rewrite C1, Eh. cbn [nth].
    replace i with (S (length hs - 1)) by lia. cbn [nth].
    replace (nth (length hs - 1) hs origin) with (last hs origin).
    + rewrite <- Htop. exact Hclose.
    + clear - Hne. destruct (exists_last Hne) as (l' & x & E). subst hs.
      rewrite last_last, length_app. cbn [length].
      replace (length l' + 1 - 1)%nat with (length l') by lia.
      rewrite nth_middle. reflexivity.
Qed.

End Hull.

(** * Dominated points *)

Lemma scale_aux (zx zy yx yy : Z) :
  0 <= zy -> (zy = 0 -> 0 < zx) -> 0 <= yy -> (yy = 0 -> 0 < yx) ->
  zy * yx - zx * yy = 0 ->
  zx ^ 2 + zy ^ 2 <= yx ^ 2 + yy ^ 2 ->
  exists k d, 0 < d /\ 0 <= k <= d /\ d * zx = k * yx /\ d * zy = k * yy.
Proof.
  intros Hzy Hzx Hyy Hyx Hcol Hdist.
  destruct (Z.eq_dec yy 0) as [E|E].
  - subst yy. specialize (Hyx eq_refl).
    assert (zy = 0) by nia. subst zy. specialize (Hzx eq_refl).
    exists zx, yx. repeat split; try nia.
  - assert (0 < yy) by lia.
    exists zy, yy. repeat split; try nia.
    assert (Hsq : (zx ^ 2 + zy ^ 2) * yy ^ 2 = zy ^ 2 * (yx ^ 2 + yy ^ 2)).
    { replace ((zx ^ 2 + zy ^ 2) * yy ^ 2)
        with ((zx * yy) ^ 2 + zy ^ 2 * yy ^ 2) by ring.
      replace (zx * yy) with (zy * yx) by lia. ring. }
    assert (Hpos : 0 < yx ^ 2 + yy ^ 2) by nia.
    assert (Hle : zy ^ 2 * (yx ^ 2 + yy ^ 2) <= yy ^ 2 * (yx ^ 2 + yy ^ 2)).
    { rewrite <- Hsq. rewrite (Z.mul_comm (yy ^ 2)).
      apply Z.mul_le_mono_nonneg_r; [nia|exact Hdist]. }
    assert (zy ^ 2 <= yy ^ 2) by nia.
    nia.
Qed.

Section Segment.

Variable L : point.

Lemma dist2_rel (p : point) :
  dist2 L p = (px p - px L) ^ 2 + (py p - py L) ^ 2.
Proof. unfold dist2. ring. Qed.

(** A dominated point is the anchor moved a fraction [k/d] of the way to
    the point that dominates it. *)
Lemma dominated_scale (z y : point) :
  dominated L z y -> (y = L \/ above L y) ->
  exists k d, 0 < d /\ 0 <= k <= d
    /\ d * (px z - px L) = k * (px y - px L)
    /\ d * (py z - py L) = k * (py y - py L).
Proof.
  intros [E|(Hz & Hy & Hcol & Hd)] Hy'.
  - subst z. exists 0, 1. repeat split; lia.
  - rewrite (turn_rel L) in Hcol. rewrite !dist2_rel in Hd.
    apply above_rel in Hz, Hy. destruct Hz, Hy.
    apply scale_aux; auto.
Qed.

(** A function of the form [turn u v] is affine, so it is non-positive on
    a segment when it is at both ends. *)
Lemma turn_dominated (u v z y : point) :
  dominated L z y -> (y = L \/ above L y) ->
  turn u v L <= 0 -> turn u v y <= 0 -> turn u v z <= 0.
Proof.
  intros Hdom Hy HL Hy0.
  destruct (dominated_scale z y Hdom Hy) as (k & d & Hd & Hk & Ex & Ey).
  assert (Hid : d * turn u v z
                = (d - k) * turn u v L + k * turn u v y
                  + (py v - py u) * (d * (px z - px L) - k * (px y - px L))
                  - (px v - px u) * (d * (py z - py L) - k * (py y - py L)))
    by (unfold turn; ring).
  rewrite Ex, Ey in Hid. nia.
Qed.

Lemma dominated_on_segment (z y : point) :
  dominated L z y -> (y = L \/ above L y) -> on_segment L y z.
Proof.
  intros Hdom Hy.
  destruct (dominated_scale z y Hdom Hy) as (k & d & Hd & Hk & Ex & Ey).
  unfold on_segment, between. rewrite orientation_col.
  split; [|split].
  - assert (Hid : d * turn L y z
                  = (py y - py L) * (d * (px z - px L))
                    - (px y - px L) * (d * (py z - py L)))
      by (unfold turn; ring).
    rewrite Ex, Ey in Hid. nia.
  - destruct (Z.le_ge_cases (px L) (px y)).
    + rewrite Z.min_l, Z.max_r by lia. nia.
    + rewrite Z.min_r, Z.max_l by lia. nia.
  - destruct (Z.le_ge_cases (py L) (py y)).
    + rewrite Z.min_l, Z.max_r by lia. nia.
    + rewrite Z.min_r, Z.max_l by lia. nia.
Qed.

End Segment.

(** * Properties that hold whatever the math library *)

Section AnyLibrary.

Variable M : libm.

Lemma graham_scan_In (self : ConvexHull) (x : point) :
  In x (graham_scan_val M self) -> In x (points self).
Proof.
  destruct (Nat.lt_ge_cases (length (points self)) 3) as [Hlen|Hlen].
  - rewrite graham_scan_small by exact Hlen. auto.
  - rewrite graham_scan_sorted by exact Hlen.
    pose proof (sorted_In (angle_lt M (lowest_of (points self))) (points self))
      as Hin.
    destruct (sorted (angle_lt M (lowest_of (points self))) (points self))
      as [|s0 [|s1 rest]]; cbn [graham_sorted]; try (apply Hin).
    intros Hx. apply Hin.
    assert (Hc : forall y, In y (collapse M (lowest_of (points self)) s1 rest) ->
                           In y (s1 :: rest))
      by (intros y; apply collapse_In).
    unfold scan_collapsed in Hx.
    destruct (collapse M (lowest_of (points self)) s1 rest) as [|c1 [|c2 cs]].
    + simpl in Hx. simpl. tauto.
    + destruct Hx as [E|[E|[]]]; [left; exact E|right; apply Hc; left; exact E].
    + apply in_rev in Hx. apply scan_In in Hx.
      destruct Hx as [[E|[E|[]]]|Hx].
      * right. apply Hc. left. exact E.
      * left. exact E.
      * right. apply Hc. right. exact Hx.
Qed.

Lemma graham_scan_hd (self : ConvexHull) :
  (3 <= length (points self))%nat ->
  hd_error (graham_scan_val M self) = Some (lowest_of (points self)).
Proof.
  intros Hlen. rewrite graham_scan_sorted by exact Hlen.
  assert (Hne : points self <> [])
    by (destruct (points self); [simpl in Hlen; lia|discriminate]).
  destruct (sorted_head_anchor M (lowest_of (points self)) (points self)
              (proj1 (lowest_of_anchor _ Hne))) as [s Es].
  pose proof (sorted_length (angle_lt M (lowest_of (points self))) (points self))
    as Hslen.
  rewrite Es in *. destruct s as [|s1 rest]; [simpl in Hslen; lia|].
  cbn [graham_sorted]. unfold scan_collapsed.
  destruct (collapse M (lowest_of (points self)) s1 rest) as [|c1 [|c2 cs]];
    try reflexivity.
  rewrite (hd_error_rev _ origin).
  - rewrite scan_last by discriminate. reflexivity.
  - apply scan_not_nil. discriminate.
Qed.

(** A result of three points or more is the reversed stack of Phase 3, a
    counterclockwise chain. *)
Lemma graham_scan_chain (self : ConvexHull) :
  (3 <= length (graham_scan_val M self))%nat ->
  exists st, graham_scan_val M self = rev st /\ chain_ccw st.
Proof.
  intros Hlen.
  destruct (Nat.lt_ge_cases (length (points self)) 3) as [Hsmall|Hbig].
  - rewrite graham_scan_small in Hlen by exact Hsmall. lia.
  - rewrite graham_scan_sorted in * by exact Hbig.
    destruct (sorted (angle_lt M (lowest_of (points self))) (points self))
      as [|s0 [|s1 rest]]; cbn [graham_sorted] in *; try (simpl in Hlen; lia).
    unfold scan_collapsed in *.
    destruct (collapse M (lowest_of (points self)) s1 rest) as [|c1 [|c2 cs]];
      try (simpl in Hlen; lia).
    exists (fold_left scan_step (c2 :: cs) [c1; s0]).
    split; [reflexivity|]. apply scan_chain. simpl. tauto.
Qed.

End AnyLibrary.

Lemma scan_length_ge2 (cs : list point) :
  forall st, (2 <= length st)%nat ->
    (2 <= length (fold_left scan_step cs st))%nat.
Proof.
  induction cs as [|p cs IH]; intros st Hst; cbn [fold_left]; [exact Hst|].
  apply IH. unfold scan_step. cbn [length].
  assert (Hne : pop_while st p <> [])
    by (apply pop_while_not_nil; destruct st; [simpl in Hst; lia|discriminate]).
  destruct (pop_while st p); [contradiction|cbn [length]; lia].
Qed.

Lemma graham_scan_length_ge2 (M : libm) (self : ConvexHull) :
  (2 <= length (points self))%nat ->
  (2 <= length (graham_scan_val M self))%nat.
Proof.
  intros H2.
  destruct (Nat.lt_ge_cases (length (points self)) 3) as [Hlen|Hlen].
  - rewrite graham_scan_small by exact Hlen. exact H2.
  - rewrite graham_scan_sorted by exact Hlen.
    pose proof (sorted_length (angle_lt M (lowest_of (points self))) (points self))
      as Hslen.
    destruct (sorted (angle_lt M (lowest_of (points self))) (points self))
      as [|s0 [|s1 rest]]; cbn [length] in Hslen; try lia.
    cbn [graham_sorted]. unfold scan_collapsed.
    pose proof (collapse_not_nil M (lowest_of (points self)) s1 rest) as Hne.
    destruct (collapse M (lowest_of (points self)) s1 rest) as [|c1 [|c2 cs]];
      [contradiction|cbn [length]; lia|].
    rewrite length_rev. apply scan_length_ge2. cbn [length]. lia.
Qed.

Lemma graham_scan_not_nil (M : libm) (self : ConvexHull) :
  points self <> [] -> graham_scan_val M self <> [].
Proof.
  intros Hne E.
  destruct (Nat.lt_ge_cases (length (points self)) 3) as [Hlen|Hlen].
  - rewrite graham_scan_small in E by exact Hlen. contradiction.
  - pose proof (graham_scan_length_ge2 M self ltac:(lia)) as H2.
    rewrite E in H2. simpl in H2. lia.
Qed.

(** ** The errors of [graham_scan]

    The only calls that raise are those into [math]: whatever [graham_scan]
    raises is [OverflowError]. *)

Lemma bind_raises {A B : Type} (r : result A) (k : A -> result B) (e : error) :
  bind r k = Raise e -> r = Raise e \/ exists a, r = Ok a /\ k a = Raise e.
Proof.
  destruct r as [a|e']; cbn [bind]; intros H.
  - right. exists a. split; [reflexivity|exact H].
  - left. injection H as ->. reflexivity.
Qed.

Section Raises.

Variable M : libm.

Lemma distance_raises (L p : point) (e : error) :
  distance M L p = Raise e -> e = OverflowError.
Proof.
  unfold distance, math_sqrt. destruct (fits M (dist2 L p)); [discriminate|].
  intros H. injection H as <-. reflexivity.
Qed.

Lemma polar_angle_raises (L p : point) (e : error) :
  polar_angle M L p = Raise e -> e = OverflowError.
Proof.
  unfold polar_angle, math_atan2. destruct (point_eqb p L); [discriminate|].
  destruct (fits M (py p - py L) && fits M (px p - px L)); [discriminate|].
  intros H. injection H as <-. reflexivity.
Qed.

Lemma with_keys_raises (L : point) (l : list point) (e : error) :
  with_keys (polar_angle M L) l = Raise e -> e = OverflowError.
Proof.
  induction l as [|x l IH]; cbn [with_keys]; [discriminate|].
  intros H. apply bind_raises in H.
  destruct H as [H|(k & _ & H)]; [exact (polar_angle_raises L x e H)|].
  apply bind_raises in H.
  destruct H as [H|(kl & _ & H)]; [exact (IH H)|discriminate H].
Qed.

Lemma collapse_step_raises (L : point) (i : nat) (sp : list point) (e : error) :
  collapse_step M L i sp = Raise e -> e = OverflowError.
Proof.
  unfold collapse_step.
  destruct (Z.of_nat i <? Z.of_nat (length sp) - 1); [|discriminate].
  cbv zeta.
  destruct (orientation L (nth i sp origin) (nth (i + 1) sp origin) =? 0);
    [|discriminate].
  intros H. apply bind_raises in H.
  destruct H as [H|(d1 & _ & H)]; [exact (distance_raises _ _ _ H)|].
  apply bind_raises in H.
  destruct H as [H|(d2 & _ & H)]; [exact (distance_raises _ _ _ H)|].
  destruct (flt M d1 d2); discriminate H.
Qed.

Lemma collapse_loop_raises (L : point) (fuel : nat) :
  forall (i : nat) (sp : list point) (e : error),
    collapse_loop M fuel L i sp = Raise e -> e = OverflowError.
Proof.
  induction fuel as [|fuel IH]; intros i sp e; cbn [collapse_loop];
    [discriminate|].
  intros H. apply bind_raises in H.
  destruct H as [H|(step & _ & H)]; [exact (collapse_step_raises _ _ _ _ H)|].
  destruct step as [[i' sp']|]; [exact (IH _ _ _ H)|discriminate H].
Qed.

Lemma graham_scan_raises (self : ConvexHull) (e : error) :
  graham_scan M self = Raise e -> e = OverflowError.
Proof.
  unfold graham_scan. cbv zeta.
  destruct (Z.of_nat (length (points self)) <? 3); [discriminate|].
  intros H. apply bind_raises in H. destruct H as [H|(s & _ & H)].
  - unfold sorted_by_key in H. apply bind_raises in H.
    destruct H as [H|(kl & _ & H)]; [|discriminate H].
    exact (with_keys_raises _ _ _ H).
  - apply bind_raises in H. destruct H as [H|(sp & _ & H)].
    + exact (collapse_loop_raises _ _ _ _ _ H).
    + destruct (Z.of_nat (length sp) <? 3); discriminate H.
Qed.

End Raises.

(** * The hull and its input *)

(** C3.  Every point of the sequence that [compute_hull] returns is equal,
    as a coordinate pair, to a point of the input sequence.  This holds
    whatever the math library computes. *)
Theorem hull_subset (M : libm) (self : ConvexHull) (h : list point) :
  returns M self h ->
  forall p, In p h -> In p (points self).
Proof.
  intros Hrv; apply returns_graham_scan in Hrv; revert Hrv. intros [_ Hh] p Hp. subst h.
  exact (graham_scan_In M self p Hp).
Qed.

Lemma hull_subset_witness :
  returns exact (new [(0, 0); (4, 0); (4, 4); (0, 4); (2, 2)])
          [(0, 0); (4, 0); (4, 4); (0, 4)]
  /\ forall p, In p [(0, 0); (4, 0); (4, 4); (0, 4)] ->
               In p [(0, 0); (4, 0); (4, 4); (0, 4); (2, 2)].
Proof.
  split; [reflexivity|].
  exact (hull_subset exact (new [(0, 0); (4, 0); (4, 4); (0, 4); (2, 2)])
           [(0, 0); (4, 0); (4, 4); (0, 4)] eq_refl).
Defined.




(** C6.  On an input of three points or more, the first element of the
    sequence that [compute_hull] returns is the anchor: the input point of
    least y-coordinate and, among those, of least x-coordinate. *)
Theorem hull_starts_at_anchor (M : libm) (self : ConvexHull) (h : list point) :
  returns M self h ->
  (3 <= length (points self))%nat ->
  exists a,
    hd_error h = Some a
    /\ In a (points self)
    /\ forall p, In p (points self) ->
         py a < py p \/ (py a = py p /\ px a <= px p).
Proof.
  intros Hrv; apply returns_graham_scan in Hrv; revert Hrv. intros [Hne Hh] Hlen. subst h.
  exists (lowest_of (points self)).
  split; [apply graham_scan_hd; exact Hlen|].
  destruct (lowest_of_anchor (points self) Hne) as [Hin Hmin].
  split; [exact Hin|].
  intros p Hp. destruct (Hmin p Hp) as [E|Ha].
  - subst p. right. split; [reflexivity|lia].
  - apply above_iff in Ha. lia.
Qed.

Lemma hull_starts_at_anchor_witness :
  returns exact (new [(3, 1); (0, 1); (2, 0); (1, 0); (2, 3)])
          [(1, 0); (2, 0); (3, 1); (2, 3); (0, 1)]
  /\ Nat.le 3 (length (points (new [(3, 1); (0, 1); (2, 0); (1, 0); (2, 3)])))
  /\ exists a,
       hd_error [(1, 0); (2, 0); (3, 1); (2, 3); (0, 1)] = Some a
       /\ In a (points (new [(3, 1); (0, 1); (2, 0); (1, 0); (2, 3)]))
       /\ forall p, In p (points (new [(3, 1); (0, 1); (2, 0); (1, 0); (2, 3)])) ->
            py a < py p \/ (py a = py p /\ px a <= px p).
Proof.
  split; [reflexivity|]. split; [simpl; unfold Nat.le; lia|].
  apply (hull_starts_at_anchor exact
           (new [(3, 1); (0, 1); (2, 0); (1, 0); (2, 3)])
           [(1, 0); (2, 0); (3, 1); (2, 3); (0, 1)]);
    [reflexivity|simpl; lia].
Defined.

(** * Inputs that are not numbers *)

(** C9, as the code has it.  [compute_hull] does not look at the
    coordinates before Phase 1: an input of one or two points comes back
    unchanged, whatever its coordinates are, and no error is raised. *)
Theorem no_coordinate_validation (M : libm) (pts : list pypoint) :
  pts <> [] -> (length pts < 3)%nat ->
  compute_hull_py M pts = Ok pts.
Proof.
  intros Hne Hlen. unfold compute_hull_py.
  destruct pts as [|p l]; [congruence|].
  replace (Z.of_nat (length (p :: l)) <? 3) with true
    by (symmetry; apply Z.ltb_lt; lia).
  reflexivity.
Qed.

Lemma no_coordinate_validation_witness :
  [(PyStr "a", PyInt 1)] <> []
  /\ Nat.lt (length [(PyStr "a", PyInt 1)]) 3
  /\ compute_hull_py exact [(PyStr "a", PyInt 1)] = Ok [(PyStr "a", PyInt 1)].
Proof.
  split; [discriminate|]. split; [simpl; unfold Nat.lt; lia|].
  apply (no_coordinate_validation exact [(PyStr "a", PyInt 1)]);
    [discriminate|simpl; lia].
Defined.

(** C9, as the claim has it, fails: an input with a coordinate that is not
    a number, for which [compute_hull] returns normally. *)
Lemma malformed_input_returned :
  malformed [(PyStr "a", PyInt 1); (PyInt 0, PyInt 0)]
  /\ compute_hull_py exact [(PyStr "a", PyInt 1); (PyInt 0, PyInt 0)]
     = Ok [(PyStr "a", PyInt 1); (PyInt 0, PyInt 0)].
Proof. split; reflexivity. Qed.

(** * The hull as a polygon *)

(** X18.  For points with integer coordinates: when [compute_hull] returns
    a hull of three vertices or more, every three consecutive vertices have
    orientation 2: none is clockwise, none collinear.  When the float
    comparisons made on the input are exact this holds cyclically, of the
    two triples through the first vertex as well. *)
Theorem hull_strictly_convex (M : libm) (self : ConvexHull) (h : list point) :
  returns M self h ->
  (3 <= length h)%nat ->
  (forall i : nat, (i + 2 < length h)%nat ->
     orientation (nth i h origin) (nth (i + 1) h origin) (nth (i + 2) h origin) = 2)
  /\ (exact_on M (points self) -> strictly_convex h).
Proof.
  intros Hret Hlen. split.
  - apply returns_graham_scan in Hret. destruct Hret as [_ Eh]. subst h.
    destruct (graham_scan_chain M self Hlen) as (st & Est & Hch).
    intros i Hi. apply orientation_ccw.
    destruct (nth_split3 origin (graham_scan_val M self) i Hi) as (pre & post & E).
    pose proof (rev_split3 st _ pre post _ _ _ Est E) as Hst.
    exact (chain_ccw_split st _ _ _ _ _ Hch Hst).
  - intros Hex. apply (returns_exact M self h Hex) in Hret.
    destruct (hull_exact_cases self h Hret)
      as [(Hsmall & Eh & _)|[(_ & x & Eh & _)|(_ & st & Eh & Hok & Hl & _)]].
    + subst h. lia.
    + subst h. simpl in Hlen. lia.
    + subst h.
      apply (stack_ok_strictly_convex (lowest_of (points self))); assumption.
Qed.

Lemma hull_strictly_convex_witness :
  returns rounding (new [(0, 0); (4, 0); (4, 4); (0, 4); (2, 2)])
          [(0, 0); (4, 0); (4, 4); (0, 4)]
  /\ Nat.le 3 (length [(0, 0); (4, 0); (4, 4); (0, 4)])
  /\ exact_on rounding (points (new [(0, 0); (4, 0); (4, 4); (0, 4); (2, 2)]))
  /\ strictly_convex [(0, 0); (4, 0); (4, 4); (0, 4)].
Proof.
  split; [vm_compute; reflexivity|]. split; [simpl; unfold Nat.le; lia|].
  split; [apply exact_on_b_spec; vm_compute; reflexivity|].
  apply (hull_strictly_convex rounding
           (new [(0, 0); (4, 0); (4, 4); (0, 4); (2, 2)])
           [(0, 0); (4, 0); (4, 4); (0, 4)]);
    [vm_compute; reflexivity|simpl; lia|apply exact_on_b_spec; vm_compute; reflexivity].
Defined.

Lemma on_segment_left (a b : point) : on_segment a b a.
Proof.
  unfold on_segment, between. rewrite orientation_col, turn_same_lr. lia.
Qed.

Lemma on_segment_right (a b : point) : on_segment a b b.
Proof.
  unfold on_segment, between. rewrite orientation_col, turn_same_r. lia.
Qed.

(** X19.  For points with integer coordinates: when the float comparisons
    made on the input are exact, every input point lies in the closed
    region of the hull that [compute_hull] returns: on the hull's edges or
    inside it, or, for a hull of two points or one, on the segment or at
    the point. *)
Theorem hull_contains_input (M : libm) (self : ConvexHull) (h : list point) :
  exact_on M (points self) ->
  returns M self h ->
  forall q, In q (points self) -> inside_or_on h q.
Proof.
  intros Hex Hret q Hq. apply (returns_exact M self h Hex) in Hret.
  pose proof Hret as Hret'. apply returns_graham_scan in Hret'.
  destruct Hret' as [Hne _].
  destruct (lowest_of_anchor (points self) Hne) as [HLin HLmin].
  destruct (hull_exact_cases self h Hret)
    as [(Hsmall & Eh & _)
       |[(_ & x & Eh & Hx & Hdom)
        |(_ & st & Eh & Hok & Hl & _ & HcL & Hcov)]].
  - subst h. destruct (points self) as [|a [|b [|c l]]];
      [destruct Hq| | |simpl in Hsmall; lia].
    + destruct Hq as [E|[]]. symmetry. exact E.
    + destruct Hq as [E|[E|[]]]; subst q;
        [apply on_segment_left|apply on_segment_right].
  - subst h. cbn [inside_or_on].
    apply dominated_on_segment; [apply Hdom; exact Hq|].
    apply HLmin. exact Hx.
  - destruct (Hcov q Hq) as (y & Dy & Cy).
    assert (Hpoly : forall i, (i < length h)%nat ->
                      orientation (cyc h i) (cyc h (i + 1)) q <> 1).
    { intros i Hi. apply orientation_not_cw. subst h.
      apply (turn_dominated (lowest_of (points self)) _ _ q y Dy).
      - destruct Cy as (_ & _ & Hy). exact Hy.
      - apply (covers_polygon (lowest_of (points self))); assumption.
      - apply (covers_polygon (lowest_of (points self))); assumption. }
    assert (Hlen : (3 <= length h)%nat) by (subst h; rewrite length_rev; exact Hl).
    destruct h as [|a [|b [|c l]]]; try (simpl in Hlen; lia).
    exact Hpoly.
Qed.

Lemma hull_contains_input_witness :
  exact_on rounding (points (new [(0, 0); (4, 0); (4, 4); (0, 4); (2, 2)]))
  /\ returns rounding (new [(0, 0); (4, 0); (4, 4); (0, 4); (2, 2)])
             [(0, 0); (4, 0); (4, 4); (0, 4)]
  /\ forall q, In q (points (new [(0, 0); (4, 0); (4, 4); (0, 4); (2, 2)])) ->
       inside_or_on [(0, 0); (4, 0); (4, 4); (0, 4)] q.
Proof.
  split; [apply exact_on_b_spec; vm_compute; reflexivity|]. split; [vm_compute; reflexivity|].
  apply (hull_contains_input rounding
           (new [(0, 0); (4, 0); (4, 4); (0, 4); (2, 2)])
           [(0, 0); (4, 0); (4, 4); (0, 4)]);
    [apply exact_on_b_spec; vm_compute; reflexivity|vm_compute; reflexivity].
Defined.

(** X21.  For points with integer coordinates: when the float comparisons
    made on the input are exact and [compute_hull] returns a hull of three
    vertices or more, no point occurs twice in it, also when the input
    repeats points. *)
Theorem hull_distinct (M : libm) (self : ConvexHull) (h : list point) :
  exact_on M (points self) ->
  returns M self h ->
  (3 <= length h)%nat ->
  NoDup h.
Proof.
  intros Hex Hret Hlen. apply (returns_exact M self h Hex) in Hret.
  destruct (hull_exact_cases self h Hret)
    as [(Hsmall & Eh & _)|[(_ & x & Eh & _)|(_ & st & Eh & Hok & _)]].
  - subst h. lia.
  - subst h. simpl in Hlen. lia.
  - subst h. apply (stack_ok_NoDup (lowest_of (points self))). exact Hok.
Qed.

Lemma hull_distinct_witness :
  exact_on rounding (points (new [(0, 0); (2, 0); (2, 0); (1, 2); (0, 0); (1, 2)]))
  /\ returns rounding (new [(0, 0); (2, 0); (2, 0); (1, 2); (0, 0); (1, 2)])
             [(0, 0); (2, 0); (1, 2)]
  /\ Nat.le 3 (length [(0, 0); (2, 0); (1, 2)])
  /\ NoDup [(0, 0); (2, 0); (1, 2)].
Proof.
  split; [apply exact_on_b_spec; vm_compute; reflexivity|]. split; [vm_compute; reflexivity|].
  split; [simpl; unfold Nat.le; lia|].
  apply (hull_distinct rounding
           (new [(0, 0); (2, 0); (2, 0); (1, 2); (0, 0); (1, 2)])
           [(0, 0); (2, 0); (1, 2)]);
    [apply exact_on_b_spec; vm_compute; reflexivity|vm_compute; reflexivity|simpl; lia].
Defined.

(** * Degenerate inputs *)

Lemma collapse_all_collinear (M : libm) (L : point) (rest : list point) :
  forall c,
    (forall x y, In x (c :: rest) -> In y (c :: rest) -> orientation L x y = 0) ->
    exists m, collapse M L c rest = [m].
Proof.
  induction rest as [|n rest IH]; intros c H.
  - exists c. reflexivity.
  - cbn [collapse]. rewrite (H c n) by (simpl; tauto). simpl (0 =? 0).
    destruct (flt M _ _).
    + apply IH. intros x y Hx Hy. apply H; right; assumption.
    + apply IH. intros x y Hx Hy. apply H; simpl in *; tauto.
Qed.

(** Three points or more on one line: whatever the math library, two
    points come back, the anchor first. *)
Lemma graham_scan_collinear (M : libm) (self : ConvexHull) :
  (3 <= length (points self))%nat ->
  all_collinear (points self) ->
  exists b, graham_scan_val M self = [lowest_of (points self); b].
Proof.
  intros Hlen Hcol. rewrite graham_scan_sorted by exact Hlen.
  assert (Hne : points self <> [])
    by (destruct (points self); [simpl in Hlen; lia|discriminate]).
  pose proof (lowest_of_anchor _ Hne) as [HLin _].
  destruct (sorted_head_anchor M (lowest_of (points self)) (points self) HLin)
    as [s Es].
  pose proof (sorted_length (angle_lt M (lowest_of (points self))) (points self))
    as Hslen.
  pose proof (sorted_In (angle_lt M (lowest_of (points self))) (points self))
    as Hin.
  rewrite Es in *. destruct s as [|s1 rest]; [simpl in Hslen; lia|].
  cbn [graham_sorted].
  destruct (collapse_all_collinear M (lowest_of (points self)) rest s1) as [m Em].
  - intros x y Hx Hy. apply Hcol; [exact HLin| |]; apply Hin; right; assumption.
  - rewrite Em. exists m. reflexivity.
Qed.

Lemma cyc_In (h : list point) (i : nat) : h <> [] -> In (cyc h i) h.
Proof.
  intros Hne. unfold cyc. apply nth_In. apply Nat.mod_upper_bound.
  destruct h; [congruence|discriminate].
Qed.

(** X20.  For points with integer coordinates, when [compute_hull]
    returns: an input of one or two points comes back unchanged, in its
    order.  An input of three points or more, all on one line, gives two
    points; when the float comparisons made on the input are exact they are
    the two ends of the set: input points with every input point on the
    segment between them. *)
Theorem small_and_collinear_inputs (M : libm) (self : ConvexHull) (h : list point) :
  returns M self h ->
  ((length (points self) < 3)%nat -> h = points self)
  /\ ((3 <= length (points self))%nat -> all_collinear (points self) ->
      length h = 2%nat
      /\ (exact_on M (points self) ->
          exists a b,
            h = [a; b] /\ In a (points self) /\ In b (points self)
            /\ forall q, In q (points self) -> on_segment a b q)).
Proof.
  intros Hret. split.
  - intros Hlen. apply returns_graham_scan in Hret. destruct Hret as [_ Hh].
    rewrite Hh. apply graham_scan_small. exact Hlen.
  - intros Hlen Hcol. split.
    + apply returns_graham_scan in Hret. destruct Hret as [_ Hh].
      destruct (graham_scan_collinear M self Hlen Hcol) as [b Eb].
      rewrite Hh, Eb. reflexivity.
    + intros Hex. apply (returns_exact M self h Hex) in Hret.
      pose proof Hret as Hret'. apply returns_graham_scan in Hret'.
      destruct Hret' as [Hne _].
      destruct (lowest_of_anchor (points self) Hne) as [HLin HLmin].
      destruct (hull_exact_cases self h Hret)
        as [(Hsmall & _)
           |[(_ & x & Eh & Hx & Hdom)
            |(_ & st & Eh & Hok & Hl & Hsub & _)]].
      * lia.
      * exists (lowest_of (points self)), x.
        split; [exact Eh|]. split; [exact HLin|]. split; [exact Hx|].
        intros q Hq. apply dominated_on_segment; [apply Hdom; exact Hq|].
        apply HLmin. exact Hx.
      * exfalso.
        pose proof (stack_ok_strictly_convex _ st Hok Hl 0%nat) as Hconv.
        rewrite length_rev in Hconv. specialize (Hconv ltac:(lia)).
        assert (Hne' : rev st <> [])
          by (intros E; apply (f_equal (@length point)) in E;
              rewrite length_rev in E; simpl in E; lia).
        assert (Hin : forall i, In (cyc (rev st) i) (points self)).
        { intros i. apply Hsub. apply in_rev. apply cyc_In. exact Hne'. }
        rewrite (Hcol _ _ _ (Hin _) (Hin _) (Hin _)) in Hconv. discriminate.
Qed.

Lemma small_and_collinear_inputs_witness :
  returns rounding (new [(2, 2); (0, 0); (1, 1)]) [(0, 0); (2, 2)]
  /\ Nat.le 3 (length (points (new [(2, 2); (0, 0); (1, 1)])))
  /\ all_collinear (points (new [(2, 2); (0, 0); (1, 1)]))
  /\ exact_on rounding (points (new [(2, 2); (0, 0); (1, 1)]))
  /\ length [(0, 0); (2, 2)] = 2%nat
  /\ exists a b,
       [(0, 0); (2, 2)] = [a; b]
       /\ In a (points (new [(2, 2); (0, 0); (1, 1)]))
       /\ In b (points (new [(2, 2); (0, 0); (1, 1)]))
       /\ forall q, In q (points (new [(2, 2); (0, 0); (1, 1)])) ->
            on_segment a b q.
Proof.
  assert (Hcol : all_collinear (points (new [(2, 2); (0, 0); (1, 1)]))).
  { intros p q r Hp Hq Hr. simpl in Hp, Hq, Hr.
    destruct Hp as [<-|[<-|[<-|[]]]];
      destruct Hq as [<-|[<-|[<-|[]]]];
      destruct Hr as [<-|[<-|[<-|[]]]]; reflexivity. }
  split; [vm_compute; reflexivity|]. split; [simpl; unfold Nat.le; lia|].
  assert (Hex : exact_on rounding (points (new [(2, 2); (0, 0); (1, 1)])))
    by (apply exact_on_b_spec; vm_compute; reflexivity).
  split; [exact Hcol|]. split; [exact Hex|].
  destruct (small_and_collinear_inputs rounding
              (new [(2, 2); (0, 0); (1, 1)]) [(0, 0); (2, 2)]
              ltac:(vm_compute; reflexivity))
    as [_ H].
  destruct (H ltac:(simpl; lia) Hcol) as [H2 Hext].
  split; [exact H2|]. exact (Hext Hex).
Defined.

(** * The hull of a hull *)

Section Fixed.

Variable L : point.

(** A list in strictly increasing angular order has nothing to collapse. *)
Lemma collapse_exact_fixed (rest : list point) :
  forall c,
    StronglySorted (ang_lt L) (c :: rest) ->
    collapse exact L c rest = c :: rest.
Proof.
  induction rest as [|n rest IH]; intros c Hs; [reflexivity|].
  inversion Hs as [|? ? Hs' Hall]; subst.
  inversion Hall as [|? ? (_ & _ & Hcn) _]; subst.
  cbn [collapse]. rewrite orientation_eqb_0.
  destruct (Z.eqb_spec (turn L c n) 0) as [E|_]; [lia|].
  rewrite (IH n Hs'). reflexivity.
Qed.

(** A counterclockwise chain is scanned without a pop. *)
Lemma scan_fixed (cs : list point) :
  forall st,
    (2 <= length st)%nat ->
    chain_ccw (rev cs ++ st) ->
    fold_left scan_step cs st = rev cs ++ st.
Proof.
  induction cs as [|p cs IH]; intros st Hlen Hch; [reflexivity|].
  cbn [rev] in *. rewrite <- app_assoc in *. cbn [app] in *.
  cbn [fold_left].
  assert (Hp : scan_step st p = p :: st).
  { apply chain_ccw_app_r in Hch.
    destruct st as [|a [|b X]]; try (simpl in Hlen; lia).
    unfold scan_step. rewrite pop_while_cons2.
    destruct Hch as [Hbap _].
    destruct (Z.ltb_spec (turn b a p) 0); [reflexivity|lia]. }
  rewrite Hp. apply IH; [simpl; lia|exact Hch].
Qed.

(** The sort leaves the anchor followed by a list in strictly increasing
    angular order as it is. *)
Lemma sorted_exact_fixed (hs : list point) :
  StronglySorted (ang_lt L) hs ->
  Forall (above L) hs ->
  sorted (angle_lt exact L) (L :: hs) = L :: hs.
Proof.
  intros Hs Hab. apply sorted_fixed.
  intros pre x y post E. destruct pre as [|z pre]; cbn [app] in E.
  - inversion E; subst. apply angle_lt_exact_anchor_r.
  - inversion E as [[Ez Ehs]]. subst z hs.
    apply StronglySorted_app_r in Hs.
    inversion Hs as [|? ? _ Hall]; subst.
    inversion Hall as [|? ? (Hx & Hy & Hxy) _]; subst.
    destruct (angle_lt exact L y x) eqn:Elt; [|reflexivity].
    apply angle_lt_exact_above in Elt; auto.
    rewrite turn_swap in Elt. lia.
Qed.

Lemma anchor_of_hull (hs : list point) :
  Forall (above L) hs -> lowest_of (L :: hs) = L.
Proof.
  intros Hab. apply (anchor_unique (L :: hs)).
  - apply lowest_of_anchor. discriminate.
  - split; [left; reflexivity|].
    intros p [E|Hp]; [left; symmetry; exact E|right].
    rewrite Forall_forall in Hab. apply Hab. exact Hp.
Qed.

(** In exact arithmetic the polygon of a stack is its own hull. *)
Lemma stack_ok_fixed (st : list point) :
  stack_ok L st -> (3 <= length st)%nat ->
  graham_scan_val exact (new (rev st)) = rev st
  /\ lowest_of (rev st) = L.
Proof.
  intros Hok Hlen.
  destruct (stack_ok_rev L st Hok) as (hs & Eh & Hne & Hs & Hab & _).
  destruct Hok as (_ & _ & _ & _ & _ & Hch).
  assert (HL : lowest_of (rev st) = L) by (rewrite Eh; apply anchor_of_hull; exact Hab).
  split; [|exact HL].
  rewrite graham_scan_sorted by (cbn [points new]; rewrite length_rev; exact Hlen).
  cbn [points new]. rewrite HL. rewrite Eh at 1.
  rewrite (sorted_exact_fixed hs Hs Hab).
  assert (Hl : length (rev st) = S (length hs)) by (rewrite Eh; reflexivity).
  rewrite length_rev in Hl.
  destruct hs as [|c1 [|c2 cs]]; try (simpl in Hl; lia).
  cbn [graham_sorted]. rewrite (collapse_exact_fixed (c2 :: cs) c1 Hs).
  unfold scan_collapsed.
  assert (Est : st = rev (c2 :: cs) ++ [c1; L]).
  { rewrite <- (rev_involutive st), Eh. cbn [rev].
    rewrite <- !app_assoc. reflexivity. }
  rewrite scan_fixed; [|simpl; lia|rewrite <- Est; exact Hch].
  rewrite <- Est. reflexivity.
Qed.

End Fixed.

Lemma exact_on_incl (M : libm) (pts pts' : list point) :
  exact_on M pts -> incl pts' pts -> lowest_of pts' = lowest_of pts ->
  exact_on M pts'.
Proof.
  intros Hex Hincl HL p q Hp Hq. rewrite HL. apply Hex; apply Hincl; assumption.
Qed.

(** X22.  For points with integer coordinates: when the float comparisons
    made on the input are exact and [compute_hull] returns a hull,
    [compute_hull] on that hull returns the same sequence of points. *)
Theorem hull_idempotent (M : libm) (self : ConvexHull) (h : list point) :
  exact_on M (points self) ->
  returns M self h ->
  returns M (new h) h.
Proof.
  intros Hex Hret. pose proof (returns_exact M self h Hex Hret) as Hret'.
  destruct (hull_exact_cases self h Hret')
    as [(Hsmall & Eh & Hne)
       |[(_ & x & Eh & _)
        |(Hlen & st & Eh & Hok & Hl & Hsub & _)]].
  - apply returns_iff. split; [exact Hne|].
    apply graham_scan_small_returns. cbn [points new]. rewrite Eh. exact Hsmall.
  - apply returns_iff. subst h. split; [discriminate|].
    apply graham_scan_small_returns. simpl. lia.
  - destruct (stack_ok_fixed (lowest_of (points self)) st Hok Hl) as [Hfix HL].
    destruct (stack_ok_rev (lowest_of (points self)) st Hok)
      as (hs & Ehs & Hhs & Hs & Hab & _).
    apply returns_iff in Hret. destruct Hret as [_ Hrun]. subst h.
    assert (Hex' : exact_on M (points (new (rev st)))).
    { cbn [points new].
      apply (exact_on_incl M (points self)); [exact Hex| |exact HL].
      intros p Hp. apply Hsub. apply in_rev. exact Hp. }
    apply returns_iff. split.
    + cbn [points new]. intros E. apply (f_equal (@length point)) in E.
      rewrite length_rev in E. simpl in E. lia.
    + rewrite graham_scan_no_raise.
      * f_equal. rewrite graham_scan_exact by exact Hex'. exact Hfix.
      * cbn [points new]. rewrite length_rev. exact Hl.
      * cbn [points new]. rewrite HL. intros p Hp.
        apply (graham_scan_keys M self (rev st) Hlen Hrun).
        apply Hsub. apply in_rev. exact Hp.
      * cbn [points new]. rewrite HL. intros s0 s1 rest Es.
        assert (E : sorted (angle_lt M (lowest_of (points self))) (rev st)
                    = lowest_of (points self) :: hs).
        { rewrite <- (sorted_exact_fixed (lowest_of (points self)) hs Hs Hab).
          rewrite <- Ehs. apply sorted_ext. intros a b Ha Hb.
          rewrite <- HL. apply Hex'; assumption. }
        rewrite E in Es. injection Es as <- Ehs'.
        eexists. apply collapse_loop_no_ties; [cbn [length]; lia|].
        rewrite <- Ehs'. exact Hs.
Qed.

Lemma hull_idempotent_witness :
  exact_on rounding (points (new [(0, 3); (1, 1); (2, 2); (4, 4); (0, 0); (1, 2); (3, 1); (3, 3)]))
  /\ returns rounding (new [(0, 3); (1, 1); (2, 2); (4, 4); (0, 0); (1, 2); (3, 1); (3, 3)])
             [(0, 0); (3, 1); (4, 4); (0, 3)]
  /\ returns rounding (new [(0, 0); (3, 1); (4, 4); (0, 3)])
             [(0, 0); (3, 1); (4, 4); (0, 3)].
Proof.
  split; [apply exact_on_b_spec; vm_compute; reflexivity|]. split; [vm_compute; reflexivity|].
  apply (hull_idempotent rounding
           (new [(0, 3); (1, 1); (2, 2); (4, 4); (0, 0); (1, 2); (3, 1); (3, 3)])
           [(0, 0); (3, 1); (4, 4); (0, 3)]);
    [apply exact_on_b_spec; vm_compute; reflexivity|vm_compute; reflexivity].
Defined.

(** * The hull of a permuted input *)

Lemma sorted_pair {A : Type} (R : A -> A -> Prop) (l : list A) :
  StronglySorted R l ->
  forall x y, In x l -> In y l -> x = y \/ R x y \/ R y x.
Proof.
  induction 1 as [|a l Hs IH Hall]; intros x y Hx Hy; [destruct Hx|].
  rewrite Forall_forall in Hall.
  destruct Hx as [Ex|Hx], Hy as [Ey|Hy].
  - left. congruence.
  - subst x. right. left. apply Hall. exact Hy.
  - subst y. right. right. apply Hall. exact Hx.
  - apply IH; assumption.
Qed.

(** Two lists in strict order with the same entries are equal. *)
Lemma sorted_unique {A : Type} (R : A -> A -> Prop) :
  (forall x, ~ R x x) -> (forall x y, R x y -> ~ R y x) ->
  forall l l',
    StronglySorted R l -> StronglySorted R l' ->
    (forall x, In x l <-> In x l') ->
    l = l'.
Proof.
  intros Hirr Hasym. induction l as [|a l IH]; intros l' Hs Hs' Hin.
  - destruct l' as [|b l']; [reflexivity|].
    destruct (proj2 (Hin b) (or_introl eq_refl)).
  - destruct l' as [|b l']; [destruct (proj1 (Hin a) (or_introl eq_refl))|].
    inversion Hs as [|? ? Hsl Hal]; subst.
    inversion Hs' as [|? ? Hsl' Hbl']; subst.
    rewrite Forall_forall in Hal, Hbl'.
    assert (Eab : a = b).
    { destruct (proj1 (Hin a) (or_introl eq_refl)) as [E|Ha]; [symmetry; exact E|].
      destruct (proj2 (Hin b) (or_introl eq_refl)) as [E|Hb]; [exact E|].
      exfalso. exact (Hasym a b (Hal b Hb) (Hbl' a Ha)). }
    subst b. f_equal. apply IH; auto.
    intros x. split; intros Hx.
    + destruct (proj1 (Hin x) (or_intror Hx)) as [E|H]; [|exact H].
      subst x. destruct (Hirr a (Hal a Hx)).
    + destruct (proj2 (Hin x) (or_intror Hx)) as [E|H]; [|exact H].
      subst x. destruct (Hirr a (Hbl' a Hx)).
Qed.

Section Canonical.

Variable L : point.

(** On a ray from the anchor the distance tells the points apart. *)
Lemma same_ray_same_dist (x y : point) :
  above L x -> above L y ->
  turn L x y = 0 -> dist2 L x = dist2 L y -> x = y.
Proof.
  intros Hx Hy Hcol Hd.
  assert (Hdom : dominated L x y) by (right; repeat split; auto; lia).
  destruct (dominated_scale L x y Hdom (or_intror Hy))
    as (k & d & Hd0 & Hk & Ex & Ey).
  rewrite !(dist2_rel L) in Hd.
  assert (Hsq : d ^ 2 * ((px x - px L) ^ 2 + (py x - py L) ^ 2)
                = k ^ 2 * ((px y - px L) ^ 2 + (py y - py L) ^ 2)).
  { replace (d ^ 2 * ((px x - px L) ^ 2 + (py x - py L) ^ 2))
      with ((d * (px x - px L)) ^ 2 + (d * (py x - py L)) ^ 2) by ring.
    rewrite Ex, Ey. ring. }
  assert (Hpos : 0 < (px y - px L) ^ 2 + (py y - py L) ^ 2).
  { apply above_rel in Hy. destruct Hy as [Hy0 Hy1].
    destruct (Z.eq_dec (py y - py L) 0) as [E|E]; [specialize (Hy1 E)|]; nia. }
  rewrite Hd in Hsq.
  assert (Hdk : d ^ 2 = k ^ 2) by nia.
  assert (d = k) by nia. subst k.
  apply point_eq_coords; nia.
Qed.

(** What Phase 2 leaves is determined by the set of input points: two
    lists with the properties of [phase2_exact] for inputs with the same
    points are equal. *)
Lemma collapsed_unique (pts pts' t t' : list point) :
  (forall x, In x pts <-> In x pts') ->
  t <> [] -> t' <> [] ->
  (forall x, In x t -> In x pts) -> (forall x, In x t' -> In x pts') ->
  (forall z, In z pts -> exists y, In y t /\ dominated L z y) ->
  (forall z, In z pts' -> exists y, In y t' /\ dominated L z y) ->
  ((t = [L] /\ forall z, In z pts -> z = L)
   \/ (StronglySorted (ang_lt L) t /\ Forall (above L) t)) ->
  ((t' = [L] /\ forall z, In z pts' -> z = L)
   \/ (StronglySorted (ang_lt L) t' /\ Forall (above L) t')) ->
  t = t'.
Proof.
  intros Hsame Hne Hne' Hin Hin' Hdom Hdom' Hshape Hshape'.
  assert (Hhalf : forall pts pts' t t',
            (forall x, In x pts -> In x pts') ->
            (forall x, In x t -> In x pts) -> (forall x, In x t' -> In x pts') ->
            (forall x, In x pts' -> In x pts) ->
            (forall z, In z pts -> exists y, In y t /\ dominated L z y) ->
            (forall z, In z pts' -> exists y, In y t' /\ dominated L z y) ->
            StronglySorted (ang_lt L) t -> Forall (above L) t ->
            forall x, In x t -> In x t').
  { clear. intros pts pts' t t' Hto Hin Hin' Hfrom Hdom Hdom' Hs Hab x Hx.
    rewrite Forall_forall in Hab.
    destruct (Hdom' x (Hto x (Hin x Hx))) as (y' & Hy' & [E|(Hax & Hay' & Hc1 & Hd1)]).
    { subst x. destruct (above_irrefl L (Hab L Hx)). }
    destruct (Hdom y' (Hfrom y' (Hin' y' Hy'))) as (y & Hy & [E|(_ & Hay & Hc2 & Hd2)]).
    { subst y'. destruct (above_irrefl L Hay'). }
    assert (Hc : turn L x y = 0)
      by (apply (turn_collinear_trans L x y' y); auto; apply above_neq; exact Hay').
    assert (Exy : x = y).
    { destruct (sorted_pair (ang_lt L) t Hs x y Hx Hy) as [E|[(_ & _ & H)|(_ & _ & H)]];
        [exact E|lia|rewrite turn_swap in H; lia]. }
    subst y.
    assert (x = y') by (apply same_ray_same_dist; auto; lia).
    subst y'. exact Hy'. }
  destruct Hshape as [[Et Hall]|[Hs Hab]], Hshape' as [[Et' Hall']|[Hs' Hab']].
  - congruence.
  - exfalso. destruct t' as [|x t']; [congruence|].
    inversion Hab' as [|? ? Hx _]; subst.
    assert (x = L) by (apply Hall, Hsame, Hin'; left; reflexivity).
    subst x. exact (above_irrefl L Hx).
  - exfalso. destruct t as [|x t]; [congruence|].
    inversion Hab as [|? ? Hx _]; subst.
    assert (x = L) by (apply Hall', Hsame, Hin; left; reflexivity).
    subst x. exact (above_irrefl L Hx).
  - apply (sorted_unique (ang_lt L));
      [apply ang_lt_irrefl|apply ang_lt_asym|exact Hs|exact Hs'|].
    intros x. split.
    + apply (Hhalf pts pts' t t'); auto; intros z Hz; apply Hsame; exact Hz.
    + apply (Hhalf pts' pts t' t); auto; intros z Hz; apply Hsame; exact Hz.
Qed.

End Canonical.

Lemma lowest_of_perm (pts pts' : list point) :
  Permutation pts pts' -> pts <> [] -> lowest_of pts' = lowest_of pts.
Proof.
  intros Hperm Hne.
  assert (Hne' : pts' <> []).
  { intros E. subst pts'. apply Permutation_sym, Permutation_nil in Hperm.
    contradiction. }
  apply (anchor_unique pts').
  - apply lowest_of_anchor. exact Hne'.
  - destruct (lowest_of_anchor pts Hne) as [Hin Hmin]. split.
    + apply (Permutation_in _ Hperm). exact Hin.
    + intros p Hp. apply Hmin. apply (Permutation_in _ (Permutation_sym Hperm)).
      exact Hp.
Qed.

(** In exact arithmetic, three points or more in any order give the same
    sequence. *)
Lemma graham_scan_perm (self self' : ConvexHull) :
  Permutation (points self) (points self') ->
  (3 <= length (points self))%nat ->
  graham_scan_val exact self' = graham_scan_val exact self.
Proof.
  intros Hperm Hlen.
  assert (Hlen' : (3 <= length (points self'))%nat)
    by (rewrite <- (Permutation_length Hperm); exact Hlen).
  assert (Hne : points self <> [])
    by (destruct (points self); [simpl in Hlen; lia|discriminate]).
  pose proof (lowest_of_perm _ _ Hperm Hne) as HL.
  destruct (phase2_exact self Hlen) as (t & Eg & Htne & Hin & Hdom & Hshape).
  destruct (phase2_exact self' Hlen') as (t' & Eg' & Htne' & Hin' & Hdom' & Hshape').
  rewrite HL in *. rewrite Eg, Eg'. f_equal. symmetry.
  apply (collapsed_unique (lowest_of (points self)) (points self) (points self'));
    auto.
  intros x. split; apply Permutation_in; [|symmetry]; exact Hperm.
Qed.




(** * Where the rounding of the arguments shows

    The inputs below have coordinates of 54 bits and more.  The integers
    [2^53 + 1] and [2^53] convert to the same double, so the points
    [(2^53, 2^53 + 1)], [(2^53 + 1, 2^53)], [(2^53 + 1, 2^53 + 1)] and
    [(2^53, 2^53)] have the same polar angle for [math.atan2], while
    [orientation], computed on the integers, tells their directions apart.
    Points of equal key stay in their input order in [sorted]. *)

Lemma to_double_small (n : Z) : Z.abs n < 2 ^ 53 -> to_double n = n.
Proof.
  intros H. unfold to_double. cbv zeta.
  destruct (Z.leb_spec (Z.log2 (Z.abs n) - 52) 0) as [_|Hl]; [reflexivity|].
  exfalso.
  assert (H0 : 0 < Z.abs n)
    by (destruct (Z.eq_dec (Z.abs n) 0) as [E|E]; [rewrite E in Hl; simpl in Hl|]; lia).
  pose proof (Z.log2_lt_pow2 (Z.abs n) 53 H0) as [Hlt _].
  specialize (Hlt H). lia.
Qed.

(** C1.  The code at the failing input: the four points come back as a
    hull of four vertices whose last two vertices and first vertex turn
    clockwise, so the list returned is not a convex polygon. *)
Lemma rounded_hull_turns_clockwise :
  returns rounding
    (new [(0, 0); (2 ^ 54, 0); (2 ^ 53, 2 ^ 53 + 1); (2 ^ 53, 2 ^ 53)])
    [(0, 0); (2 ^ 54, 0); (2 ^ 53, 2 ^ 53 + 1); (2 ^ 53, 2 ^ 53)]
  /\ orientation (2 ^ 53, 2 ^ 53 + 1) (2 ^ 53, 2 ^ 53) (0, 0) = 1
  /\ ~ strictly_convex
         [(0, 0); (2 ^ 54, 0); (2 ^ 53, 2 ^ 53 + 1); (2 ^ 53, 2 ^ 53)].
Proof.
  split; [vm_compute; reflexivity|]. split; [vm_compute; reflexivity|].
  intros H. specialize (H 2%nat ltac:(simpl; lia)).
  vm_compute in H. discriminate.
Qed.

(** C2.  The code at the failing input: for three points that are not on
    a line a segment comes back, and one input point is not on it. *)
Lemma rounded_input_outside_hull :
  returns rounding
    (new [(0, 0); (2 ^ 53, 2 ^ 53 + 1); (2 ^ 53, 2 ^ 53)])
    [(0, 0); (2 ^ 53, 2 ^ 53)]
  /\ In (2 ^ 53, 2 ^ 53 + 1)
        (points (new [(0, 0); (2 ^ 53, 2 ^ 53 + 1); (2 ^ 53, 2 ^ 53)]))
  /\ ~ inside_or_on [(0, 0); (2 ^ 53, 2 ^ 53)] (2 ^ 53, 2 ^ 53 + 1).
Proof.
  split; [vm_compute; reflexivity|]. split; [right; left; reflexivity|].
  intros [H _]. vm_compute in H. discriminate.
Qed.

(** The same for every math library that accepts the integers that
    convert to a double, computes on the converted arguments and finds no
    float below itself, whatever it computes. *)
Lemma rounded_input_outside_hull_any (M : libm) :
  (forall n, fits_double n = true -> fits M n = true) ->
  (forall y x, atan2 M y x = atan2 M (to_double y) (to_double x)) ->
  (forall a, flt M a a = false) ->
  returns M
    (new [(0, 0); (2 ^ 53, 2 ^ 53 + 1); (2 ^ 53, 2 ^ 53)])
    [(0, 0); (2 ^ 53, 2 ^ 53)].
Proof.
  intros Hfits Hround Hirr.
  assert (Hr : in_range M
                 (points (new [(0, 0); (2 ^ 53, 2 ^ 53 + 1); (2 ^ 53, 2 ^ 53)]))).
  { intros p Hp. cbn [points new In] in Hp.
    destruct Hp as [<-|[<-|[<-|[]]]];
      repeat split; apply Hfits; vm_compute; reflexivity. }
  apply returns_iff. split; [discriminate|].
  rewrite (graham_scan_in_range M _ Hr). f_equal.
  rewrite graham_scan_sorted by (simpl; lia).
  cbn [points new].
  change (lowest_of [(0, 0); (2 ^ 53, 2 ^ 53 + 1); (2 ^ 53, 2 ^ 53)])
    with ((0, 0) : point).
  assert (Ek : polar_angle_val M (0, 0) (2 ^ 53, 2 ^ 53 + 1)
               = polar_angle_val M (0, 0) (2 ^ 53, 2 ^ 53)).
  { unfold polar_angle_val.
    change (point_eqb (2 ^ 53, 2 ^ 53 + 1) (0, 0)) with false.
    change (point_eqb (2 ^ 53, 2 ^ 53) (0, 0)) with false.
    cbv iota.
    rewrite (Hround (py (2 ^ 53, 2 ^ 53 + 1) - py (0, 0))).
    rewrite (Hround (py (2 ^ 53, 2 ^ 53) - py (0, 0))).
    reflexivity. }
  assert (Es : sorted (angle_lt M (0, 0))
                 [(0, 0); (2 ^ 53, 2 ^ 53 + 1); (2 ^ 53, 2 ^ 53)]
               = [(0, 0); (2 ^ 53, 2 ^ 53 + 1); (2 ^ 53, 2 ^ 53)]).
  { cbn [sorted insert_sorted].
    replace (angle_lt M (0, 0) (2 ^ 53, 2 ^ 53) (2 ^ 53, 2 ^ 53 + 1)) with false
      by (unfold angle_lt; rewrite Ek; symmetry; apply Hirr).
    cbn [insert_sorted].
    rewrite (angle_lt_anchor_r M (0, 0)). reflexivity. }
  rewrite Es. reflexivity.
Qed.

(** C5.  The code at the failing input: of three points on a line the
    nearer of the two beyond the anchor comes back, and the farther one is
    not on the segment returned. *)
Lemma rounded_collinear_not_extreme :
  returns rounding
    (new [(0, 0); (2 ^ 60, 0); (2 ^ 60 + 1, 0)])
    [(0, 0); (2 ^ 60, 0)]
  /\ all_collinear (points (new [(0, 0); (2 ^ 60, 0); (2 ^ 60 + 1, 0)]))
  /\ In (2 ^ 60 + 1, 0) (points (new [(0, 0); (2 ^ 60, 0); (2 ^ 60 + 1, 0)]))
  /\ ~ on_segment (0, 0) (2 ^ 60, 0) (2 ^ 60 + 1, 0).
Proof.
  split; [vm_compute; reflexivity|]. split; [|split].
  - intros p q r Hp Hq Hr. cbn [points new In] in Hp, Hq, Hr.
    destruct Hp as [<-|[<-|[<-|[]]]];
      destruct Hq as [<-|[<-|[<-|[]]]];
      destruct Hr as [<-|[<-|[<-|[]]]]; vm_compute; reflexivity.
  - right. right. left. reflexivity.
  - intros (_ & [_ H] & _). vm_compute in H. apply H. reflexivity.
Qed.

(** C8.  The code at the failing input: a hull of four points comes
    back, and the hull computed from it has three. *)
Lemma rounded_hull_not_fixed :
  returns rounding
    (new [(0, 0); (2 ^ 55, 0); (2 ^ 53 + 1, 2 ^ 53 + 1);
          (2 ^ 53 + 1, 2 ^ 53); (2 ^ 53, 2 ^ 53)])
    [(0, 0); (2 ^ 55, 0); (2 ^ 53 + 1, 2 ^ 53 + 1); (2 ^ 53, 2 ^ 53)]
  /\ returns rounding
       (new [(0, 0); (2 ^ 55, 0); (2 ^ 53 + 1, 2 ^ 53 + 1); (2 ^ 53, 2 ^ 53)])
       [(0, 0); (2 ^ 55, 0); (2 ^ 53 + 1, 2 ^ 53 + 1)]
  /\ ~ returns rounding
         (new [(0, 0); (2 ^ 55, 0); (2 ^ 53 + 1, 2 ^ 53 + 1); (2 ^ 53, 2 ^ 53)])
         [(0, 0); (2 ^ 55, 0); (2 ^ 53 + 1, 2 ^ 53 + 1); (2 ^ 53, 2 ^ 53)].
Proof.
  split; [vm_compute; reflexivity|]. split; [vm_compute; reflexivity|].
  intros H. vm_compute in H. discriminate.
Qed.

(** C10.  The code at the failing input: a hull of five vertices comes
    back in which the point the input repeats occurs twice. *)
Lemma rounded_hull_repeats_point :
  returns rounding
    (new [(0, 0); (2 ^ 53 + 1, 2 ^ 53); (2 ^ 53 + 1, 2 ^ 53 + 1);
          (2 ^ 53, 2 ^ 53 + 1); (2 ^ 53 + 1, 2 ^ 53)])
    [(0, 0); (2 ^ 53 + 1, 2 ^ 53); (2 ^ 53 + 1, 2 ^ 53 + 1);
     (2 ^ 53, 2 ^ 53 + 1); (2 ^ 53 + 1, 2 ^ 53)]
  /\ ~ NoDup [(0, 0); (2 ^ 53 + 1, 2 ^ 53); (2 ^ 53 + 1, 2 ^ 53 + 1);
              (2 ^ 53, 2 ^ 53 + 1); (2 ^ 53 + 1, 2 ^ 53)].
Proof.
  split; [vm_compute; reflexivity|].
  intros H. inversion H as [|? ? _ H1]; subst.
  inversion H1 as [|? ? Hnin _]; subst.
  apply Hnin. right. right. left. reflexivity.
Qed.

(** * The exact library and the real numbers

    [exact] compares two angles by their sectors and a cross product, and
    two roots by their radicands.  These are the orders of the real numbers
    [atan2(y, x)] and [sqrt(n)]. *)

Section RealOrder.

Local Open Scope R_scope.

Lemma atan_lt_iff (a b : R) : atan a < atan b <-> a < b.
Proof.
  split; [|apply atan_increasing].
  intros H. destruct (Rlt_le_dec a b) as [Hlt|Hle]; [exact Hlt|].
  destruct Hle as [Hlt|Heq].
  - apply atan_increasing in Hlt. lra.
  - subst. lra.
Qed.

Lemma atan_inv_pos (y x : R) : 0 < x -> 0 < y -> atan (y / x) = PI / 2 - atan (x / y).
Proof.
  intros Hx Hy.
  replace (y / x) with (/ (x / y)) by (field; lra).
  apply atan_inv. apply Rdiv_lt_0_compat; assumption.
Qed.

Lemma Ratan2_upper (y x : R) : 0 < y -> Ratan2 y x = PI / 2 - atan (x / y).
Proof.
  intros Hy. unfold Ratan2.
  destruct (Rlt_dec 0 x) as [Hx|Hx].
  - apply atan_inv_pos; assumption.
  - destruct (Rlt_dec x 0) as [Hx'|Hx'].
    + destruct (Rle_dec 0 y) as [_|N]; [|lra].
      replace (y / x) with (- (y / - x)) by (field; lra).
      replace (x / y) with (- (- x / y)) by (field; lra).
      rewrite !atan_opp, (atan_inv_pos y (- x)) by lra. lra.
    + assert (x = 0) by lra. subst x.
      destruct (Rlt_dec 0 y) as [_|N]; [|lra].
      replace (0 / y) with 0 by (field; lra). rewrite atan_0. lra.
Qed.

Lemma Ratan2_lower (y x : R) : y < 0 -> Ratan2 y x = - (PI / 2) - atan (x / y).
Proof.
  intros Hy. unfold Ratan2.
  destruct (Rlt_dec 0 x) as [Hx|Hx].
  - replace (y / x) with (- (- y / x)) by (field; lra).
    replace (x / y) with (- (x / - y)) by (field; lra).
    rewrite !atan_opp, (atan_inv_pos (- y) x) by lra. lra.
  - destruct (Rlt_dec x 0) as [Hx'|Hx'].
    + destruct (Rle_dec 0 y) as [N|_]; [lra|].
      replace (y / x) with (- y / - x) by (field; lra).
      replace (x / y) with (- x / - y) by (field; lra).
      rewrite (atan_inv_pos (- y) (- x)) by lra. lra.
    + assert (x = 0) by lra. subst x.
      destruct (Rlt_dec 0 y) as [N|_]; [lra|].
      destruct (Rlt_dec y 0) as [_|N]; [|lra].
      replace (0 / y) with 0 by (field; lra). rewrite atan_0. lra.
Qed.

Lemma Ratan2_zero_pos (x : R) : 0 <= x -> Ratan2 0 x = 0.
Proof.
  intros Hx. unfold Ratan2.
  destruct (Rlt_dec 0 x) as [H|H].
  - replace (0 / x) with 0 by (field; lra). apply atan_0.
  - destruct (Rlt_dec x 0); [lra|].
    destruct (Rlt_dec 0 0); [lra|]. reflexivity.
Qed.

Lemma Ratan2_zero_neg (x : R) : x < 0 -> Ratan2 0 x = PI.
Proof.
  intros Hx. unfold Ratan2.
  destruct (Rlt_dec 0 x); [lra|].
  destruct (Rlt_dec x 0); [|lra].
  destruct (Rle_dec 0 0); [|lra].
  replace (0 / x) with 0 by (field; lra). rewrite atan_0. lra.
Qed.

Lemma div_lt_cross (a b c d : R) :
  0 < b * d -> (a / b < c / d <-> a * d < c * b).
Proof.
  intros H.
  assert (Hb : b <> 0) by (intros E; subst; lra).
  assert (Hd : d <> 0) by (intros E; subst; lra).
  assert (E : c / d - a / b = (c * b - a * d) / (b * d)) by (field; auto).
  split; intros Hlt.
  - assert (H0 : 0 < (c * b - a * d) / (b * d)) by (rewrite <- E; lra).
    assert (H1 : 0 < (c * b - a * d) / (b * d) * (b * d))
      by (apply Rmult_lt_0_compat; assumption).
    replace ((c * b - a * d) / (b * d) * (b * d)) with (c * b - a * d) in H1
      by (field; auto).
    lra.
  - assert (H0 : 0 < (c * b - a * d) / (b * d))
      by (apply Rdiv_lt_0_compat; lra).
    rewrite <- E in H0. lra.
Qed.

(** The value of [atan2] and the sector it lies in. *)
Lemma Ratan2_sector (y x : Z) :
  (sector y x = 0%Z /\ (y < 0)%Z
   /\ Ratan2 (IZR y) (IZR x) = - (PI / 2) - atan (IZR x / IZR y)
   /\ - PI < Ratan2 (IZR y) (IZR x) < 0)
  \/ (sector y x = 1%Z /\ y = 0%Z /\ Ratan2 (IZR y) (IZR x) = 0)
  \/ (sector y x = 2%Z /\ (0 < y)%Z
      /\ Ratan2 (IZR y) (IZR x) = PI / 2 - atan (IZR x / IZR y)
      /\ 0 < Ratan2 (IZR y) (IZR x) < PI)
  \/ (sector y x = 3%Z /\ y = 0%Z /\ Ratan2 (IZR y) (IZR x) = PI).
Proof.
  unfold sector.
  destruct (Z.ltb_spec y 0) as [Hy|Hy].
  - left. apply IZR_lt in Hy.
    pose proof (Ratan2_lower _ (IZR x) Hy) as E.
    pose proof (atan_bound (IZR x / IZR y)).
    repeat split; auto; try lia; try lra. apply lt_IZR. exact Hy.
  - destruct (Z.ltb_spec 0 y) as [Hy'|Hy'].
    + right. right. left. apply IZR_lt in Hy'.
      pose proof (Ratan2_upper _ (IZR x) Hy') as E.
      pose proof (atan_bound (IZR x / IZR y)).
      repeat split; auto; try lra. apply lt_IZR. exact Hy'.
    + assert (y = 0%Z) by lia. subst y.
      destruct (Z.ltb_spec x 0) as [Hx|Hx].
      * right. right. right. repeat split.
        apply Ratan2_zero_neg. apply IZR_lt in Hx. exact Hx.
      * right. left. repeat split.
        apply Ratan2_zero_pos. apply IZR_le in Hx. exact Hx.
Qed.

Lemma cross_IZR (y1 x1 y2 x2 : Z) :
  (0 < x1 * y2 - x2 * y1)%Z <-> IZR x2 * IZR y1 < IZR x1 * IZR y2.
Proof.
  rewrite <- !mult_IZR. split; intros H.
  - apply IZR_lt. lia.
  - apply lt_IZR in H. lia.
Qed.

(** [xlt] on two angles is the order of the real numbers [atan2(y, x)]. *)
Theorem xlt_atan2 (y1 x1 y2 x2 : Z) :
  xlt (XAtan2 y1 x1) (XAtan2 y2 x2) = true
  <-> Ratan2 (IZR y1) (IZR x1) < Ratan2 (IZR y2) (IZR x2).
Proof.
  cbn [xlt].
  rewrite orb_true_iff, andb_true_iff, !Z.ltb_lt, Z.eqb_eq, cross_IZR.
  pose proof PI_RGT_0 as Hpi.
  destruct (Ratan2_sector y1 x1)
    as [(S1 & Hy1 & E1 & B1)|[(S1 & Hy1 & E1)|[(S1 & Hy1 & E1 & B1)|(S1 & Hy1 & E1)]]];
  destruct (Ratan2_sector y2 x2)
    as [(S2 & Hy2 & E2 & B2)|[(S2 & Hy2 & E2)|[(S2 & Hy2 & E2 & B2)|(S2 & Hy2 & E2)]]];
  rewrite S1, S2;
  try (split; [intros _; lra | intros _; left; lia]);
  try (split; [intros [H|[H _]]; lia | intros H; lra]).
  - (* both below the axis *)
    rewrite E1, E2.
    assert (Hd : IZR x2 / IZR y2 < IZR x1 / IZR y1
                 <-> IZR x2 * IZR y1 < IZR x1 * IZR y2).
    { apply div_lt_cross. apply IZR_lt in Hy1, Hy2. nra. }
    rewrite <- Hd, <- atan_lt_iff.
    split; [intros [H|[_ H]]; [lia|lra] | intros H; right; split; [reflexivity|lra]].
  - subst y1 y2. rewrite E1, E2. rewrite !Rmult_0_r.
    split; [intros [H|[_ H]]; [lia|lra] | intros H; lra].
  - rewrite E1, E2.
    assert (Hd : IZR x2 / IZR y2 < IZR x1 / IZR y1
                 <-> IZR x2 * IZR y1 < IZR x1 * IZR y2).
    { apply div_lt_cross. apply IZR_lt in Hy1, Hy2. nra. }
    rewrite <- Hd, <- atan_lt_iff.
    split; [intros [H|[_ H]]; [lia|lra] | intros H; right; split; [reflexivity|lra]].
  - subst y1 y2. rewrite E1, E2. rewrite !Rmult_0_r.
    split; [intros [H|[_ H]]; [lia|lra] | intros H; lra].
Qed.

(** [xlt] on two roots is the order of the real numbers [sqrt(n)]. *)
Theorem xlt_sqrt (n1 n2 : Z) :
  (0 <= n1)%Z -> (0 <= n2)%Z ->
  xlt (XSqrt n1) (XSqrt n2) = true
  <-> R_sqrt.sqrt (IZR n1) < R_sqrt.sqrt (IZR n2).
Proof.
  intros H1 H2. cbn [xlt]. rewrite Z.ltb_lt.
  apply IZR_le in H1, H2. split; intros H.
  - apply sqrt_lt_1; [exact H1|exact H2|apply IZR_lt; exact H].
  - apply lt_IZR. apply sqrt_lt_0; assumption.
Qed.

(** So the comparisons that [exact_on] asks of a library are those of the
    real polar angles and the real distances. *)
Corollary angle_lt_exact_real (L p q : point) :
  p <> L -> q <> L ->
  angle_lt exact L p q = true
  <-> Ratan2 (IZR (py p - py L)) (IZR (px p - px L))
      < Ratan2 (IZR (py q - py L)) (IZR (px q - px L)).
Proof.
  intros Hp Hq. unfold angle_lt, polar_angle_val.
  destruct (point_eqb_spec p L) as [E|_]; [contradiction|].
  destruct (point_eqb_spec q L) as [E|_]; [contradiction|].
  apply xlt_atan2.
Qed.

Corollary distance_lt_exact_real (L p q : point) :
  flt exact (distance_val exact L p) (distance_val exact L q) = true
  <-> R_sqrt.sqrt (IZR (dist2 L p)) < R_sqrt.sqrt (IZR (dist2 L q)).
Proof.
  apply xlt_sqrt; apply dist2_nonneg.
Qed.

End RealOrder.

(** * Further properties of the class *)

(** ** [orientation] and [distance] *)

(** X1.  On points with integer coordinates [orientation] does not change
    when its three arguments are rotated, and exchanging the last two
    exchanges clockwise (1) and counterclockwise (2) and keeps collinear
    (0). *)
Theorem orientation_symmetries (p q r : point) :
  orientation q r p = orientation p q r
  /\ orientation p r q
     = (if orientation p q r =? 0 then 0 else 3 - orientation p q r).
Proof.
  unfold orientation; cbv zeta.
  rewrite <- (turn_rot p q r), (turn_swap p q r).
  destruct (Z.eqb_spec (turn p q r) 0) as [E|E].
  - rewrite E. split; reflexivity.
  - split; [reflexivity|].
    destruct (Z.eqb_spec (- turn p q r) 0) as [E'|E']; [lia|].
    destruct (Z.gtb_spec (turn p q r) 0), (Z.gtb_spec (- turn p q r) 0);
      cbn; lia.
Qed.

(** X2.  On points with integer coordinates [orientation] answers
    collinear (0) whenever two of its three arguments are the same
    point. *)
Theorem orientation_repeated_point (p q : point) :
  orientation p p q = 0 /\ orientation p q q = 0 /\ orientation p q p = 0.
Proof.
  repeat split; apply orientation_col;
    [apply turn_same_l|apply turn_same_r|apply turn_same_lr].
Qed.

Lemma dist2_sym (p q : point) : dist2 p q = dist2 q p.
Proof. unfold dist2. ring. Qed.

(** X3.  [distance] is symmetric for every math library: both orders of the
    arguments put the same integer under the square root, so the two calls
    return the same float or both raise. *)
Theorem distance_symmetric (M : libm) (p q : point) :
  distance M p q = distance M q p.
Proof. unfold distance. rewrite (dist2_sym p q). reflexivity. Qed.

(** ** What the phases drop

    Phase 2 and Phase 3 only remove entries of the sorted list: what each
    returns, with what it dropped, is a rearrangement of what it got. *)

Lemma collapse_dropped (M : libm) (L : point) (rest : list point) :
  forall c, exists d, Permutation (collapse M L c rest ++ d) (c :: rest).
Proof.
  induction rest as [|n rest IH]; intros c; cbn [collapse].
  - exists []. reflexivity.
  - destruct (orientation L c n =? 0).
    + destruct (flt M (distance_val M L c) (distance_val M L n)).
      * destruct (IH n) as [d Hd]. exists (c :: d).
        rewrite <- Permutation_middle. constructor. exact Hd.
      * destruct (IH c) as [d Hd]. exists (n :: d).
        rewrite <- Permutation_middle.
        rewrite (perm_swap n c rest). constructor. exact Hd.
    + destruct (IH n) as [d Hd]. exists d. cbn [app]. constructor. exact Hd.
Qed.

Lemma pop_while_dropped (p : point) (st : list point) :
  exists d, Permutation (pop_while st p ++ d) st.
Proof.
  induction st as [|top st IH].
  - exists []. reflexivity.
  - cbn [pop_while]. destruct st as [|second st'].
    + exists []. reflexivity.
    + destruct (negb (orientation second top p =? 2)).
      * destruct IH as [d Hd]. exists (top :: d).
        rewrite <- Permutation_middle. constructor. exact Hd.
      * exists []. rewrite app_nil_r. reflexivity.
Qed.

Lemma scan_dropped (cs : list point) :
  forall st, exists d,
    Permutation (fold_left scan_step cs st ++ d) (cs ++ st).
Proof.
  induction cs as [|p cs IH]; intros st; cbn [fold_left].
  - exists []. rewrite app_nil_r. reflexivity.
  - destruct (IH (scan_step st p)) as [d Hd].
    destruct (pop_while_dropped p st) as [d' Hd'].
    exists (d ++ d'). rewrite app_assoc, Hd. unfold scan_step.
    rewrite <- app_assoc. cbn [app].
    rewrite <- Permutation_middle. constructor.
    apply Permutation_app_head. exact Hd'.
Qed.

Lemma scan_collapsed_dropped (s0 : point) (cs : list point) :
  exists d, Permutation (scan_collapsed s0 cs ++ d) (s0 :: cs).
Proof.
  unfold scan_collapsed. destruct cs as [|c1 [|c2 cs]].
  - exists []. reflexivity.
  - exists []. reflexivity.
  - destruct (scan_dropped (c2 :: cs) [c1; s0]) as [d Hd].
    exists d. rewrite <- (Permutation_rev (fold_left _ _ _)), Hd.
    rewrite Permutation_app_comm. cbn [app].
    rewrite (perm_swap s0 c1). reflexivity.
Qed.

Lemma graham_scan_dropped (M : libm) (self : ConvexHull) :
  exists d, Permutation (graham_scan_val M self ++ d) (points self).
Proof.
  destruct (Nat.lt_ge_cases (length (points self)) 3) as [Hlen|Hlen].
  - exists []. rewrite graham_scan_small by exact Hlen.
    rewrite app_nil_r. reflexivity.
  - rewrite graham_scan_sorted by exact Hlen.
    pose proof (sorted_perm (angle_lt M (lowest_of (points self))) (points self))
      as Hperm.
    pose proof (sorted_length (angle_lt M (lowest_of (points self))) (points self))
      as Hslen.
    destruct (sorted (angle_lt M (lowest_of (points self))) (points self))
      as [|s0 [|s1 rest]]; cbn [length] in Hslen; try lia.
    cbn [graham_sorted].
    destruct (collapse_dropped M (lowest_of (points self)) rest s1) as [d1 Hd1].
    destruct (scan_collapsed_dropped s0
                (collapse M (lowest_of (points self)) s1 rest)) as [d2 Hd2].
    exists (d2 ++ d1). rewrite app_assoc, Hd2. cbn [app].
    apply (Permutation_trans (l' := s0 :: s1 :: rest)); [|exact Hperm].
    constructor. exact Hd1.
Qed.

(** X4.  For every math library the hull is the input with some entries
    dropped and the rest rearranged: a point occurs in the hull at most as
    often as in the input. *)
Theorem hull_drops_entries (M : libm) (self : ConvexHull) (h : list point) :
  returns M self h ->
  exists dropped, Permutation (h ++ dropped) (points self).
Proof.
  intros Hret. apply returns_graham_scan in Hret. destruct Hret as [_ ->].
  apply graham_scan_dropped.
Qed.

Lemma hull_drops_entries_witness :
  returns exact (new [(0, 0); (2, 0); (1, 1); (2, 2); (0, 2)])
          [(0, 0); (2, 0); (2, 2); (0, 2)]
  /\ exists dropped,
       Permutation ([(0, 0); (2, 0); (2, 2); (0, 2)] ++ dropped)
                   (points (new [(0, 0); (2, 0); (1, 1); (2, 2); (0, 2)])).
Proof.
  split; [reflexivity|].
  apply (hull_drops_entries exact
           (new [(0, 0); (2, 0); (1, 1); (2, 2); (0, 2)])).
  reflexivity.
Defined.

(** X5.  For every math library the hull is never empty and never longer
    than the input, and an input of two points or more gives a hull of two
    points or more. *)
Theorem hull_size (M : libm) (self : ConvexHull) (h : list point) :
  returns M self h ->
  (1 <= length h <= length (points self))%nat
  /\ ((2 <= length (points self))%nat -> (2 <= length h)%nat).
Proof.
  intros Hret. apply returns_graham_scan in Hret. destruct Hret as [Hne ->].
  destruct (graham_scan_dropped M self) as [d Hd].
  apply Permutation_length in Hd. rewrite length_app in Hd.
  pose proof (graham_scan_not_nil M self Hne) as Hnn.
  split; [|apply graham_scan_length_ge2].
  destruct (graham_scan_val M self); [contradiction|cbn [length] in *; lia].
Qed.

Lemma hull_size_witness :
  returns exact (new [(0, 0); (2, 0); (1, 1); (2, 2); (0, 2)])
          [(0, 0); (2, 0); (2, 2); (0, 2)]
  /\ (Nat.le 1 (length [(0, 0); (2, 0); (2, 2); (0, 2)])
      /\ Nat.le (length [(0, 0); (2, 0); (2, 2); (0, 2)])
                (length (points (new [(0, 0); (2, 0); (1, 1); (2, 2); (0, 2)]))))
  /\ (Nat.le 2 (length (points (new [(0, 0); (2, 0); (1, 1); (2, 2); (0, 2)]))) ->
      Nat.le 2 (length [(0, 0); (2, 0); (2, 2); (0, 2)])).
Proof.
  split; [reflexivity|].
  apply (hull_size exact (new [(0, 0); (2, 0); (1, 1); (2, 2); (0, 2)])).
  reflexivity.
Defined.

(** X6.  For every math library an input without repeated points gives a
    hull without repeated points. *)
Theorem hull_distinct_of_distinct (M : libm) (self : ConvexHull) (h : list point) :
  NoDup (points self) ->
  returns M self h ->
  NoDup h.
Proof.
  intros Hnd Hret. apply returns_graham_scan in Hret. destruct Hret as [_ ->].
  destruct (graham_scan_dropped M self) as [d Hd].
  apply (NoDup_app_remove_r _ d).
  apply (Permutation_NoDup (Permutation_sym Hd)). exact Hnd.
Qed.

Lemma hull_distinct_of_distinct_witness :
  NoDup (points (new [(0, 0); (2 ^ 54, 0); (2 ^ 53, 2 ^ 53 + 1); (2 ^ 53, 2 ^ 53)]))
  /\ returns rounding
       (new [(0, 0); (2 ^ 54, 0); (2 ^ 53, 2 ^ 53 + 1); (2 ^ 53, 2 ^ 53)])
       [(0, 0); (2 ^ 54, 0); (2 ^ 53, 2 ^ 53 + 1); (2 ^ 53, 2 ^ 53)]
  /\ NoDup [(0, 0); (2 ^ 54, 0); (2 ^ 53, 2 ^ 53 + 1); (2 ^ 53, 2 ^ 53)].
Proof.
  assert (Hnd : NoDup (points (new [(0, 0); (2 ^ 54, 0); (2 ^ 53, 2 ^ 53 + 1);
                                    (2 ^ 53, 2 ^ 53)]))).
  { cbn [points new]. repeat constructor; cbn [In]; intros H;
      repeat (destruct H as [H|H]; [discriminate H|]); exact H. }
  split; [exact Hnd|]. split; [vm_compute; reflexivity|].
  apply (hull_distinct_of_distinct rounding
           (new [(0, 0); (2 ^ 54, 0); (2 ^ 53, 2 ^ 53 + 1); (2 ^ 53, 2 ^ 53)]));
    [exact Hnd|vm_compute; reflexivity].
Defined.

(** ** Maps of the plane that the scan commutes with

    [graham_scan] reads its points through four tests only: the order of
    the keys of [min], the order of the polar angles about the anchor, the
    order of the distances from the anchor, and [orientation].  A map [f]
    of the plane that keeps the outcome of each of them can be applied
    before the scan or after it. *)

Section Equivariance.

Variable M : libm.
Variable f : point -> point.

Hypothesis f_lowest : forall p q, lowest_lt (f p) (f q) = lowest_lt p q.
Hypothesis f_angle :
  forall L p q, angle_lt M (f L) (f p) (f q) = angle_lt M L p q.
Hypothesis f_orient :
  forall p q r, orientation (f p) (f q) (f r) = orientation p q r.
Hypothesis f_dist :
  forall L p q,
    flt M (distance_val M (f L) (f p)) (distance_val M (f L) (f q))
    = flt M (distance_val M L p) (distance_val M L q).

Lemma min_from_map (l : list point) :
  forall best,
    min_from lowest_lt (f best) (map f l) = f (min_from lowest_lt best l).
Proof.
  induction l as [|x l IH]; intros best; cbn [map min_from]; [reflexivity|].
  rewrite f_lowest. destruct (lowest_lt x best); apply IH.
Qed.

Lemma lowest_of_map (l : list point) :
  l <> [] -> lowest_of (map f l) = f (lowest_of l).
Proof.
  destruct l as [|x l]; [contradiction|]. intros _.
  cbn [map lowest_of]. apply min_from_map.
Qed.

Lemma collapse_map (L : point) (rest : list point) :
  forall c,
    collapse M (f L) (f c) (map f rest) = map f (collapse M L c rest).
Proof.
  induction rest as [|n rest IH]; intros c; cbn [map collapse]; [reflexivity|].
  rewrite f_orient, f_dist.
  destruct (orientation L c n =? 0).
  - destruct (flt M (distance_val M L c) (distance_val M L n)); apply IH.
  - cbn [map]. rewrite IH. reflexivity.
Qed.

Lemma pop_while_map (p : point) (st : list point) :
  pop_while (map f st) (f p) = map f (pop_while st p).
Proof.
  induction st as [|top st IH]; [reflexivity|].
  destruct st as [|second st']; [reflexivity|].
  cbn [map pop_while] in *. rewrite f_orient.
  destruct (negb (orientation second top p =? 2)); [exact IH|reflexivity].
Qed.

Lemma scan_map (cs : list point) :
  forall st,
    fold_left scan_step (map f cs) (map f st)
    = map f (fold_left scan_step cs st).
Proof.
  induction cs as [|p cs IH]; intros st; cbn [map fold_left]; [reflexivity|].
  rewrite <- IH. f_equal. unfold scan_step. cbn [map].
  rewrite pop_while_map. reflexivity.
Qed.

Lemma scan_collapsed_map (s0 : point) (cs : list point) :
  scan_collapsed (f s0) (map f cs) = map f (scan_collapsed s0 cs).
Proof.
  unfold scan_collapsed. destruct cs as [|c1 [|c2 cs]]; [reflexivity..|].
  cbn [map]. rewrite map_rev. f_equal.
  apply (scan_map (c2 :: cs) [c1; s0]).
Qed.

Lemma graham_sorted_map (L : point) (s : list point) :
  graham_sorted M (f L) (map f s) = map f (graham_sorted M L s).
Proof.
  destruct s as [|s0 [|s1 rest]]; [reflexivity..|].
  cbn [map graham_sorted]. rewrite collapse_map. apply scan_collapsed_map.
Qed.

Lemma graham_scan_map (self : ConvexHull) :
  graham_scan_val M (new (map f (points self))) = map f (graham_scan_val M self).
Proof.
  destruct (Nat.lt_ge_cases (length (points self)) 3) as [Hlen|Hlen].
  - rewrite !graham_scan_small;
      cbn [points new]; rewrite ?length_map; [reflexivity|exact Hlen..].
  - rewrite (graham_scan_sorted M self) by exact Hlen.
    rewrite graham_scan_sorted by (cbn [points new]; rewrite length_map; exact Hlen).
    cbn [points new].
    rewrite lowest_of_map
      by (destruct (points self); [simpl in Hlen; lia|discriminate]).
    rewrite (sorted_map f (angle_lt M (lowest_of (points self))))
      by (apply f_angle).
    apply graham_sorted_map.
Qed.

(** *** The calls

    When [f] also keeps the arguments of the calls into [math], a run on
    the image of the input makes the calls of the run on the input. *)

Hypothesis f_key :
  forall L p, polar_angle M (f L) (f p) = polar_angle M L p.
Hypothesis f_call :
  forall L p, distance M (f L) (f p) = distance M L p.

Lemma collapse_loop_map (L : point) (fuel : nat) :
  forall (rest pre : list point) (c : point),
    collapse_loop M fuel (f L) (length (map f pre))
      (map f pre ++ f c :: map f rest)
    = match collapse_loop M fuel L (length pre) (pre ++ c :: rest) with
      | Ok out => Ok (map f out)
      | Raise e => Raise e
      end.
Proof.
  induction fuel as [|fuel IH]; intros rest pre c; cbn [collapse_loop].
  - rewrite map_app. reflexivity.
  - destruct rest as [|n rest]; cbn [map].
    + rewrite !collapse_step_last. cbn [bind]. rewrite map_app. reflexivity.
    + rewrite !collapse_step_next, f_orient, !f_call.
      destruct (orientation L c n =? 0).
      * destruct (distance M L c) as [d1|e]; cbn [bind]; [|reflexivity].
        destruct (distance M L n) as [d2|e]; cbn [bind]; [|reflexivity].
        destruct (flt M d1 d2); cbn [bind].
        -- exact (IH rest pre n).
        -- exact (IH rest pre c).
      * cbn [bind].
        replace (map f pre ++ [f c]) with (map f (pre ++ [c]))
          by (rewrite map_app; reflexivity).
        exact (IH rest (pre ++ [c]) n).
Qed.

Lemma polar_angle_val_map (L p : point) (k : float M) :
  polar_angle M L p = Ok k ->
  polar_angle M (f L) (f p) = Ok (polar_angle_val M (f L) (f p)).
Proof.
  intros Hk. pose proof (f_key L p) as E. rewrite Hk in E.
  rewrite E. f_equal. apply polar_angle_returns. exact E.
Qed.

(** The run on the image returns the image of what the run on the input
    returns. *)
Lemma returns_map (self : ConvexHull) (h : list point) :
  returns M self h -> returns M (new (map f (points self))) (map f h).
Proof.
  intros Hret. apply returns_iff in Hret. destruct Hret as [Hne Hrun].
  pose proof (graham_scan_returns M self h Hrun) as Eh.
  apply returns_iff. split.
  - cbn [points new]. destruct (points self); [contradiction|discriminate].
  - rewrite Eh, <- graham_scan_map.
    destruct (Nat.lt_ge_cases (length (points self)) 3) as [Hlen|Hlen].
    + rewrite graham_scan_small
        by (cbn [points new]; rewrite length_map; exact Hlen).
      apply graham_scan_small_returns.
      cbn [points new]. rewrite length_map. exact Hlen.
    + apply graham_scan_no_raise; cbn [points new].
      * rewrite length_map. exact Hlen.
      * rewrite (lowest_of_map (points self) Hne).
        intros p' Hp'. apply in_map_iff in Hp'. destruct Hp' as (p & <- & Hp).
        apply (polar_angle_val_map _ _
                 (polar_angle_val M (lowest_of (points self)) p)).
        exact (graham_scan_keys M self h Hlen Hrun p Hp).
      * rewrite (lowest_of_map (points self) Hne).
        rewrite (sorted_map f (angle_lt M (lowest_of (points self))))
          by (apply f_angle).
        intros t0 t1 trest Et.
        pose proof (sorted_length (angle_lt M (lowest_of (points self)))
                      (points self)) as Hs.
        destruct (sorted (angle_lt M (lowest_of (points self))) (points self))
          as [|s0 [|s1 rest]] eqn:Es; cbn [length] in Hs; try lia.
        cbn [map] in Et. injection Et as <- <- <-.
        destruct (graham_scan_loop M self h s0 s1 rest Hlen Hrun Es)
          as (out & Hout).
        pose proof (collapse_loop_map (lowest_of (points self))
                      (length (s0 :: s1 :: rest)) rest [s0] s1) as Hmap.
        rewrite Hout in Hmap. cbn [map length app] in Hmap.
        exists (map f out). cbn [length app]. rewrite length_map. exact Hmap.
Qed.

End Equivariance.

(** *** Translations *)

Lemma ltb_add (a b d : Z) : (a + d <? b + d) = (a <? b).
Proof. apply Bool.eq_true_iff_eq. rewrite !Z.ltb_lt. lia. Qed.

Lemma eqb_add (a b d : Z) : (a + d =? b + d) = (a =? b).
Proof. apply Bool.eq_true_iff_eq. rewrite !Z.eqb_eq. lia. Qed.

Lemma ltb_mul (k a b : Z) : 0 < k -> (k * a <? k * b) = (a <? b).
Proof. intros Hk. apply Bool.eq_true_iff_eq. rewrite !Z.ltb_lt. nia. Qed.

Lemma eqb_mul (k a b : Z) : 0 < k -> (k * a =? k * b) = (a =? b).
Proof. intros Hk. apply Bool.eq_true_iff_eq. rewrite !Z.eqb_eq. nia. Qed.

Lemma shift_lowest (dx dy : Z) (p q : point) :
  lowest_lt (shift dx dy p) (shift dx dy q) = lowest_lt p q.
Proof.
  unfold lowest_lt, shift, px, py; cbn [fst snd].
  rewrite !ltb_add, eqb_add. reflexivity.
Qed.

Lemma shift_eqb (dx dy : Z) (p q : point) :
  point_eqb (shift dx dy p) (shift dx dy q) = point_eqb p q.
Proof.
  unfold point_eqb, shift, px, py; cbn [fst snd].
  rewrite !eqb_add. reflexivity.
Qed.

Lemma shift_polar_angle (M : libm) (dx dy : Z) (L p : point) :
  polar_angle_val M (shift dx dy L) (shift dx dy p) = polar_angle_val M L p.
Proof.
  unfold polar_angle_val. rewrite shift_eqb.
  destruct (point_eqb p L); [reflexivity|].
  unfold shift, px, py; cbn [fst snd]. f_equal; ring.
Qed.

Lemma shift_turn (dx dy : Z) (p q r : point) :
  turn (shift dx dy p) (shift dx dy q) (shift dx dy r) = turn p q r.
Proof. unfold turn, shift, px, py; cbn [fst snd]. ring. Qed.

Lemma shift_dist2 (dx dy : Z) (p q : point) :
  dist2 (shift dx dy p) (shift dx dy q) = dist2 p q.
Proof. unfold dist2, shift, px, py; cbn [fst snd]. ring. Qed.

(** X7.  For every math library the hull of a translated input is the
    translated hull, point by point and in the same order: the angles and
    distances are taken from differences of coordinates to the anchor,
    which a translation keeps. *)
Theorem hull_of_translation (M : libm) (dx dy : Z) (self : ConvexHull)
    (h : list point) :
  returns M self h ->
  returns M (new (map (shift dx dy) (points self))) (map (shift dx dy) h).
Proof.
  apply returns_map.
  - apply shift_lowest.
  - intros L p q. unfold angle_lt. rewrite !shift_polar_angle. reflexivity.
  - intros p q r. unfold orientation. rewrite shift_turn. reflexivity.
  - intros L p q. unfold distance_val. rewrite !shift_dist2. reflexivity.
  - intros L p. unfold polar_angle. rewrite shift_eqb.
    unfold shift, px, py; cbn [fst snd].
    replace (snd p + dy - (snd L + dy)) with (snd p - snd L) by ring.
    replace (fst p + dx - (fst L + dx)) with (fst p - fst L) by ring.
    reflexivity.
  - intros L p. unfold distance. rewrite shift_dist2. reflexivity.
Qed.

Lemma hull_of_translation_witness :
  returns rounding
    (new [(0, 0); (2 ^ 53, 2 ^ 53 + 1); (2 ^ 53, 2 ^ 53)])
    [(0, 0); (2 ^ 53, 2 ^ 53)]
  /\ returns rounding
       (new (map (shift 5 (-7))
               (points (new [(0, 0); (2 ^ 53, 2 ^ 53 + 1); (2 ^ 53, 2 ^ 53)]))))
       (map (shift 5 (-7)) [(0, 0); (2 ^ 53, 2 ^ 53)]).
Proof.
  split; [vm_compute; reflexivity|].
  apply (hull_of_translation rounding 5 (-7)
           (new [(0, 0); (2 ^ 53, 2 ^ 53 + 1); (2 ^ 53, 2 ^ 53)])).
  vm_compute; reflexivity.
Defined.

(** *** Scalings *)

Lemma scale_lowest (k : Z) (p q : point) :
  0 < k -> lowest_lt (scale k p) (scale k q) = lowest_lt p q.
Proof.
  intros Hk. unfold lowest_lt, scale, px, py; cbn [fst snd].
  rewrite !ltb_mul, eqb_mul by exact Hk. reflexivity.
Qed.

Lemma scale_eqb (k : Z) (p q : point) :
  0 < k -> point_eqb (scale k p) (scale k q) = point_eqb p q.
Proof.
  intros Hk. unfold point_eqb, scale, px, py; cbn [fst snd].
  rewrite !eqb_mul by exact Hk. reflexivity.
Qed.

Lemma scale_turn (k : Z) (p q r : point) :
  turn (scale k p) (scale k q) (scale k r) = k * k * turn p q r.
Proof. unfold turn, scale, px, py; cbn [fst snd]. ring. Qed.

Lemma scale_dist2 (k : Z) (p q : point) :
  dist2 (scale k p) (scale k q) = k * k * dist2 p q.
Proof. unfold dist2, scale, px, py; cbn [fst snd]. ring. Qed.

Lemma scale_orientation (k : Z) (p q r : point) :
  0 < k -> orientation (scale k p) (scale k q) (scale k r) = orientation p q r.
Proof.
  intros Hk. unfold orientation; cbv zeta. rewrite scale_turn.
  assert (Hkk : 0 < k * k) by nia.
  replace (k * k * turn p q r =? 0) with (turn p q r =? 0)
    by (rewrite <- (eqb_mul (k * k) (turn p q r) 0 Hkk); f_equal; ring).
  replace (k * k * turn p q r >? 0) with (turn p q r >? 0); [reflexivity|].
  rewrite !Z.gtb_ltb. rewrite <- (ltb_mul (k * k) 0 (turn p q r) Hkk).
  f_equal; ring.
Qed.

Lemma scale_sector (k y x : Z) :
  0 < k -> sector (k * y) (k * x) = sector y x.
Proof.
  intros Hk. unfold sector.
  replace (k * y <? 0) with (y <? 0)
    by (rewrite <- (ltb_mul k y 0 Hk); f_equal; ring).
  replace (0 <? k * y) with (0 <? y)
    by (rewrite <- (ltb_mul k 0 y Hk); f_equal; ring).
  replace (k * x <? 0) with (x <? 0)
    by (rewrite <- (ltb_mul k x 0 Hk); f_equal; ring).
  reflexivity.
Qed.

Lemma scale_angle_exact (k : Z) (L p q : point) :
  0 < k ->
  angle_lt exact (scale k L) (scale k p) (scale k q) = angle_lt exact L p q.
Proof.
  intros Hk. unfold angle_lt, polar_angle_val. rewrite !scale_eqb by exact Hk.
  unfold scale, px, py; cbn [fst snd].
  replace (k * snd p - k * snd L) with (k * (snd p - snd L)) by ring.
  replace (k * fst p - k * fst L) with (k * (fst p - fst L)) by ring.
  replace (k * snd q - k * snd L) with (k * (snd q - snd L)) by ring.
  replace (k * fst q - k * fst L) with (k * (fst q - fst L)) by ring.
  destruct (point_eqb p L), (point_eqb q L); cbn [exact flt neg_inf atan2 xlt];
    try reflexivity.
  rewrite !scale_sector by exact Hk.
  f_equal. f_equal.
  set (a := fst p - fst L). set (b := snd q - snd L).
  set (c := fst q - fst L). set (d := snd p - snd L).
  assert (Hkk : 0 < k * k) by nia.
  rewrite <- (ltb_mul (k * k) 0 (a * b - c * d) Hkk). f_equal; ring.
Qed.

Lemma scale_dist_exact (k : Z) (L p q : point) :
  0 < k ->
  flt exact (distance_val exact (scale k L) (scale k p))
            (distance_val exact (scale k L) (scale k q))
  = flt exact (distance_val exact L p) (distance_val exact L q).
Proof.
  intros Hk. rewrite !flt_exact_distance, !scale_dist2.
  apply ltb_mul. nia.
Qed.

(** X8.  For points with integer coordinates: when the float comparisons
    are exact on an input and on its multiple by a positive integer [k],
    and [compute_hull] returns on both, the hull of the multiple is the
    multiple of the hull, point by point and in the same order. *)
Theorem hull_of_scaling (M : libm) (k : Z) (self : ConvexHull)
    (h h' : list point) :
  0 < k ->
  exact_on M (points self) ->
  exact_on M (map (scale k) (points self)) ->
  returns M self h ->
  returns M (new (map (scale k) (points self))) h' ->
  h' = map (scale k) h.
Proof.
  intros Hk Hex Hex' Hret Hret'.
  apply returns_graham_scan in Hret, Hret'.
  destruct Hret as [_ ->], Hret' as [_ ->].
  rewrite (graham_scan_exact M self Hex).
  rewrite (graham_scan_exact M (new (map (scale k) (points self))) Hex').
  apply graham_scan_map.
  - intros p q. apply scale_lowest. exact Hk.
  - intros L p q. apply scale_angle_exact. exact Hk.
  - intros p q r. apply scale_orientation. exact Hk.
  - intros L p q. apply scale_dist_exact. exact Hk.
Qed.

Lemma hull_of_scaling_witness :
  0 < 3
  /\ exact_on rounding (points (new [(0, 0); (2, 0); (1, 1); (2, 2); (0, 2)]))
  /\ exact_on rounding
       (map (scale 3) (points (new [(0, 0); (2, 0); (1, 1); (2, 2); (0, 2)])))
  /\ returns rounding (new [(0, 0); (2, 0); (1, 1); (2, 2); (0, 2)])
             [(0, 0); (2, 0); (2, 2); (0, 2)]
  /\ returns rounding
       (new (map (scale 3) (points (new [(0, 0); (2, 0); (1, 1); (2, 2); (0, 2)]))))
       [(0, 0); (6, 0); (6, 6); (0, 6)]
  /\ [(0, 0); (6, 0); (6, 6); (0, 6)]
     = map (scale 3) [(0, 0); (2, 0); (2, 2); (0, 2)].
Proof.
  assert (H1 : exact_on rounding
                 (points (new [(0, 0); (2, 0); (1, 1); (2, 2); (0, 2)])))
    by (apply exact_on_b_spec; vm_compute; reflexivity).
  assert (H2 : exact_on rounding
                 (map (scale 3)
                    (points (new [(0, 0); (2, 0); (1, 1); (2, 2); (0, 2)]))))
    by (apply exact_on_b_spec; vm_compute; reflexivity).
  split; [lia|]. split; [exact H1|]. split; [exact H2|].
  split; [vm_compute; reflexivity|]. split; [vm_compute; reflexivity|].
  apply (hull_of_scaling rounding 3
           (new [(0, 0); (2, 0); (1, 1); (2, 2); (0, 2)]));
    [lia|exact H1|exact H2|vm_compute; reflexivity|vm_compute; reflexivity].
Defined.

(** ** The cached hull

    [set_points] and [add_points] empty the field [hull]; [compute_hull]
    fills it when [graham_scan] returns; [plot] computes it only when it is
    empty.  So the field is either empty or the hull of the present points.
    The lists are values here: a caller that keeps the list it passed to
    the object, or the list [compute_hull] returned, and changes it in
    place, is outside these statements. *)

Section MethodCalls.

Variable M : libm.

Lemma graham_scan_field (self self' : ConvexHull) :
  points self = points self' -> graham_scan M self = graham_scan M self'.
Proof. intros E. unfold graham_scan. rewrite E. reflexivity. Qed.

Lemma compute_hull_returns (self : ConvexHull) (h : list point) :
  points self <> [] -> graham_scan M self = Ok h ->
  compute_hull M self = (Ok h, {| points := points self; hull := h |}).
Proof.
  intros Hne H. unfold compute_hull. rewrite H.
  destruct (points self) eqn:E; [contradiction|reflexivity].
Qed.

Lemma compute_hull_raises (self : ConvexHull) (e : error) :
  points self <> [] -> graham_scan M self = Raise e ->
  compute_hull M self = (Raise OverflowError, self).
Proof.
  intros Hne H. unfold compute_hull.
  rewrite H, (graham_scan_raises M self e H).
  destruct (points self) eqn:E; [contradiction|reflexivity].
Qed.

Lemma compute_hull_empty (self : ConvexHull) :
  points self = [] -> compute_hull M self = (Raise EmptyInputError, self).
Proof. intros E. unfold compute_hull. rewrite E. reflexivity. Qed.

Lemma graham_scan_returns_not_nil (self : ConvexHull) (h : list point) :
  points self <> [] -> graham_scan M self = Ok h -> h <> [].
Proof.
  intros Hne H. rewrite (graham_scan_returns M self h H).
  apply graham_scan_not_nil. exact Hne.
Qed.

(** [plot] on an object with points whose cache is in order. *)
Lemma plot_cached (self : ConvexHull) :
  cached M self -> points self <> [] ->
  (exists h,
     graham_scan M self = Ok h
     /\ plot M self
        = (Ok (create_plot (points self) h),
           {| points := points self; hull := h |}))
  \/ (graham_scan M self = Raise OverflowError
      /\ plot M self = (Raise OverflowError, self)).
Proof.
  intros Hc Hne. unfold plot.
  destruct (hull self) as [|a hl] eqn:Eh.
  - destruct (graham_scan M self) as [h|e] eqn:G.
    + left. exists h. split; [reflexivity|].
      rewrite (compute_hull_returns self h Hne G). reflexivity.
    + right. rewrite (compute_hull_raises self e Hne G).
      rewrite (graham_scan_raises M self e G). split; reflexivity.
  - left. exists (a :: hl).
    destruct Hc as [E|E]; [congruence|]. rewrite Eh in E.
    split; [exact E|].
    destruct self as [pts hh]; cbn [hull points] in *. subst hh. reflexivity.
Qed.

Lemma plot_cached_empty (self : ConvexHull) :
  cached M self -> points self = [] ->
  plot M self = (Raise EmptyInputError, self).
Proof.
  intros Hc Hnil.
  assert (E : hull self = []).
  { destruct Hc as [E|E]; [exact E|].
    rewrite graham_scan_small_returns in E by (rewrite Hnil; simpl; lia).
    injection E as E. rewrite <- E. exact Hnil. }
  unfold plot. rewrite E, (compute_hull_empty self Hnil). reflexivity.
Qed.

Lemma compute_hull_cached (self : ConvexHull) :
  cached M self -> cached M (snd (compute_hull M self)).
Proof.
  intros Hc. destruct (points self) eqn:E.
  - rewrite (compute_hull_empty self E). exact Hc.
  - assert (Hne : points self <> []) by (rewrite E; discriminate).
    destruct (graham_scan M self) as [h|e] eqn:G.
    + rewrite (compute_hull_returns self h Hne G). right. cbn [snd hull].
      rewrite <- G. apply graham_scan_field. reflexivity.
    + rewrite (compute_hull_raises self e Hne G). exact Hc.
Qed.

Lemma do_call_cached (self : ConvexHull) (c : call) :
  cached M self -> cached M (do_call M self c).
Proof.
  intros Hc. destruct c as [pts|new_points| |]; cbn [do_call].
  - left. reflexivity.
  - left. reflexivity.
  - apply compute_hull_cached. exact Hc.
  - destruct (points self) eqn:E.
    + rewrite (plot_cached_empty self Hc E). exact Hc.
    + assert (Hne : points self <> []) by (rewrite E; discriminate).
      destruct (plot_cached self Hc Hne) as [(h & G & ->)|(_ & ->)].
      * right. cbn [snd hull]. rewrite <- G.
        apply graham_scan_field. reflexivity.
      * exact Hc.
Qed.

Lemma fold_do_call_cached (calls : list call) :
  forall self, cached M self -> cached M (fold_left (do_call M) calls self).
Proof.
  induction calls as [|c calls IH]; intros self Hc; cbn [fold_left];
    [exact Hc|].
  apply IH, do_call_cached, Hc.
Qed.

Lemma do_calls_cached (pts : list point) (calls : list call) :
  cached M (do_calls M pts calls).
Proof. apply fold_do_call_cached. left. reflexivity. Qed.

End MethodCalls.

(** X9.  After any sequence of calls of [set_points], [add_points],
    [compute_hull] and [plot] on a new object that leaves it with points,
    [plot] either draws the points and the hull that [graham_scan] returns
    on the points the object then holds, never one computed from earlier
    points, and leaves that hull in the object; or, when [graham_scan]
    raises [OverflowError] on them, raises it and leaves the object as it
    is. *)
Theorem plot_draws_current_hull (M : libm) (pts : list point)
    (calls : list call) :
  points (do_calls M pts calls) <> [] ->
  ((exists h,
      graham_scan M (do_calls M pts calls) = Ok h
      /\ plot M (do_calls M pts calls)
         = (Ok (create_plot (points (do_calls M pts calls)) h),
            {| points := points (do_calls M pts calls); hull := h |}))
   \/ (graham_scan M (do_calls M pts calls) = Raise OverflowError
       /\ plot M (do_calls M pts calls)
          = (Raise OverflowError, do_calls M pts calls)))
  /\ (in_range M (points (do_calls M pts calls)) ->
      exists h,
        graham_scan M (do_calls M pts calls) = Ok h
        /\ plot M (do_calls M pts calls)
           = (Ok (create_plot (points (do_calls M pts calls)) h),
              {| points := points (do_calls M pts calls); hull := h |})).
Proof.
  intros Hne.
  pose proof (plot_cached M _ (do_calls_cached M pts calls) Hne) as H.
  split; [exact H|]. intros Hr.
  destruct H as [H|[G _]]; [exact H|].
  rewrite (graham_scan_in_range M _ Hr) in G. discriminate G.
Qed.

Lemma plot_draws_current_hull_witness :
  points (do_calls rounding [(0, 0); (2, 0); (0, 2)]
            [ComputeHull; AddPoints [(2, 2); (1, 1)]]) <> []
  /\ in_range rounding
       (points (do_calls rounding [(0, 0); (2, 0); (0, 2)]
                  [ComputeHull; AddPoints [(2, 2); (1, 1)]]))
  /\ plot rounding
       (do_calls rounding [(0, 0); (2, 0); (0, 2)]
          [ComputeHull; AddPoints [(2, 2); (1, 1)]])
     = (Ok {| scatter := ([0; 2; 0; 2; 1], [0; 0; 2; 2; 1]);
              line := Some ([0; 2; 2; 0; 0], [0; 0; 2; 2; 0]) |},
        {| points := [(0, 0); (2, 0); (0, 2); (2, 2); (1, 1)];
           hull := [(0, 0); (2, 0); (2, 2); (0, 2)] |})
  /\ exists h,
       graham_scan rounding
         (do_calls rounding [(0, 0); (2, 0); (0, 2)]
            [ComputeHull; AddPoints [(2, 2); (1, 1)]]) = Ok h
       /\ plot rounding
            (do_calls rounding [(0, 0); (2, 0); (0, 2)]
               [ComputeHull; AddPoints [(2, 2); (1, 1)]])
          = (Ok (create_plot
                   (points (do_calls rounding [(0, 0); (2, 0); (0, 2)]
                              [ComputeHull; AddPoints [(2, 2); (1, 1)]])) h),
             {| points := points (do_calls rounding [(0, 0); (2, 0); (0, 2)]
                                    [ComputeHull; AddPoints [(2, 2); (1, 1)]]);
                hull := h |}).
Proof.
  assert (Hr : in_range rounding
                 (points (do_calls rounding [(0, 0); (2, 0); (0, 2)]
                            [ComputeHull; AddPoints [(2, 2); (1, 1)]]))).
  { apply in_range_b_spec. vm_compute. reflexivity. }
  split; [discriminate|]. split; [exact Hr|].
  split; [vm_compute; reflexivity|].
  apply (proj2 (plot_draws_current_hull rounding [(0, 0); (2, 0); (0, 2)]
                  [ComputeHull; AddPoints [(2, 2); (1, 1)]]
                  ltac:(discriminate))).
  exact Hr.
Defined.

(** X10.  After any such sequence of calls that leaves the object without
    points, [plot] raises the error of [compute_hull] and leaves the object
    as it is. *)
Theorem plot_without_points (M : libm) (pts : list point) (calls : list call) :
  points (do_calls M pts calls) = [] ->
  plot M (do_calls M pts calls)
  = (Raise EmptyInputError, do_calls M pts calls).
Proof.
  intros Hnil. apply plot_cached_empty; [apply do_calls_cached|exact Hnil].
Qed.

Lemma plot_without_points_witness :
  points (do_calls exact [(0, 0); (2, 0); (0, 2)] [ComputeHull; SetPoints []]) = []
  /\ plot exact (do_calls exact [(0, 0); (2, 0); (0, 2)] [ComputeHull; SetPoints []])
     = (Raise EmptyInputError,
        do_calls exact [(0, 0); (2, 0); (0, 2)] [ComputeHull; SetPoints []]).
Proof.
  split; [reflexivity|].
  apply (plot_without_points exact [(0, 0); (2, 0); (0, 2)]
           [ComputeHull; SetPoints []]).
  reflexivity.
Defined.

Lemma outline_short (h : list point) :
  (length h < 3)%nat -> outline h = None.
Proof.
  intros Hlen. unfold outline.
  destruct (Z.gtb_spec (Z.of_nat (length h)) 2); [lia|reflexivity].
Qed.

(** X11.  For a non-empty input of points with integer coordinates that
    are all collinear, whatever its size and whatever the math library,
    [plot] on the new object either draws the points and no hull line, or
    raises the [OverflowError] of a call into [math]. *)
Theorem collinear_input_no_line (M : libm) (pts : list point) :
  pts <> [] -> all_collinear pts ->
  ((exists fig, fst (plot M (new pts)) = Ok fig /\ line fig = None)
   \/ fst (plot M (new pts)) = Raise OverflowError)
  /\ (in_range M pts ->
      exists fig, fst (plot M (new pts)) = Ok fig /\ line fig = None).
Proof.
  intros Hne Hcol.
  assert (Hshort : forall h, graham_scan M (new pts) = Ok h ->
                     outline h = None).
  { intros h G. apply outline_short.
    rewrite (graham_scan_returns M (new pts) h G).
    destruct (Nat.lt_ge_cases (length pts) 3) as [Hlen|Hlen].
    - rewrite graham_scan_small by exact Hlen. exact Hlen.
    - destruct (graham_scan_collinear M (new pts) Hlen Hcol) as [b ->].
      simpl. lia. }
  destruct (plot_cached M (new pts)) as [(h & G & E)|(G & E)];
    [left; reflexivity|exact Hne| |].
  - assert (H : exists fig, fst (plot M (new pts)) = Ok fig /\ line fig = None).
    { rewrite E. eexists. split; [reflexivity|].
      cbn [line create_plot]. exact (Hshort h G). }
    split; [left; exact H|intros _; exact H].
  - split; [right; rewrite E; reflexivity|].
    intros Hr.
    rewrite (graham_scan_in_range M (new pts) Hr) in G. discriminate G.
Qed.

Lemma collinear_input_no_line_witness :
  [(0, 0); (1, 1); (3, 3); (2, 2)] <> []
  /\ all_collinear [(0, 0); (1, 1); (3, 3); (2, 2)]
  /\ in_range rounding [(0, 0); (1, 1); (3, 3); (2, 2)]
  /\ fst (plot rounding (new [(0, 0); (1, 1); (3, 3); (2, 2)]))
     = Ok {| scatter := ([0; 1; 3; 2], [0; 1; 3; 2]); line := None |}
  /\ exists fig,
       fst (plot rounding (new [(0, 0); (1, 1); (3, 3); (2, 2)])) = Ok fig
       /\ line fig = None.
Proof.
  assert (Hcol : all_collinear [(0, 0); (1, 1); (3, 3); (2, 2)]).
  { intros p q r Hp Hq Hr. cbn [In] in Hp, Hq, Hr.
    repeat (destruct Hp as [<-|Hp]; [|]); try contradiction;
    repeat (destruct Hq as [<-|Hq]; [|]); try contradiction;
    repeat (destruct Hr as [<-|Hr]; [|]); try contradiction; reflexivity. }
  assert (Hr : in_range rounding [(0, 0); (1, 1); (3, 3); (2, 2)]).
  { apply in_range_b_spec. vm_compute. reflexivity. }
  split; [discriminate|]. split; [exact Hcol|]. split; [exact Hr|].
  split; [vm_compute; reflexivity|].
  apply (proj2 (collinear_input_no_line rounding
                  [(0, 0); (1, 1); (3, 3); (2, 2)]
                  ltac:(discriminate) Hcol)).
  exact Hr.
Defined.

(** ** The order and the shape of the hull *)

(** X12.  For every math library, in a hull of three points or more every
    three successive entries [h[i]], [h[i+1]], [h[i+2]] turn
    counterclockwise; only the two triples that wrap around the end of the
    list depend on the float comparisons. *)
Theorem hull_chain_turns_left (M : libm) (self : ConvexHull) (h : list point) :
  returns M self h ->
  forall i : nat, (i + 2 < length h)%nat ->
    orientation (nth i h origin) (nth (i + 1) h origin) (nth (i + 2) h origin) = 2.
Proof.
  intros Hret i Hi. apply returns_graham_scan in Hret. destruct Hret as [_ ->].
  destruct (graham_scan_chain M self ltac:(lia)) as (st & Est & Hch).
  destruct (nth_split3 origin (graham_scan_val M self) i Hi) as (pre & post & Esp).
  apply orientation_ccw.
  apply (chain_ccw_split st (rev post) (rev pre)); [exact Hch|].
  apply (rev_split3 st (graham_scan_val M self)); [exact Est|exact Esp].
Qed.

Lemma hull_chain_turns_left_witness :
  returns rounding
    (new [(0, 0); (2 ^ 54, 0); (2 ^ 53, 2 ^ 53 + 1); (2 ^ 53, 2 ^ 53)])
    [(0, 0); (2 ^ 54, 0); (2 ^ 53, 2 ^ 53 + 1); (2 ^ 53, 2 ^ 53)]
  /\ Nat.lt (1 + 2)
       (length [(0, 0); (2 ^ 54, 0); (2 ^ 53, 2 ^ 53 + 1); (2 ^ 53, 2 ^ 53)])
  /\ orientation (2 ^ 54, 0) (2 ^ 53, 2 ^ 53 + 1) (2 ^ 53, 2 ^ 53) = 2.
Proof.
  split; [vm_compute; reflexivity|]. split; [unfold Nat.lt; simpl; lia|].
  apply (hull_chain_turns_left rounding
           (new [(0, 0); (2 ^ 54, 0); (2 ^ 53, 2 ^ 53 + 1); (2 ^ 53, 2 ^ 53)])
           [(0, 0); (2 ^ 54, 0); (2 ^ 53, 2 ^ 53 + 1); (2 ^ 53, 2 ^ 53)]
           ltac:(vm_compute; reflexivity) 1%nat).
  simpl. lia.
Defined.

(** X13.  For points with integer coordinates: when the float comparisons
    are exact on the input, the entries of a hull of three points or more
    behind the first are in strictly increasing angle about the first: any
    two of them, taken in the order of the list, turn counterclockwise with
    it. *)
Theorem hull_angular_order (M : libm) (self : ConvexHull) (h : list point) :
  exact_on M (points self) ->
  returns M self h ->
  (3 <= length h)%nat ->
  forall i j : nat, (1 <= i)%nat -> (i < j)%nat -> (j < length h)%nat ->
    orientation (nth 0 h origin) (nth i h origin) (nth j h origin) = 2.
Proof.
  intros Hex Hret Hlen i j Hi Hij Hj.
  apply (returns_exact M self h Hex) in Hret.
  destruct (hull_exact_cases self h Hret)
    as [(Hs & -> & _)|[(_ & x & -> & _)|(_ & st & -> & Hok & _)]];
    [lia|simpl in Hlen; lia|].
  destruct (stack_ok_rev (lowest_of (points self)) st Hok)
    as (hs & Eh & _ & Hsort & _).
  rewrite Eh in *. cbn [length] in Hj.
  destruct i as [|i]; [lia|]. destruct j as [|j]; [lia|].
  cbn [nth].
  pose proof (StronglySorted_nth (ang_lt (lowest_of (points self))) origin hs
                Hsort i j ltac:(lia) ltac:(lia)) as (_ & _ & Ht).
  apply orientation_ccw. exact Ht.
Qed.

Lemma hull_angular_order_witness :
  exact_on rounding (points (new [(0, 0); (2, 0); (1, 1); (2, 2); (0, 2)]))
  /\ returns rounding (new [(0, 0); (2, 0); (1, 1); (2, 2); (0, 2)])
             [(0, 0); (2, 0); (2, 2); (0, 2)]
  /\ orientation (0, 0) (2, 0) (0, 2) = 2.
Proof.
  split; [apply exact_on_b_spec; vm_compute; reflexivity|]. split; [vm_compute; reflexivity|].
  apply (hull_angular_order rounding
           (new [(0, 0); (2, 0); (1, 1); (2, 2); (0, 2)])
           [(0, 0); (2, 0); (2, 2); (0, 2)]
           ltac:(apply exact_on_b_spec; vm_compute; reflexivity)
           ltac:(vm_compute; reflexivity) ltac:(simpl; lia) 1%nat 3%nat);
    simpl; lia.
Defined.

(** Fewer than three points are collinear: of any three, two are the
    same. *)
Lemma small_all_collinear (pts : list point) :
  (length pts < 3)%nat -> all_collinear pts.
Proof.
  intros Hlen p q r Hp Hq Hr.
  destruct pts as [|a [|b [|c pts]]]; cbn [length] in Hlen; try lia;
    cbn [In] in Hp, Hq, Hr;
    repeat match goal with
           | H : _ \/ _ |- _ => destruct H as [H|H]
           | H : False |- _ => contradiction
           end;
    subst; apply orientation_col;
    first [apply turn_same_l|apply turn_same_r|apply turn_same_lr].
Qed.

(** Points on one segment from the anchor are collinear. *)
Lemma dominated_all_collinear (L x : point) (pts : list point) :
  x = L \/ above L x ->
  (forall z, In z pts -> dominated L z x) ->
  all_collinear pts.
Proof.
  intros Hx Hdom p q r Hp Hq Hr.
  destruct (dominated_scale L p x (Hdom p Hp) Hx) as (k1 & d1 & Hd1 & _ & X1 & Y1).
  destruct (dominated_scale L q x (Hdom q Hq) Hx) as (k2 & d2 & Hd2 & _ & X2 & Y2).
  destruct (dominated_scale L r x (Hdom r Hr) Hx) as (k3 & d3 & Hd3 & _ & X3 & Y3).
  apply orientation_col.
  set (ux := px x - px L) in *. set (uy := py x - py L) in *.
  assert (E1 : d1 * d2 * (py q - py p) = (d1 * k2 - d2 * k1) * uy).
  { replace (d1 * d2 * (py q - py p))
      with (d1 * (d2 * (py q - py L)) - d2 * (d1 * (py p - py L))) by ring.
    rewrite Y1, Y2. ring. }
  assert (E2 : d1 * d2 * (px q - px p) = (d1 * k2 - d2 * k1) * ux).
  { replace (d1 * d2 * (px q - px p))
      with (d1 * (d2 * (px q - px L)) - d2 * (d1 * (px p - px L))) by ring.
    rewrite X1, X2. ring. }
  assert (E3 : d2 * d3 * (px r - px q) = (d2 * k3 - d3 * k2) * ux).
  { replace (d2 * d3 * (px r - px q))
      with (d2 * (d3 * (px r - px L)) - d3 * (d2 * (px q - px L))) by ring.
    rewrite X2, X3. ring. }
  assert (E4 : d2 * d3 * (py r - py q) = (d2 * k3 - d3 * k2) * uy).
  { replace (d2 * d3 * (py r - py q))
      with (d2 * (d3 * (py r - py L)) - d3 * (d2 * (py q - py L))) by ring.
    rewrite Y2, Y3. ring. }
  assert (E : d1 * d2 * (d2 * d3) * turn p q r = 0).
  { unfold turn.
    replace (d1 * d2 * (d2 * d3)
             * ((py q - py p) * (px r - px q) - (px q - px p) * (py r - py q)))
      with (d1 * d2 * (py q - py p) * (d2 * d3 * (px r - px q))
            - d1 * d2 * (px q - px p) * (d2 * d3 * (py r - py q))) by ring.
    rewrite E1, E2, E3, E4. ring. }
  apply Z.mul_eq_0 in E. destruct E as [E|E]; [|exact E].
  assert (0 < d1 * d2 * (d2 * d3)) by (repeat apply Z.mul_pos_pos; assumption).
  lia.
Qed.

(** X14.  For points with integer coordinates: when the float comparisons
    are exact on the input, the hull has three points or more exactly when
    the input points are not all on one line. *)
Theorem hull_polygon_iff_not_collinear (M : libm) (self : ConvexHull)
    (h : list point) :
  exact_on M (points self) ->
  returns M self h ->
  ((3 <= length h)%nat <-> ~ all_collinear (points self)).
Proof.
  intros Hex Hret.
  apply (returns_exact M self h Hex) in Hret.
  pose proof Hret as Hg. apply returns_graham_scan in Hg. destruct Hg as [Hne Eh].
  split.
  - intros Hlen Hcol.
    destruct (Nat.lt_ge_cases (length (points self)) 3) as [Hs|Hb].
    + rewrite graham_scan_small in Eh by exact Hs. subst h. lia.
    + destruct (graham_scan_collinear exact self Hb Hcol) as [b Eb].
      rewrite Eb in Eh. subst h. simpl in Hlen. lia.
  - intros Hncol.
    destruct (hull_exact_cases self h Hret)
      as [(Hs & _)|[(_ & x & _ & Hx & Hdom)|(_ & st & -> & _ & Hl & _)]].
    + exfalso. apply Hncol. apply small_all_collinear. exact Hs.
    + exfalso. apply Hncol.
      apply (dominated_all_collinear (lowest_of (points self)) x); [|exact Hdom].
      destruct (lowest_of_anchor (points self) Hne) as [_ Hmin].
      destruct (Hmin x Hx) as [E|E]; [left; exact E|right; exact E].
    + rewrite length_rev. exact Hl.
Qed.

Lemma hull_polygon_iff_not_collinear_witness :
  exact_on rounding (points (new [(0, 0); (2, 0); (1, 1); (2, 2); (0, 2)]))
  /\ returns rounding (new [(0, 0); (2, 0); (1, 1); (2, 2); (0, 2)])
             [(0, 0); (2, 0); (2, 2); (0, 2)]
  /\ (Nat.le 3 (length [(0, 0); (2, 0); (2, 2); (0, 2)])
      <-> ~ all_collinear (points (new [(0, 0); (2, 0); (1, 1); (2, 2); (0, 2)]))).
Proof.
  split; [apply exact_on_b_spec; vm_compute; reflexivity|]. split; [vm_compute; reflexivity|].
  apply (hull_polygon_iff_not_collinear rounding
           (new [(0, 0); (2, 0); (1, 1); (2, 2); (0, 2)]));
    [apply exact_on_b_spec; vm_compute; reflexivity|vm_compute; reflexivity].
Defined.

Lemma lowest_of_same_set (pts pts' : list point) :
  pts <> [] -> pts' <> [] -> same_set pts pts' ->
  lowest_of pts' = lowest_of pts.
Proof.
  intros Hne Hne' Hsame.
  destruct (lowest_of_anchor pts Hne) as [Hin Hmin].
  destruct (lowest_of_anchor pts' Hne') as [Hin' Hmin'].
  apply (anchor_unique pts); split; auto.
  - apply Hsame. exact Hin'.
  - intros p Hp. apply Hmin'. apply Hsame. exact Hp.
Qed.

(** X15.  For points with integer coordinates: when the float comparisons
    are exact, two inputs of three points or more that hold the same
    points, in any order and however often each is repeated, give the same
    hull, entry by entry, when [compute_hull] returns on both. *)
Theorem hull_of_same_points (M : libm) (self self' : ConvexHull)
    (h h' : list point) :
  same_set (points self) (points self') ->
  (3 <= length (points self))%nat -> (3 <= length (points self'))%nat ->
  exact_on M (points self) ->
  returns M self h -> returns M self' h' ->
  h = h'.
Proof.
  intros Hsame Hlen Hlen' Hex Hret Hret'.
  assert (Hne : points self <> [])
    by (destruct (points self); [simpl in Hlen; lia|discriminate]).
  assert (Hne' : points self' <> [])
    by (destruct (points self'); [simpl in Hlen'; lia|discriminate]).
  pose proof (lowest_of_same_set _ _ Hne Hne' Hsame) as HL.
  assert (Hex' : exact_on M (points self')).
  { apply (exact_on_incl M (points self)); [exact Hex| |exact HL].
    intros p Hp. apply Hsame. exact Hp. }
  apply (returns_exact M self h Hex) in Hret.
  apply (returns_exact M self' h' Hex') in Hret'.
  apply returns_graham_scan in Hret, Hret'.
  destruct Hret as [_ ->], Hret' as [_ ->].
  destruct (phase2_exact self Hlen) as (t & Eg & Htne & Hin & Hdom & Hshape).
  destruct (phase2_exact self' Hlen') as (t' & Eg' & Htne' & Hin' & Hdom' & Hshape').
  rewrite HL in *. rewrite Eg, Eg'. f_equal.
  apply (collapsed_unique (lowest_of (points self)) (points self) (points self'));
    auto.
Qed.

Lemma hull_of_same_points_witness :
  same_set (points (new [(0, 0); (2, 0); (0, 2)]))
           (points (new [(0, 2); (0, 0); (2, 0); (0, 0); (0, 2)]))
  /\ Nat.le 3 (length (points (new [(0, 0); (2, 0); (0, 2)])))
  /\ Nat.le 3 (length (points (new [(0, 2); (0, 0); (2, 0); (0, 0); (0, 2)])))
  /\ exact_on rounding (points (new [(0, 0); (2, 0); (0, 2)]))
  /\ returns rounding (new [(0, 0); (2, 0); (0, 2)]) [(0, 0); (2, 0); (0, 2)]
  /\ returns rounding (new [(0, 2); (0, 0); (2, 0); (0, 0); (0, 2)])
             [(0, 0); (2, 0); (0, 2)]
  /\ [(0, 0); (2, 0); (0, 2)] = [(0, 0); (2, 0); (0, 2)].
Proof.
  assert (Hsame : same_set (points (new [(0, 0); (2, 0); (0, 2)]))
                           (points (new [(0, 2); (0, 0); (2, 0); (0, 0); (0, 2)]))).
  { intros p. cbn [points new In]. tauto. }
  split; [exact Hsame|].
  split; [unfold Nat.le; simpl; lia|]. split; [unfold Nat.le; simpl; lia|].
  split; [apply exact_on_b_spec; vm_compute; reflexivity|]. split; [vm_compute; reflexivity|]. split; [vm_compute; reflexivity|].
  apply (hull_of_same_points rounding (new [(0, 0); (2, 0); (0, 2)])
           (new [(0, 2); (0, 0); (2, 0); (0, 0); (0, 2)]));
    [exact Hsame|simpl; lia|simpl; lia|apply exact_on_b_spec; vm_compute; reflexivity
    |vm_compute; reflexivity|vm_compute; reflexivity].
Defined.

(** ** The loop of Phase 2 *)

Lemma collapse_chain (M : libm) (L : point) (rest : list point) :
  forall c,
    c <> L ->
    (forall x, In x rest -> turn L c x = 0) ->
    distances_exact_on M L (c :: rest) ->
    exists m,
      collapse M L c rest = [m] /\ In m (c :: rest)
      /\ forall x, In x (c :: rest) -> dist2 L x <= dist2 L m.
Proof.
  induction rest as [|n rest IH]; intros c Hc Hcol Hd; cbn [collapse].
  - exists c. split; [reflexivity|]. split; [left; reflexivity|].
    intros x [<-|[]]. lia.
  - rewrite orientation_eqb_0, (Hcol n (or_introl eq_refl)), Z.eqb_refl.
    rewrite (Hd c n (or_introl eq_refl) (or_intror (or_introl eq_refl))).
    destruct (Z.ltb_spec (dist2 L c) (dist2 L n)) as [Hlt|Hge].
    + assert (Hn : n <> L).
      { intros ->. rewrite dist2_same in Hlt.
        pose proof (dist2_nonneg L c). lia. }
      destruct (IH n Hn) as (m & Em & Hm & Hmax).
      * intros x Hx. apply (turn_collinear_trans L n c x Hc).
        -- rewrite turn_swap, (Hcol n (or_introl eq_refl)). reflexivity.
        -- apply Hcol. right. exact Hx.
      * intros p q Hp Hq. apply Hd; right; assumption.
      * exists m. split; [exact Em|]. split; [right; exact Hm|].
        intros x [<-|Hx]; [|apply Hmax; exact Hx].
        pose proof (Hmax n (or_introl eq_refl)). lia.
    + destruct (IH c Hc) as (m & Em & Hm & Hmax).
      * intros x Hx. apply Hcol. right. exact Hx.
      * intros p q Hp Hq.
        apply Hd; [destruct Hp as [<-|Hp]|destruct Hq as [<-|Hq]];
          first [left; reflexivity|right; right; assumption].
      * exists m. split; [exact Em|]. split.
        -- destruct Hm as [<-|Hm]; [left; reflexivity|right; right; exact Hm].
        -- intros x [<-|[<-|Hx]].
           ++ apply Hmax. left. reflexivity.
           ++ pose proof (Hmax c (or_introl eq_refl)). lia.
           ++ apply Hmax. right. exact Hx.
Qed.

(** X16.  For points with integer coordinates: when the entry at index [i]
    of the sorted list is not the anchor, all the entries behind it are on
    its line through the anchor, and the comparisons of their distances
    are exact, the loop of Phase 2, started at [i], either raises the
    [OverflowError] of a call of [distance] or leaves of these entries
    exactly one, which is at the greatest distance from the anchor, and
    keeps the entries before [i]; it does not raise when the squared
    distances convert to floats. *)
Theorem collapse_loop_keeps_farthest (M : libm) (lowest c : point)
    (pre rest : list point) :
  c <> lowest ->
  (forall x, In x rest -> orientation lowest c x = 0) ->
  distances_exact_on M lowest (c :: rest) ->
  ((exists m,
      collapse_loop M (length (pre ++ c :: rest)) lowest (length pre)
                    (pre ++ c :: rest)
      = Ok (pre ++ [m])
      /\ In m (c :: rest)
      /\ forall x, In x (c :: rest) -> dist2 lowest x <= dist2 lowest m)
   \/ collapse_loop M (length (pre ++ c :: rest)) lowest (length pre)
                    (pre ++ c :: rest)
      = Raise OverflowError)
  /\ (Forall (fun p => fits M (dist2 lowest p) = true) (c :: rest) ->
      exists m,
        collapse_loop M (length (pre ++ c :: rest)) lowest (length pre)
                      (pre ++ c :: rest)
        = Ok (pre ++ [m])).
Proof.
  intros Hc Hcol Hd.
  assert (Hfuel : (length rest <= length (pre ++ c :: rest))%nat)
    by (rewrite length_app; cbn [length]; lia).
  destruct (collapse_chain M lowest rest c Hc) as (m & Em & Hm & Hmax);
    [intros x Hx; apply orientation_col, Hcol, Hx|exact Hd|].
  split.
  - destruct (collapse_loop M (length (pre ++ c :: rest)) lowest (length pre)
                (pre ++ c :: rest)) as [out|e] eqn:E.
    + left. exists m.
      rewrite (collapse_loop_returns M lowest rest pre c _ out Hfuel E), Em.
      auto.
    + right. rewrite (collapse_loop_raises M lowest _ _ _ e E). reflexivity.
  - intros Hfits. exists m.
    rewrite (collapse_loop_fits M lowest rest pre c _ Hfuel Hfits), Em.
    reflexivity.
Qed.

Lemma collapse_loop_keeps_farthest_witness :
  (1, 1) <> (0, 0)
  /\ (forall x, In x [(3, 3); (2, 2); (3, 3)] -> orientation (0, 0) (1, 1) x = 0)
  /\ distances_exact_on rounding (0, 0) [(1, 1); (3, 3); (2, 2); (3, 3)]
  /\ collapse_loop rounding
       (length ([(0, 0); (5, 0)] ++ [(1, 1); (3, 3); (2, 2); (3, 3)]))
       (0, 0) (length [(0, 0); (5, 0)])
       ([(0, 0); (5, 0)] ++ [(1, 1); (3, 3); (2, 2); (3, 3)])
     = Ok ([(0, 0); (5, 0)] ++ [(3, 3)])
  /\ ((exists m,
         collapse_loop rounding
           (length ([(0, 0); (5, 0)] ++ [(1, 1); (3, 3); (2, 2); (3, 3)]))
           (0, 0) (length [(0, 0); (5, 0)])
           ([(0, 0); (5, 0)] ++ [(1, 1); (3, 3); (2, 2); (3, 3)])
         = Ok ([(0, 0); (5, 0)] ++ [m])
         /\ In m [(1, 1); (3, 3); (2, 2); (3, 3)]
         /\ forall x, In x [(1, 1); (3, 3); (2, 2); (3, 3)] ->
              dist2 (0, 0) x <= dist2 (0, 0) m)
      \/ collapse_loop rounding
           (length ([(0, 0); (5, 0)] ++ [(1, 1); (3, 3); (2, 2); (3, 3)]))
           (0, 0) (length [(0, 0); (5, 0)])
           ([(0, 0); (5, 0)] ++ [(1, 1); (3, 3); (2, 2); (3, 3)])
         = Raise OverflowError).
Proof.
  assert (Hcol : forall x, In x [(3, 3); (2, 2); (3, 3)] ->
                   orientation (0, 0) (1, 1) x = 0).
  { intros x Hx. cbn [In] in Hx.
    repeat (destruct Hx as [<-|Hx]; [reflexivity|]). contradiction. }
  assert (Hd : distances_exact_on rounding (0, 0)
                 [(1, 1); (3, 3); (2, 2); (3, 3)]).
  { intros p q Hp Hq. cbn [In] in Hp, Hq.
    repeat (destruct Hp as [<-|Hp]; [|]); try contradiction;
    repeat (destruct Hq as [<-|Hq]; [|]); try contradiction;
    vm_compute; reflexivity. }
  split; [discriminate|]. split; [exact Hcol|]. split; [exact Hd|].
  split; [vm_compute; reflexivity|].
  apply (collapse_loop_keeps_farthest rounding (0, 0) (1, 1) [(0, 0); (5, 0)]
           [(3, 3); (2, 2); (3, 3)]); [discriminate|exact Hcol|exact Hd].
Defined.

(** ** The end of the loop *)

Lemma collapse_step_variant (M : libm) (lowest : point) (i i' : nat)
    (sp sp' : list point) :
  collapse_step M lowest i sp = Ok (Some (i', sp')) ->
  (length sp' - i' < length sp - i)%nat.
Proof.
  unfold collapse_step.
  destruct (Z.ltb_spec (Z.of_nat i) (Z.of_nat (length sp) - 1)) as [Hi|Hi];
    [|discriminate].
  cbv zeta.
  assert (Hpop : forall j, (j < length sp)%nat ->
            length (pop_at j sp) = (length sp - 1)%nat).
  { intros j Hj. unfold pop_at.
    rewrite length_app, length_firstn, length_skipn. lia. }
  destruct (orientation lowest (nth i sp origin) (nth (i + 1) sp origin) =? 0).
  - intros H. apply bind_returns in H. destruct H as (d1 & _ & H).
    apply bind_returns in H. destruct H as (d2 & _ & H).
    destruct (flt M d1 d2); injection H as <- <-;
      rewrite Hpop by lia; lia.
  - intros H. injection H as <- <-. lia.
Qed.

Lemma collapse_loop_rounds (M : libm) (lowest : point) (fuel : nat) :
  forall (i : nat) (sp : list point),
    (length sp - i <= fuel)%nat ->
    exists k : nat,
      (k <= length sp - i)%nat
      /\ ((exists i' sp',
             collapse_rounds M k lowest i sp = Ok (Some (i', sp'))
             /\ collapse_step M lowest i' sp' = Ok None
             /\ collapse_loop M fuel lowest i sp = Ok sp')
          \/ (exists i' sp',
                collapse_rounds M k lowest i sp = Ok (Some (i', sp'))
                /\ collapse_step M lowest i' sp' = Raise OverflowError
                /\ collapse_loop M fuel lowest i sp = Raise OverflowError)).
Proof.
  induction fuel as [|fuel IH]; intros i sp Hfuel.
  - exists 0%nat. split; [lia|]. left. exists i, sp.
    split; [reflexivity|]. split; [|reflexivity].
    unfold collapse_step.
    destruct (Z.ltb_spec (Z.of_nat i) (Z.of_nat (length sp) - 1));
      [lia|reflexivity].
  - destruct (collapse_step M lowest i sp) as [[[i1 sp1]|]|e] eqn:Es.
    + pose proof (collapse_step_variant M lowest i i1 sp sp1 Es) as Hv.
      destruct (IH i1 sp1 ltac:(lia)) as (k & Hk & Hres).
      exists (S k). split; [lia|].
      cbn [collapse_rounds collapse_loop]. rewrite Es. cbn [bind].
      exact Hres.
    + exists 0%nat. split; [lia|]. left. exists i, sp.
      split; [reflexivity|]. split; [exact Es|].
      cbn [collapse_loop]. rewrite Es. reflexivity.
    + exists 0%nat. split; [lia|]. right. exists i, sp.
      pose proof (collapse_step_raises M lowest i sp e Es) as ->.
      split; [reflexivity|]. split; [exact Es|].
      cbn [collapse_loop]. rewrite Es. reflexivity.
Qed.

(** X17.  The loop of Phase 2 ends within [len(sorted_points) - i] rounds
    for every math library and every start index [i]: after that many
    rounds at most it has reached a state in which its condition is false,
    and the list of that state is what the loop returns, or a call of
    [distance] has raised [OverflowError]. *)
Theorem collapse_loop_ends (M : libm) (lowest : point) (i : nat)
    (sp : list point) :
  exists k : nat,
    (k <= length sp - i)%nat
    /\ ((exists i' sp',
           collapse_rounds M k lowest i sp = Ok (Some (i', sp'))
           /\ collapse_step M lowest i' sp' = Ok None
           /\ collapse_loop M (length sp) lowest i sp = Ok sp')
        \/ (exists i' sp',
              collapse_rounds M k lowest i sp = Ok (Some (i', sp'))
              /\ collapse_step M lowest i' sp' = Raise OverflowError
              /\ collapse_loop M (length sp) lowest i sp = Raise OverflowError)).
Proof. apply collapse_loop_rounds. lia. Qed.

